(** * Video-Steganography: the retrieval database builder

    A shallow embedding of [establishment_of_db.py]: the rendering of hash
    units, the SQLite table behind the retrieval database, the JSON progress
    file, and the resumable controller
    [video_retrieval_database_construction], followed by the properties of
    the specification that were checked against them. *)

From Stdlib Require Import ZArith NArith PArith Arith Lia List Bool String Ascii.
From Stdlib Require Import Sorting.Sorted DecimalString DecimalNat.
From Stdlib Require Import Floats.SpecFloat.
Import ListNotations.
Local Open Scope string_scope.

(* ===================================================================== *)
(** ** 1. Single-precision numbers

    [librosa.load] returns [float32] samples and OpenCV returns [float32]
    SIFT descriptors, so every number the hash functions render is an IEEE
    binary32 value.  They are modelled by [spec_float] at precision 24. *)

Definition prec32 : Z := 24.
Definition emax32 : Z := 128.

(** The single-precision value of an integer. *)
Definition f32_of_Z (n : Z) : spec_float := binary_normalize prec32 emax32 n 0 false.

Definition f32_add : spec_float -> spec_float -> spec_float := SFadd prec32 emax32.

(** C [fmod]: the remainder of the magnitudes, with the sign of the
    dividend.  It is exact (no rounding takes place), so it is returned as
    the integer remainder at the smaller of the two exponents. *)
Definition c_fmod (a b : spec_float) : spec_float :=
  match a, b with
  | S754_nan, _ => S754_nan
  | _, S754_nan => S754_nan
  | S754_infinity _, _ => S754_nan
  | _, S754_zero _ => S754_nan
  | S754_zero s, _ => S754_zero s
  | S754_finite _ _ _, S754_infinity _ => a
  | S754_finite sa ma ea, S754_finite _ mb eb =>
      let e := Z.min ea eb in
      let r := Z.modulo (Z.shiftl (Zpos ma) (ea - e)) (Z.shiftl (Zpos mb) (eb - e)) in
      match r with
      | Zpos p => S754_finite sa p e
      | _ => S754_zero sa
      end
  end.

Definition is_zero (x : spec_float) : bool :=
  match x with S754_zero _ => true | _ => false end.

(** C [isless(x, 0)]. *)
Definition isless0 (x : spec_float) : bool :=
  match x with
  | S754_infinity true | S754_finite true _ _ => true
  | _ => false
  end.

Definition sign_of (x : spec_float) : bool :=
  match x with
  | S754_zero s | S754_infinity s | S754_finite s _ _ => s
  | S754_nan => false
  end.

(** numpy's [%] on floating-point scalars ([npy_remainder] over
    [npy_divmod]): [fmod], then the divisor is added when the signs
    differ, so that the result takes the sign of the divisor. *)
Definition np_remainder (a b : spec_float) : spec_float :=
  let md := c_fmod a b in
  if is_zero b then md
  else if is_zero md then S754_zero (sign_of b)
  else if xorb (isless0 b) (isless0 md) then f32_add md b
  else md.

(** Python's [int(x)] on a float: truncation towards zero; NaN and the
    infinities raise. *)
Inductive PyExc := ValueError | OverflowError | JSONDecodeError | UnboundLocalError
                 | OperationalError | KeyboardInterrupt | FileNotFoundError.

Definition py_int (x : spec_float) : PyExc + Z :=
  match x with
  | S754_nan => inl ValueError
  | S754_infinity _ => inl OverflowError
  | S754_zero _ => inr 0%Z
  | S754_finite s m e =>
      inr (cond_Zopp s (if (0 <=? e)%Z then Z.shiftl (Zpos m) e
                        else Z.shiftr (Zpos m) (- e)))
  end.

(* ===================================================================== *)
(** ** 2. Rendering a hash unit: [format(n, '08b')] *)

Fixpoint bin_pos (p : positive) (acc : string) : string :=
  match p with
  | xH => String "1" acc
  | xO q => bin_pos q (String "0" acc)
  | xI q => bin_pos q (String "1" acc)
  end.

Fixpoint zeros (n : nat) : string :=
  match n with
  | O => ""
  | S k => String "0" (zeros k)
  end.

(** Zero padding on the left up to [width] characters; longer strings are
    left as they are. *)
Definition zfill (width : nat) (s : string) : string :=
  zeros (width - String.length s) ++ s.

(** [format(n, '08b')]: binary digits, sign first, zero-padded to a total
    width of eight. *)
Definition format_08b (n : Z) : string :=
  match n with
  | Z0 => zfill 8 "0"
  | Zpos p => zfill 8 (bin_pos p "")
  | Zneg p => String "-" (zfill 7 (bin_pos p ""))
  end.

(** [format(int(x % 256), '08b')], the expression shared by the three hash
    functions. *)
Definition hash_of_value (x : spec_float) : PyExc + string :=
  match py_int (np_remainder x (f32_of_Z 256)) with
  | inl e => inl e
  | inr n => inr (format_08b n)
  end.

(** A frame image, seen through what OpenCV and numpy compute for it:
    [np.sum(descriptors)], or [None] when SIFT finds no descriptor. *)
Definition Frame := option spec_float.

Definition calculate_sift_descriptors (frame : Frame) : PyExc + string :=
  match frame with
  | Some total => hash_of_value total
  | None => inr "00000000"
  end.

(** The list comprehension [[format(int(e % 256), '08b') for e in xs]]:
    the first element that raises aborts the whole comprehension. *)
Fixpoint hash_each (xs : list spec_float) : PyExc + list string :=
  match xs with
  | [] => inr []
  | x :: rest =>
      match hash_of_value x with
      | inl e => inl e
      | inr h =>
          match hash_each rest with
          | inl e => inl e
          | inr hs => inr (h :: hs)
          end
      end
  end.

(** The decoded audio track, seen through what numpy and PyWavelets compute
    for it: the energy [np.sum(window ** 2)] of each window of 2048
    samples, and [np.concatenate((approximation, detail))] of the [db1]
    transform. *)
Record Audio := {
  energy : list spec_float;
  combined_coeffs : list spec_float
}.

Definition calculate_ste_hash (audio_signal : Audio) : PyExc + list string :=
  hash_each (energy audio_signal).

(** [pywt.dwt] refuses a signal without samples with ValueError; for any
    other signal the two halves it returns are not empty. *)
Definition calculate_dwt_hash (audio_signal : Audio) : PyExc + list string :=
  match combined_coeffs audio_signal with
  | [] => inl ValueError
  | _ :: _ => hash_each (combined_coeffs audio_signal)
  end.

(** [update_retrieval_database] joins the pieces of a hash sequence:
    [''.join(map(str, hash_sequence))]. *)
Definition join_hash_sequence (hash_sequence : list string) : string :=
  String.concat "" hash_sequence.

(* ===================================================================== *)
(** ** 3. The retrieval database: table [RetrievalDatabase]

    A row carries the AUTOINCREMENT key and the four columns.  A TEXT column
    read back from SQLite is either NULL ([None]) or a string. *)

Record Row := {
  row_id : nat;
  ByteSequence : option string;
  VideoID : nat;
  FeatureID : string;
  PositionID : nat
}.

Definition Table := list Row.

(** [WHERE ByteSequence = ?]: a NULL column never compares equal. *)
Definition sql_text_eq (col : option string) (v : string) : bool :=
  match col with
  | Some s => String.eqb s v
  | None => false
  end.

(** [SELECT COUNT( * ) FROM RetrievalDatabase WHERE ...]. *)
Definition select_count (where_ : Row -> bool) (t : Table) : nat :=
  List.length (filter where_ t).

(** The key AUTOINCREMENT hands out: one more than the largest so far. *)
Definition next_row_id (t : Table) : nat := S (list_max (map row_id t)).

Definition insert_unique_into_database (t : Table) (byte_sequence : string)
    (video_id : nat) (feature_id : string) (position_id : nat) : Table :=
  if Nat.eqb (select_count (fun r => sql_text_eq (ByteSequence r) byte_sequence) t) 0
  then (t ++ [ {| row_id := next_row_id t;
                  ByteSequence := Some byte_sequence;
                  VideoID := video_id;
                  FeatureID := feature_id;
                  PositionID := position_id |} ])%list
  else t.

(** [WHERE ByteSequence IS NULL OR ByteSequence = '']. *)
Definition null_or_empty (r : Row) : bool :=
  match ByteSequence r with
  | None => true
  | Some s => String.eqb s ""
  end.

Definition check_database_integrity (t : Table) : bool :=
  Nat.eqb (select_count null_or_empty t) 0.

(** The non-NULL values of the [ByteSequence] column, in row order. *)
Fixpoint byte_sequences (t : Table) : list string :=
  match t with
  | [] => []
  | r :: rest =>
      match ByteSequence r with
      | Some s => s :: byte_sequences rest
      | None => byte_sequences rest
      end
  end.

(** [SELECT COUNT(DISTINCT ByteSequence)]: NULLs are not counted. *)
Definition distinct_hash_count (t : Table) : nat :=
  List.length (nodup string_dec (byte_sequences t)).

Definition check_all_hash_sequences_generated (t : Table) : bool :=
  Nat.eqb (distinct_hash_count t) 256.

Definition update_retrieval_database (t : Table) (video_id : nat)
    (feature_id : string) (position_id : nat) (hash_sequence : list string) : Table :=
  insert_unique_into_database t (join_hash_sequence hash_sequence)
                              video_id feature_id position_id.

(** A FeatureRecord is a row without its AUTOINCREMENT key. *)
Definition FeatureRecord : Type := option string * nat * string * nat.

Definition record_of (r : Row) : FeatureRecord :=
  (ByteSequence r, VideoID r, FeatureID r, PositionID r).

Definition records (t : Table) : list FeatureRecord := map record_of t.

(** Two stores hold the same set of FeatureRecords, insertion order aside. *)
Definition same_records (t1 t2 : Table) : Prop :=
  forall r, In r (records t1) <-> In r (records t2).

(** Replaying a list of [insert_unique] calls. *)
Definition InsertCall : Type := string * nat * string * nat.

Definition insert_all (calls : list InsertCall) (t : Table) : Table :=
  fold_left (fun acc c =>
               match c with
               | (b, v, f, p) => insert_unique_into_database acc b v f p
               end) calls t.

(** The provenance stored for a byte sequence: the first row that holds it. *)
Definition owner_of (byte_sequence : string) (t : Table) : option (nat * string * nat) :=
  match find (fun r => sql_text_eq (ByteSequence r) byte_sequence) t with
  | Some r => Some (VideoID r, FeatureID r, PositionID r)
  | None => None
  end.

(* ===================================================================== *)
(** ** 4. The progress file: [progress.json] *)

Record Progress := {
  video_index : nat;
  frame_index : nat;
  feature_stage : string
}.

Definition dquote : string := String "034"%char EmptyString.

Definition string_of_nat (n : nat) : string :=
  NilEmpty.string_of_uint (Nat.to_uint n).

(** The pieces [json.dump] hands to the file object one after the other
    for the progress dictionary, keys in insertion order: the brace, each
    key, each separator and each value is a [write] of its own.  Stage
    names are written between quotes as they are: the names this program
    handles hold no character that JSON escapes. *)
Definition json_chunks (progress : Progress) : list string :=
  [ "{"; dquote ++ "video_index" ++ dquote; ": ";
    string_of_nat (video_index progress);
    ", "; dquote ++ "frame_index" ++ dquote; ": ";
    string_of_nat (frame_index progress);
    ", "; dquote ++ "feature_stage" ++ dquote; ": ";
    dquote ++ feature_stage progress ++ dquote; "}" ].

(** The text [json.dump] writes in all. *)
Definition json_dumps (progress : Progress) : string :=
  "{" ++ dquote ++ "video_index" ++ dquote ++ ": "
      ++ string_of_nat (video_index progress)
      ++ ", " ++ dquote ++ "frame_index" ++ dquote ++ ": "
      ++ string_of_nat (frame_index progress)
      ++ ", " ++ dquote ++ "feature_stage" ++ dquote ++ ": "
      ++ dquote ++ feature_stage progress ++ dquote ++ "}".

(** Strip a literal from the front of a text. *)
Fixpoint expect (lit s : string) : option string :=
  match lit with
  | EmptyString => Some s
  | String c lit' =>
      match s with
      | String d s' => if Ascii.eqb c d then expect lit' s' else None
      | EmptyString => None
      end
  end.

Definition is_digit (c : ascii) : bool :=
  let n := nat_of_ascii c in (48 <=? n)%nat && (n <=? 57)%nat.

(** A character that JSON writes as it is inside a string. *)
Definition is_plain (c : ascii) : bool :=
  let n := nat_of_ascii c in
  (32 <=? n)%nat && (n <=? 126)%nat && negb (Nat.eqb n 34) && negb (Nat.eqb n 92).

Fixpoint span (keep : ascii -> bool) (s : string) : string * string :=
  match s with
  | EmptyString => (EmptyString, EmptyString)
  | String c rest =>
      if keep c
      then let (taken, left) := span keep rest in (String c taken, left)
      else (EmptyString, s)
  end.

(** JSON white space: space, tab, line feed, carriage return. *)
Definition is_space (c : ascii) : bool :=
  let n := nat_of_ascii c in
  Nat.eqb n 32 || Nat.eqb n 9 || Nat.eqb n 10 || Nat.eqb n 13.

Fixpoint skip_spaces (s : string) : string :=
  match s with
  | EmptyString => EmptyString
  | String c rest => if is_space c then skip_spaces rest else s
  end.

(** A token of the text, after any white space. *)
Definition token (lit s : string) : option string := expect lit (skip_spaces s).

(** A zero in front of another digit, which JSON does not allow. *)
Definition leading_zero (digits : string) : bool :=
  match digits with
  | String c (String _ _) => Ascii.eqb c "0"
  | _ => false
  end.

(** A JSON integer without sign. *)
Definition parse_nat (s : string) : option (nat * string) :=
  let (digits, rest) := span is_digit s in
  match digits with
  | EmptyString => None
  | _ =>
      if leading_zero digits then None
      else
        match NilEmpty.uint_of_string digits with
        | Some u => Some (Nat.of_uint u, rest)
        | None => None
        end
  end.

(** A string value whose characters JSON writes as they are. *)
Definition parse_plain_string (s : string) : option (string * string) :=
  match token dquote s with
  | None => None
  | Some s1 =>
      let (text, s2) := span is_plain s1 in
      match expect dquote s2 with
      | None => None
      | Some s3 => Some (text, s3)
      end
  end.

(** The three members of the progress dictionary, after the opening
    brace. *)
Definition parse_members (s : string) : option (Progress * string) :=
  match token (dquote ++ "video_index" ++ dquote) s with
  | None => None
  | Some s1 =>
  match token ":" s1 with
  | None => None
  | Some s2 =>
  match parse_nat (skip_spaces s2) with
  | None => None
  | Some (vi, s3) =>
  match token "," s3 with
  | None => None
  | Some s4 =>
  match token (dquote ++ "frame_index" ++ dquote) s4 with
  | None => None
  | Some s5 =>
  match token ":" s5 with
  | None => None
  | Some s6 =>
  match parse_nat (skip_spaces s6) with
  | None => None
  | Some (fi, s7) =>
  match token "," s7 with
  | None => None
  | Some s8 =>
  match token (dquote ++ "feature_stage" ++ dquote) s8 with
  | None => None
  | Some s9 =>
  match token ":" s9 with
  | None => None
  | Some s10 =>
  match parse_plain_string s10 with
  | None => None
  | Some (stage, s11) =>
      Some ({| video_index := vi; frame_index := fi; feature_stage := stage |}, s11)
  end end end end end end end end end end end.

(** [json.load] followed by the three subscriptions, on a text made of
    what [json.dump] writes for a progress dictionary: the three keys in
    that order, white space allowed between the tokens as JSON allows it.
    [None] stands for the exception [json.load] raises on a text that is
    not JSON (empty, cut short, with a zero in front of a number, with
    something after the closing brace).  JSON of another shape (keys in
    another order, further members, escapes in the stage name, numbers
    that are not naturals) is outside what is modelled and is refused
    here as well. *)
Definition json_loads (s : string) : option Progress :=
  match token "{" s with
  | None => None
  | Some s1 =>
  match parse_members s1 with
  | None => None
  | Some (progress, s2) =>
  match token "}" s2 with
  | None => None
  | Some s3 =>
      match skip_spaces s3 with
      | EmptyString => Some progress
      | String _ _ => None
      end
  end end end.

(* ===================================================================== *)
(** ** 5. The running process

    What the controller reads and writes outside itself: the SQLite file,
    the progress file and the artifacts of decoding. *)

Record World := {
  database : option Table;        (* retrieval_database.sqlite; [None]: no file yet *)
  progress_file : option string;  (* progress.json; [None]: no file *)
  disk : list string              (* the directories and files the script makes
                                     that are present, by path *)
}.

(** A video of the corpus: its file name without the [.mp4] extension and
    what the decoders return for it.  [audio] is what [librosa.load] reads
    from the [.wav] file of the video when that file is there; [wav_made]
    tells whether ffmpeg writes that file (it writes none for a video
    without audio stream, or whose name breaks the unquoted command
    line). *)
Record Video := {
  stem : string;
  frames : list Frame;
  audio : Audio;
  wav_made : bool
}.

Definition video_path_of (videos_dir : string) (v : Video) : string :=
  videos_dir ++ "/" ++ stem v ++ ".mp4".

(** [os.path.join(output_dir, f"frames_{video_name}")]. *)
Definition frame_dir_of (output_dir : string) (v : Video) : string :=
  output_dir ++ "/frames_" ++ stem v.

(** [f"{os.path.splitext(video_path)[0]}.wav"]. *)
Definition audio_path_of (videos_dir : string) (v : Video) : string :=
  videos_dir ++ "/" ++ stem v ++ ".wav".

(** [os.path.join(frame_dir, f"frame_{count}.jpg")]. *)
Definition frame_path_of (frame_dir : string) (count : nat) : string :=
  frame_dir ++ "/frame_" ++ string_of_nat count ++ ".jpg".

(** The local variables of [video_retrieval_database_construction] that
    outlive one statement; the interrupt handler closes over the first
    three. *)
Record Locals := {
  var_video_index : nat;
  var_frame_index : nat;
  var_feature_stage : string;
  var_carrier_videos : list string;
  var_frame_dir : option string;   (* [None]: not bound yet *)
  var_audio_path : option string   (* [None]: not bound yet *)
}.

Inductive Signal := SIGINT | SIGKILL.

(** What an observer of the process sees, in the order it happens. *)
Inductive Event :=
| EvCoverage (distinct : nat)          (* the count read by the per-video coverage check *)
| EvExtractFrames (video_path : string)
| EvExtractAudio (video_path : string)
| EvUpdate (video_id : nat) (feature_id : string) (position_id : nat)
           (byte_sequence : string)    (* one call of update_retrieval_database *)
| EvSaveUnit (p : Progress)            (* save_progress after a hash unit *)
| EvSaveTransition (p : Progress)      (* save_progress at the end of a stage *)
| EvSaveInterrupt (p : Progress)       (* save_progress inside handle_interrupt *)
| EvIntegrity (ok : bool)
| EvDeleteDirectory (path : string)
| EvDeleteFiles (paths : list string).

Record State := {
  world : World;
  vars : Locals;
  handler_installed : bool;           (* signal.signal(SIGINT, handle_interrupt) done *)
  pending : option (nat * Signal);    (* a signal due after that many more steps *)
  log : list Event;                   (* newest first *)
  buffered : option string            (* what json.dump has written to the file
                                         object of the save under way, not yet
                                         flushed; [None]: no save under way *)
}.

(** The events of a run in chronological order. *)
Definition trace (s : State) : list Event := rev (log s).

Definition set_world (f : World -> World) (s : State) : State :=
  {| world := f (world s); vars := vars s;
     handler_installed := handler_installed s; pending := pending s; log := log s;
     buffered := buffered s |}.

Definition set_vars (f : Locals -> Locals) (s : State) : State :=
  {| world := world s; vars := f (vars s);
     handler_installed := handler_installed s; pending := pending s; log := log s;
     buffered := buffered s |}.

Definition set_handler (b : bool) (s : State) : State :=
  {| world := world s; vars := vars s;
     handler_installed := b; pending := pending s; log := log s;
     buffered := buffered s |}.

Definition set_pending (p : option (nat * Signal)) (s : State) : State :=
  {| world := world s; vars := vars s;
     handler_installed := handler_installed s; pending := p; log := log s;
     buffered := buffered s |}.

Definition set_buffered (b : option string) (s : State) : State :=
  {| world := world s; vars := vars s;
     handler_installed := handler_installed s; pending := pending s; log := log s;
     buffered := b |}.

Definition add_event (e : Event) (s : State) : State :=
  {| world := world s; vars := vars s;
     handler_installed := handler_installed s; pending := pending s;
     log := e :: log s; buffered := buffered s |}.

Definition put_database (t : Table) (w : World) : World :=
  {| database := Some t; progress_file := progress_file w; disk := disk w |}.

Definition put_progress_file (text : string) (w : World) : World :=
  {| database := database w; progress_file := Some text; disk := disk w |}.

Definition put_disk (d : list string) (w : World) : World :=
  {| database := database w; progress_file := progress_file w; disk := d |}.

Definition on_disk (path : string) (d : list string) : bool :=
  existsb (String.eqb path) d.

Definition create_path (path : string) (d : list string) : list string :=
  if on_disk path d then d else (d ++ [path])%list.

Definition remove_path (path : string) (d : list string) : list string :=
  filter (fun q => negb (String.eqb path q)) d.

Fixpoint starts_with (lead s : string) : bool :=
  match lead with
  | EmptyString => true
  | String c lead' =>
      match s with
      | EmptyString => false
      | String d s' => Ascii.eqb c d && starts_with lead' s'
      end
  end.

(** The path lies inside the directory. *)
Definition under (directory_path path : string) : bool :=
  starts_with (directory_path ++ "/") path.

(** The directory goes with everything inside it. *)
Definition remove_tree (directory_path : string) (d : list string) : list string :=
  filter (fun q => negb (String.eqb directory_path q || under directory_path q)) d.

(** The same, when the directory is there. *)
Definition remove_directory (directory_path : string) (d : list string) : list string :=
  if on_disk directory_path d then remove_tree directory_path d else d.

Definition assign_progress (p : Progress) (l : Locals) : Locals :=
  {| var_video_index := video_index p;
     var_frame_index := frame_index p;
     var_feature_stage := feature_stage p;
     var_carrier_videos := var_carrier_videos l;
     var_frame_dir := var_frame_dir l;
     var_audio_path := var_audio_path l |}.

Definition assign_frame_index (n : nat) (l : Locals) : Locals :=
  {| var_video_index := var_video_index l;
     var_frame_index := n;
     var_feature_stage := var_feature_stage l;
     var_carrier_videos := var_carrier_videos l;
     var_frame_dir := var_frame_dir l;
     var_audio_path := var_audio_path l |}.

Definition assign_feature_stage (stage : string) (l : Locals) : Locals :=
  {| var_video_index := var_video_index l;
     var_frame_index := var_frame_index l;
     var_feature_stage := stage;
     var_carrier_videos := var_carrier_videos l;
     var_frame_dir := var_frame_dir l;
     var_audio_path := var_audio_path l |}.

Definition assign_frame_dir (path : string) (l : Locals) : Locals :=
  {| var_video_index := var_video_index l;
     var_frame_index := var_frame_index l;
     var_feature_stage := var_feature_stage l;
     var_carrier_videos := var_carrier_videos l;
     var_frame_dir := Some path;
     var_audio_path := var_audio_path l |}.

Definition assign_audio_path (path : string) (l : Locals) : Locals :=
  {| var_video_index := var_video_index l;
     var_frame_index := var_frame_index l;
     var_feature_stage := var_feature_stage l;
     var_carrier_videos := var_carrier_videos l;
     var_frame_dir := var_frame_dir l;
     var_audio_path := Some path |}.

Definition append_carrier (path : string) (l : Locals) : Locals :=
  {| var_video_index := var_video_index l;
     var_frame_index := var_frame_index l;
     var_feature_stage := var_feature_stage l;
     var_carrier_videos := (var_carrier_videos l ++ [path])%list;
     var_frame_dir := var_frame_dir l;
     var_audio_path := var_audio_path l |}.

(** *** The monad of the process: state, and the ways a run ends early *)

Inductive Stop :=
| SystemExit (status : nat)   (* exit(status) *)
| Raise (e : PyExc)           (* an exception nobody catches *)
| Killed.                     (* SIGKILL: the process is gone *)

Inductive Outcome (A : Type) :=
| Done (a : A)
| Stopped (why : Stop).

Arguments Done {A} a.
Arguments Stopped {A} why.

Definition M (A : Type) : Type := State -> Outcome A * State.

Definition ret {A : Type} (a : A) : M A := fun s => (Done a, s).

Definition bind {A B : Type} (m : M A) (k : A -> M B) : M B :=
  fun s =>
    match m s with
    | (Done a, s') => k a s'
    | (Stopped why, s') => (Stopped why, s')
    end.

Declare Scope proc_scope.
Delimit Scope proc_scope with proc.
Notation "x <- m ;; k" := (bind m (fun x => k))
  (at level 61, m at next level, right associativity) : proc_scope.
Notation "m ;; k" := (bind m (fun _ => k))
  (at level 61, right associativity) : proc_scope.
Local Open Scope proc_scope.

Definition get_state : M State := fun s => (Done s, s).
Definition modify (f : State -> State) : M unit := fun s => (Done tt, f s).
Definition stop {A : Type} (why : Stop) : M A := fun s => (Stopped why, s).
Definition emit (e : Event) : M unit := modify (add_event e).

Definition lift_exc {A : Type} (r : PyExc + A) : M A :=
  match r with
  | inl e => stop (Raise e)
  | inr a => ret a
  end.

(** Writing [text] at the start of a file that holds [old]: what lies
    beyond the new text stays. *)
Fixpoint skip_chars (n : nat) (s : string) : string :=
  match n, s with
  | O, _ => s
  | S _, EmptyString => EmptyString
  | S k, String _ rest => skip_chars k rest
  end.

Definition written_over (text old : string) : string :=
  text ++ skip_chars (String.length text) old.

Definition file_text (w : World) : string :=
  match progress_file w with
  | Some text => text
  | None => ""
  end.

(** [open(PROGRESS_FILE, 'w')] creates or truncates the file; what
    [json.dump] writes stays in the buffer of the file object. *)
Definition open_progress_file (s : State) : State :=
  set_buffered (Some "") (set_world (put_progress_file "") s).

Definition buffer_chunk (chunk : string) (s : State) : State :=
  set_buffered (option_map (fun b => b ++ chunk) (buffered s)) s.

(** Leaving the [with] block closes the file object: the buffer is
    written to the file from its start. *)
Definition flush_buffer (s : State) : State :=
  match buffered s with
  | Some b => set_world (fun w => put_progress_file (written_over b (file_text w)) w) s
  | None => s
  end.

Definition close_progress_file (s : State) : State :=
  set_buffered None (flush_buffer s).

(** The handler installed by the controller: it saves the variables it
    closes over and leaves with status 1.  Its own save runs from the
    opening of the file to its closing (no second signal is modelled
    while the handler runs).  [exit(1)] then unwinds the interrupted
    code: when that was inside the [with] block of a save, the file object
    of that save is closed on the way out and its buffer lands on top of
    what the handler wrote.  [buffered] is left as a record of what the
    interrupted save had written. *)
Definition handle_interrupt : M unit :=
  s <- get_state ;;
  let progress := {| video_index := var_video_index (vars s);
                     frame_index := var_frame_index (vars s);
                     feature_stage := var_feature_stage (vars s) |} in
  modify (set_world (put_progress_file (json_dumps progress))) ;;
  emit (EvSaveInterrupt progress) ;;
  modify flush_buffer ;;
  stop (SystemExit 1).

(** One step of the process.  A pending signal is delivered when its
    countdown reaches zero: SIGKILL ends the process where it stands,
    SIGINT runs the installed handler, or raises KeyboardInterrupt while
    none is installed (and an open [with] block is left as above). *)
Definition tick : M unit :=
  fun s =>
    match pending s with
    | None => (Done tt, s)
    | Some (S n, sg) => (Done tt, set_pending (Some (n, sg)) s)
    | Some (O, SIGKILL) => (Stopped Killed, set_pending None s)
    | Some (O, SIGINT) =>
        if handler_installed s
        then handle_interrupt (set_pending None s)
        else (Stopped (Raise KeyboardInterrupt), flush_buffer (set_pending None s))
    end.

(** [json.dump]: one [write] per piece, a signal may come before each. *)
Fixpoint write_chunks (chunks : list string) : M unit :=
  match chunks with
  | [] => ret tt
  | chunk :: rest => tick ;; modify (buffer_chunk chunk) ;; write_chunks rest
  end.

(** [save_progress]: fifteen steps in all, one before the file is opened,
    one before each of the thirteen writes of [json.dump], one before the
    [with] block closes the file. *)
Definition save_progress (progress : Progress) : M unit :=
  tick ;; modify open_progress_file ;;
  write_chunks (json_chunks progress) ;;
  tick ;; modify close_progress_file.

(** [load_progress], called when the file exists. *)
Definition load_progress (text : string) : M Progress :=
  match json_loads text with
  | Some progress => ret progress
  | None => stop (Raise JSONDecodeError)
  end.

Definition create_database : M unit :=
  tick ;;
  modify (set_world (fun w =>
            match database w with
            | Some _ => w
            | None => put_database [] w
            end)).

(** A statement that opens the database and reads the table. *)
Definition read_table : M Table :=
  s <- get_state ;;
  match database (world s) with
  | Some t => ret t
  | None => stop (Raise OperationalError)
  end.

Definition coverage_check : M bool :=
  tick ;;
  t <- read_table ;;
  emit (EvCoverage (distinct_hash_count t)) ;;
  ret (check_all_hash_sequences_generated t).

Definition store_hash_unit (video_id : nat) (feature_id : string)
    (position_id : nat) (hash_sequence : list string) : M unit :=
  tick ;;
  t <- read_table ;;
  modify (set_world (put_database
            (update_retrieval_database t video_id feature_id position_id hash_sequence))) ;;
  emit (EvUpdate video_id feature_id position_id (join_hash_sequence hash_sequence)).

(** [os.makedirs(frame_dir, exist_ok=True)], then one image file per frame
    read. *)
Definition write_frames (frame_dir : string) (v : Video) (d : list string)
  : list string :=
  fold_left (fun d count => create_path (frame_path_of frame_dir count) d)
            (seq 0 (List.length (frames v))) (create_path frame_dir d).

Definition extract_frames (videos_dir output_dir : string) (v : Video)
  : M (list Frame * string) :=
  tick ;;
  let frame_dir := frame_dir_of output_dir v in
  modify (set_world (fun w => put_disk (write_frames frame_dir v (disk w)) w)) ;;
  emit (EvExtractFrames (video_path_of videos_dir v)) ;;
  ret (frames v, frame_dir).

(** ffmpeg is run when the [.wav] file is not there (its status is not
    looked at), then [librosa.load] reads the file, or raises when there
    is none to read. *)
Definition extract_audio (videos_dir : string) (v : Video) : M (Audio * string) :=
  tick ;;
  let audio_path := audio_path_of videos_dir v in
  s <- get_state ;;
  if on_disk audio_path (disk (world s)) || wav_made v
  then
    modify (set_world (fun w => put_disk (create_path audio_path (disk w)) w)) ;;
    emit (EvExtractAudio (video_path_of videos_dir v)) ;;
    ret (audio v, audio_path)
  else
    emit (EvExtractAudio (video_path_of videos_dir v)) ;;
    stop (Raise FileNotFoundError).

(** When the directory exists, it is removed with every file and
    directory inside it. *)
Definition delete_directory (directory_path : string) : M unit :=
  tick ;;
  modify (set_world (fun w => put_disk (remove_directory directory_path (disk w)) w)) ;;
  emit (EvDeleteDirectory directory_path).

Definition delete_files (file_paths : list string) : M unit :=
  tick ;;
  modify (set_world (fun w =>
            put_disk (fold_left (fun d p => remove_path p d) file_paths (disk w)) w)) ;;
  emit (EvDeleteFiles file_paths).

(* ===================================================================== *)
(** ** 6. The controller: [video_retrieval_database_construction] *)

(** The SIFT loop, [for j, frame_path in enumerate(frames[frame_index:],
    start=frame_index)], entered at position [j] with the frames left. *)
Fixpoint sift_loop (i video_id j : nat) (rest : list Frame) : M unit :=
  match rest with
  | [] => ret tt
  | frame_path :: rest' =>
      tick ;;
      hash_sift <- lift_exc (calculate_sift_descriptors frame_path) ;;
      store_hash_unit video_id "SIFT" j [hash_sift] ;;
      save_progress {| video_index := i; frame_index := j + 1; feature_stage := "SIFT" |} ;;
      emit (EvSaveUnit {| video_index := i; frame_index := j + 1; feature_stage := "SIFT" |}) ;;
      tick ;;
      modify (set_vars (assign_frame_index (j + 1))) ;;
      sift_loop i video_id (S j) rest'
  end.

(** The STE loop, [for j, h in enumerate(hash_ste)]. *)
Fixpoint ste_loop (i video_id j : nat) (rest : list string) : M unit :=
  match rest with
  | [] => ret tt
  | h :: rest' =>
      store_hash_unit video_id "STE" j [h] ;;
      save_progress {| video_index := i; frame_index := j + 1; feature_stage := "STE" |} ;;
      emit (EvSaveUnit {| video_index := i; frame_index := j + 1; feature_stage := "STE" |}) ;;
      ste_loop i video_id (S j) rest'
  end.

(** The DWT loop, [for j, h in enumerate(hash_dwt)]. *)
Fixpoint dwt_loop (i video_id j : nat) (rest : list string) : M unit :=
  match rest with
  | [] => ret tt
  | h :: rest' =>
      store_hash_unit video_id "DWT" j [h] ;;
      save_progress {| video_index := i; frame_index := j + 1; feature_stage := "DWT" |} ;;
      emit (EvSaveUnit {| video_index := i; frame_index := j + 1; feature_stage := "DWT" |}) ;;
      dwt_loop i video_id (S j) rest'
  end.

Definition current_stage : M string :=
  s <- get_state ;; ret (var_feature_stage (vars s)).

Definition sift_stage (i video_id : nat) (frames : list Frame) : M unit :=
  stage <- current_stage ;;
  if String.eqb stage "SIFT" then
    s <- get_state ;;
    let frame_index := var_frame_index (vars s) in
    sift_loop i video_id frame_index (skipn frame_index frames) ;;
    save_progress {| video_index := i; frame_index := 0; feature_stage := "STE" |} ;;
    emit (EvSaveTransition {| video_index := i; frame_index := 0; feature_stage := "STE" |}) ;;
    tick ;;
    modify (set_vars (assign_feature_stage "STE"))
  else ret tt.

Definition ste_stage (i video_id : nat) (audio : Audio) : M unit :=
  stage <- current_stage ;;
  if String.eqb stage "STE" then
    tick ;;
    hash_ste <- lift_exc (calculate_ste_hash audio) ;;
    ste_loop i video_id 0 hash_ste ;;
    save_progress {| video_index := i; frame_index := 0; feature_stage := "DWT" |} ;;
    emit (EvSaveTransition {| video_index := i; frame_index := 0; feature_stage := "DWT" |}) ;;
    tick ;;
    modify (set_vars (assign_feature_stage "DWT"))
  else ret tt.

Definition dwt_stage (i video_id : nat) (audio : Audio) : M unit :=
  stage <- current_stage ;;
  if String.eqb stage "DWT" then
    tick ;;
    hash_dwt <- lift_exc (calculate_dwt_hash audio) ;;
    dwt_loop i video_id 0 hash_dwt ;;
    save_progress {| video_index := i + 1; frame_index := 0; feature_stage := "SIFT" |} ;;
    emit (EvSaveTransition {| video_index := i + 1; frame_index := 0; feature_stage := "SIFT" |}) ;;
    tick ;;
    modify (set_vars (assign_feature_stage "SIFT"))
  else ret tt.

(** The body of [for i, video_path in enumerate(video_files)] after the
    coverage check. *)
Definition process_video (videos_dir output_dir : string) (i : nat) (v : Video) : M unit :=
  let video_id := i + 1 in
  extracted <- extract_frames videos_dir output_dir v ;;
  modify (set_vars (assign_frame_dir (snd extracted))) ;;
  sift_stage i video_id (fst extracted) ;;
  decoded <- extract_audio videos_dir v ;;
  modify (set_vars (assign_audio_path (snd decoded))) ;;
  ste_stage i video_id (fst decoded) ;;
  dwt_stage i video_id (fst decoded) ;;
  tick ;;
  modify (set_vars (append_carrier (video_path_of videos_dir v))).

(** The loop over the videos, at index [i] with the videos left; the
    coverage check comes first and ends the loop when it holds. *)
Fixpoint video_loop (videos_dir output_dir : string) (i : nat) (rest : list Video) : M unit :=
  match rest with
  | [] => ret tt
  | v :: rest' =>
      covered <- coverage_check ;;
      if covered then ret tt
      else
        process_video videos_dir output_dir i v ;;
        video_loop videos_dir output_dir (S i) rest'
  end.

Definition default_progress : Progress :=
  {| video_index := 0; frame_index := 0; feature_stage := "SIFT" |}.

(** Reading a local variable that may not be bound yet. *)
Definition read_bound (var : Locals -> option string) : M string :=
  s <- get_state ;;
  match var (vars s) with
  | Some path => ret path
  | None => stop (Raise UnboundLocalError)
  end.

(** [video_files] is the directory listing filtered on [.mp4], in listing
    order; the result is [carrier_videos]. *)
Definition video_retrieval_database_construction
    (videos_dir : string) (video_files : list Video) : M (list string) :=
  create_database ;;
  tick ;;
  s <- get_state ;;
  progress <- match progress_file (world s) with
              | Some text => load_progress text
              | None => ret default_progress
              end ;;
  modify (set_vars (assign_progress progress)) ;;
  let output_dir := "Processed" in
  modify (set_world (fun w => put_disk (create_path output_dir (disk w)) w)) ;;
  tick ;;
  modify (set_handler true) ;;
  video_loop videos_dir output_dir 0 video_files ;;
  tick ;;
  t <- read_table ;;
  emit (EvIntegrity (check_database_integrity t)) ;;
  frame_dir <- read_bound var_frame_dir ;;
  delete_directory frame_dir ;;
  audio_path <- read_bound var_audio_path ;;
  delete_files [audio_path] ;;
  s' <- get_state ;;
  ret (var_carrier_videos (vars s')).

(** The state a fresh process starts in. *)
Definition unbound_locals : Locals :=
  {| var_video_index := 0; var_frame_index := 0; var_feature_stage := "";
     var_carrier_videos := []; var_frame_dir := None; var_audio_path := None |}.

Definition boot (w : World) (sig : option (nat * Signal)) : State :=
  {| world := w; vars := unbound_locals; handler_installed := false;
     pending := sig; log := []; buffered := None |}.

(** One run of the script over the directory [Videos]. *)
Definition run (w : World) (sig : option (nat * Signal)) (video_files : list Video)
  : Outcome (list string) * State :=
  video_retrieval_database_construction "Videos" video_files (boot w sig).

(** The exit status of the process: 0 when the script runs to its end, the
    argument of [exit], 1 for an uncaught exception, 137 after SIGKILL. *)
Definition exit_status {A : Type} (o : Outcome A) : nat :=
  match o with
  | Done _ => 0
  | Stopped (SystemExit n) => n
  | Stopped (Raise _) => 1
  | Stopped Killed => 137
  end.

(** Where nothing has been run yet. *)
Definition empty_world : World :=
  {| database := None; progress_file := None; disk := [] |}.

(** The table a run leaves behind. *)
Definition final_table (r : Outcome (list string) * State) : Table :=
  match database (world (snd r)) with
  | Some t => t
  | None => []
  end.

(** Interrupting a first run, then running again on what it left. *)
Definition run_then_resume (w : World) (sig : nat * Signal) (video_files : list Video)
  : Outcome (list string) * State :=
  run (world (snd (run w (Some sig) video_files))) None video_files.

(* ===================================================================== *)
(** ** 7. Notions the properties are stated with *)

(** The provenance of the first call, in a list of [insert_unique] calls,
    that carries a given byte sequence. *)
Definition first_owner (byte_sequence : string) (calls : list InsertCall)
  : option (nat * string * nat) :=
  match find (fun c => match c with (b, _, _, _) => String.eqb b byte_sequence end) calls with
  | Some (_, v, f, p) => Some (v, f, p)
  | None => None
  end.

(** The invariant of a table filled through [insert_unique] only. *)
Definition deduplicated (t : Table) : Prop :=
  NoDup (map ByteSequence t) /\ ~ In None (map ByteSequence t).

Fixpoint all_chars (keep : ascii -> bool) (s : string) : bool :=
  match s with
  | EmptyString => true
  | String c rest => keep c && all_chars keep rest
  end.

Definition is_bit (c : ascii) : bool :=
  Ascii.eqb c "0" || Ascii.eqb c "1".

(** Eight characters, each [0] or [1]. *)
Definition is_byte_string (s : string) : bool :=
  Nat.eqb (String.length s) 8 && all_chars is_bit s.

(** The single-precision number [-2^-60], about [-8.7e-19]. *)
Definition tiny_negative : spec_float := S754_finite true 8388608 (-83).

(** A video without frames whose audio has a single wavelet coefficient,
    [-2^-60] (a detail coefficient of that size comes from two samples
    [0.0] and about [1.2e-18]). *)
Definition faint_video : Video :=
  {| stem := "faint"; frames := [];
     audio := {| energy := []; combined_coeffs := [tiny_negative] |};
     wav_made := true |}.

(** The checkpoint a restart would read from the progress file. *)
Definition checkpoint_of (w : World) : option Progress :=
  match progress_file w with
  | Some text => json_loads text
  | None => None
  end.

(** A corpus of two videos, each with three frames, two energy windows and
    two wavelet coefficients, all of different value. *)
Definition clip_a : Video :=
  {| stem := "a";
     frames := [Some (f32_of_Z 1); Some (f32_of_Z 2); Some (f32_of_Z 3)];
     audio := {| energy := [f32_of_Z 10; f32_of_Z 11];
                 combined_coeffs := [f32_of_Z 20; f32_of_Z 21] |};
     wav_made := true |}.

Definition clip_b : Video :=
  {| stem := "b";
     frames := [Some (f32_of_Z 4); Some (f32_of_Z 5); Some (f32_of_Z 6)];
     audio := {| energy := [f32_of_Z 12; f32_of_Z 13];
                 combined_coeffs := [f32_of_Z 22; f32_of_Z 23] |};
     wav_made := true |}.

Definition two_clips : list Video := [clip_a; clip_b].

(** A video without frames whose wavelet coefficients are [-2^-60]
    followed by the integers 0 to 255. *)
Definition saturating_video : Video :=
  {| stem := "full"; frames := [];
     audio := {| energy := [];
                 combined_coeffs :=
                   tiny_negative :: map (fun n => f32_of_Z (Z.of_nat n)) (seq 0 256) |};
     wav_made := true |}.

Definition is_delete (e : Event) : bool :=
  match e with
  | EvDeleteDirectory _ | EvDeleteFiles _ => true
  | _ => false
  end.

(** *** Reading the log *)

(** The checkpoints written by the loop, newest first (the log is).  The
    save made by the interrupt handler is the last act of an interrupted
    process and is not part of them. *)
Fixpoint saved (l : list Event) : list Progress :=
  match l with
  | [] => []
  | EvSaveUnit p :: older => p :: saved older
  | EvSaveTransition p :: older => p :: saved older
  | _ :: older => saved older
  end.

Fixpoint transitions (l : list Event) : list Progress :=
  match l with
  | [] => []
  | EvSaveTransition p :: older => p :: transitions older
  | _ :: older => transitions older
  end.

(** The checkpoints written by the loop of a run, oldest first. *)
Definition saves_in_order (s : State) : list Progress := rev (saved (log s)).

(** Within one (video_index, feature_stage), a later save never carries a
    smaller frame_index. *)
Definition frame_index_monotone (l : list Progress) : Prop :=
  forall i j p q,
    i < j -> nth_error l i = Some p -> nth_error l j = Some q ->
    video_index p = video_index q -> feature_stage p = feature_stage q ->
    frame_index p <= frame_index q.

(** The place of a stage in the order SIFT, STE, DWT. *)
Definition stage_rank (stage : string) : nat :=
  if String.eqb stage "SIFT" then 0
  else if String.eqb stage "STE" then 1
  else if String.eqb stage "DWT" then 2
  else 3.

(** The order in which the controller walks through its checkpoints: by
    video, then by stage, then by position. *)
Definition cursor_le (p q : Progress) : Prop :=
  video_index p < video_index q
  \/ (video_index p = video_index q
      /\ (stage_rank (feature_stage p) < stage_rank (feature_stage q)
          \/ (stage_rank (feature_stage p) = stage_rank (feature_stage q)
              /\ frame_index p <= frame_index q))).

(** The saves of a log are in walking order, none beyond [bound], and the
    transition saves carry frame_index 0. *)
Definition below (bound : Progress) (l : list Event) : Prop :=
  StronglySorted (fun newer older => cursor_le older newer) (saved l)
  /\ Forall (fun p => cursor_le p bound) (saved l)
  /\ Forall (fun p => frame_index p = 0) (transitions l).

Definition walked (l : list Event) : Prop :=
  StronglySorted (fun newer older => cursor_le older newer) (saved l)
  /\ Forall (fun p => frame_index p = 0) (transitions l).

(** Events that only happen once the loop over the videos is over (or
    when the handler runs). *)
Definition after_loop (e : Event) : bool :=
  match e with
  | EvIntegrity _ | EvDeleteDirectory _ | EvDeleteFiles _ | EvSaveInterrupt _ => true
  | _ => false
  end.

(** In a chronological trace, every frame extraction comes right after a
    coverage check that did not read 256. *)
Definition extraction_follows_check (t : list Event) : Prop :=
  forall pre v post,
    t = (pre ++ EvExtractFrames v :: post)%list ->
    exists pre' n, pre = (pre' ++ [EvCoverage n])%list /\ n <> 256.

(** In a chronological trace, a coverage check that reads 256 is followed
    by no work on any video: no extraction, no hash unit, no checkpoint of
    the loop, no further check. *)
Definition stops_at_full_coverage (t : list Event) : Prop :=
  forall pre post e,
    t = (pre ++ EvCoverage 256 :: post)%list -> In e post -> after_loop e = true.

(** The same two properties on a log, newest first. *)
Fixpoint check_first (l : list Event) : Prop :=
  match l with
  | [] => True
  | EvExtractFrames _ :: older =>
      (exists n rest, older = EvCoverage n :: rest /\ n <> 256) /\ check_first older
  | _ :: older => check_first older
  end.

Fixpoint sealed (l : list Event) : Prop :=
  match l with
  | [] => True
  | e :: older => (after_loop e = true \/ ~ In (EvCoverage 256) older) /\ sealed older
  end.

(** *** Triples over the log

    [triple P m Q E]: from a state whose log satisfies [P], the
    computation [m] either returns [a] with a log satisfying [Q a], or
    stops with a log satisfying [E]. *)
Definition triple {A : Type} (P : list Event -> Prop) (m : M A)
    (Q : A -> list Event -> Prop) (E : list Event -> Prop) : Prop :=
  forall s, P (log s) ->
    match m s with
    | (Done a, s') => Q a (log s')
    | (Stopped _, s') => E (log s')
    end.

(** [E] tolerates the save of the interrupt handler. *)
Definition absorbs (E : list Event -> Prop) : Prop :=
  forall l p, E l -> E (EvSaveInterrupt p :: l).

(** The log of a run inside the loop, before any check has read 256, and
    the log of a run anywhere. *)
Definition open_log (l : list Event) : Prop :=
  check_first l /\ sealed l /\ ~ In (EvCoverage 256) l.

Definition closed_log (l : list Event) : Prop :=
  check_first l /\ sealed l.

(** The log right after a coverage check that lets the video through. *)
Definition checked_log (l : list Event) : Prop :=
  exists n older, l = EvCoverage n :: older /\ n <> 256 /\ open_log older.

(** The events of the work on a video, once its frames are extracted. *)
Definition unit_event (e : Event) : bool :=
  match e with
  | EvUpdate _ _ _ _ | EvSaveUnit _ | EvSaveTransition _ | EvExtractAudio _ => true
  | _ => false
  end.

(** [keeps I m R]: the computation [m] maintains the invariant [I] of the
    state, however it ends, and what it returns satisfies [R]. *)
Definition keeps {A : Type} (I : State -> Prop) (m : M A) (R : A -> Prop) : Prop :=
  forall s, I s ->
    match m s with
    | (Done a, s') => I s' /\ R a
    | (Stopped _, s') => I s'
    end.

(** The store already holds 256 distinct byte sequences. *)
Definition covered (w : World) : bool :=
  match database w with
  | Some t => check_all_hash_sequences_generated t
  | None => false
  end.

(** A run that does nothing on any video: its log holds only a coverage
    check reading 256 and what follows the loop. *)
Definition idle (s : State) : Prop :=
  covered (world s) = true
  /\ Forall (fun e => after_loop e = true \/ e = EvCoverage 256) (log s).

Definition is_extraction (e : Event) : bool :=
  match e with
  | EvExtractFrames _ => true
  | _ => false
  end.

(** A video without frames whose wavelet coefficients are the integers 0
    to 255. *)
Definition byte_video : Video :=
  {| stem := "bytes"; frames := [];
     audio := {| energy := [];
                 combined_coeffs := map (fun n => f32_of_Z (Z.of_nat n)) (seq 0 256) |};
     wav_made := true |}.

(* ===================================================================== *)
(** ** 8. The rest of the script, and notions for its properties *)

(** The byte sequence an [insert_unique] call carries. *)
Definition call_bytes (c : InsertCall) : string :=
  match c with
  | (b, _, _, _) => b
  end.

(** The calls that store the renderings of 0 to 255, one after the other. *)
Definition byte_calls : list InsertCall :=
  map (fun n => (format_08b (Z.of_nat n), 1, "DWT", n)) (seq 0 256).

(** Finite and not negative: what a sum of descriptors or of squares is. *)
Definition finite_nonnegative (x : spec_float) : bool :=
  match x with
  | S754_zero _ | S754_finite false _ _ => true
  | _ => false
  end.

Definition not_finite (x : spec_float) : bool :=
  match x with
  | S754_nan | S754_infinity _ => true
  | _ => false
  end.

Definition frame_nonnegative (frame : Frame) : bool :=
  match frame with
  | Some total => finite_nonnegative total
  | None => true
  end.

(** Reading binary digits back, most significant first. *)
Fixpoint bin_value (s : string) (acc : Z) : Z :=
  match s with
  | EmptyString => acc
  | String c rest => bin_value rest (2 * acc + (if Ascii.eqb c "1" then 1 else 0))
  end.

Definition read_08b (s : string) : Z :=
  match s with
  | String c rest => if Ascii.eqb c "-" then - bin_value rest 0 else bin_value s 0
  | EmptyString => 0
  end.

(** The table a run starts from. *)
Definition initial_table (w : World) : Table :=
  match database w with
  | Some t => t
  | None => []
  end.

(** The table of a state satisfies [D] (an absent file counts as the empty
    table [create_database] will make of it). *)
Definition table_inv (D : Table -> Prop) (s : State) : Prop :=
  D (initial_table (world s)).

(** The three variables the interrupt handler saves. *)
Definition cursor_of (l : Locals) : Progress :=
  {| video_index := var_video_index l;
     frame_index := var_frame_index l;
     feature_stage := var_feature_stage l |}.

(** [striple P m Q E]: from a state satisfying [P], the computation [m]
    returns [a] in a state satisfying [Q a], or stops for the reason [why]
    in a state satisfying [E why]. *)
Definition striple {A : Type} (P : State -> Prop) (m : M A)
    (Q : A -> State -> Prop) (E : Stop -> State -> Prop) : Prop :=
  forall s, P s ->
    match m s with
    | (Done a, s') => Q a s'
    | (Stopped why, s') => E why s'
    end.

(** The stage variable holds a name that JSON writes as it is. *)
Definition plain_stage (s : State) : Prop :=
  all_chars is_plain (var_feature_stage (vars s)) = true.

(** The text the progress file holds once the handler has written the
    cursor and [exit(1)] has closed the file object of a save it
    interrupted, if any: what that save had buffered lies over the start of
    the handler's text. *)
Definition left_by_interrupt (s : State) : string :=
  match buffered s with
  | Some b => written_over b (json_dumps (cursor_of (vars s)))
  | None => json_dumps (cursor_of (vars s))
  end.

(** How a run may stop: when it is with [exit(1)], the last event is the
    handler's save of the three variables, the progress file holds the
    text above, and, when no save was interrupted, a restart reads the
    three variables back. *)
Definition stopped_well (why : Stop) (s : State) : Prop :=
  why = SystemExit 1 ->
  (exists older, log s = EvSaveInterrupt (cursor_of (vars s)) :: older)
  /\ progress_file (world s) = Some (left_by_interrupt s)
  /\ (buffered s = None -> checkpoint_of (world s) = Some (cursor_of (vars s))).

(** A computation keeps the stage variable plain and stops well. *)
Definition plainly {A : Type} (m : M A) : Prop :=
  striple plain_stage m (fun _ => plain_stage) stopped_well.

(** [reset_progress]: the progress file is removed when there is one. *)
Definition reset_progress (w : World) : World :=
  {| database := database w; progress_file := None; disk := disk w |}.

(** [load_progress] as the script defines it: [None] without a file, the
    decoded dictionary with one, an exception when the text is not JSON. *)
Definition load_progress_file (w : World) : PyExc + option Progress :=
  match progress_file w with
  | None => inr None
  | Some text =>
      match json_loads text with
      | Some progress => inr (Some progress)
      | None => inl JSONDecodeError
      end
  end.

(** The cursor a run starts from. *)
Definition starting_cursor (w : World) : Progress :=
  match checkpoint_of w with
  | Some progress => progress
  | None => default_progress
  end.

(** *** The calls of an uninterrupted run *)

(** The calls of one stage loop: the hashes in order, numbered from [j]. *)
Fixpoint numbered (video_id : nat) (feature_id : string) (j : nat) (hs : list string)
  : list InsertCall :=
  match hs with
  | [] => []
  | h :: rest => (h, video_id, feature_id, j) :: numbered video_id feature_id (S j) rest
  end.

(** The SIFT hashes of a list of frames, in order; the first frame whose
    hash raises decides. *)
Fixpoint sift_each (frames : list Frame) : PyExc + list string :=
  match frames with
  | [] => inr []
  | frame :: rest =>
      match calculate_sift_descriptors frame with
      | inl e => inl e
      | inr h =>
          match sift_each rest with
          | inl e => inl e
          | inr hs => inr (h :: hs)
          end
      end
  end.

Definition forced {A : Type} (r : PyExc + list A) : list A :=
  match r with
  | inr l => l
  | inl _ => []
  end.

Definition raises {A : Type} (r : PyExc + A) : bool :=
  match r with
  | inl _ => true
  | inr _ => false
  end.

(** ffmpeg writes the audio file of the video and none of the three hash
    functions raises on the video. *)
Definition hashable (v : Video) : bool :=
  wav_made v
  && negb (raises (sift_each (frames v)))
  && negb (raises (calculate_ste_hash (audio v)))
  && negb (raises (calculate_dwt_hash (audio v))).

(** The value [frame_index] has after the SIFT loop of a video: the number
    of its frames when the loop ran at least once, unchanged otherwise. *)
Definition frame_index_after (frame_index : nat) (v : Video) : nat :=
  match skipn frame_index (frames v) with
  | [] => frame_index
  | _ :: _ => List.length (frames v)
  end.

(** The stages a video goes through when the loop body is entered with
    [feature_stage = stage]: each of the three [if] blocks runs when the
    variable has its name at that point, and sets the next name. *)
Definition runs_sift (stage : string) : bool := String.eqb stage "SIFT".

Definition runs_ste (stage : string) : bool :=
  String.eqb stage "SIFT" || String.eqb stage "STE".

Definition runs_dwt (stage : string) : bool :=
  String.eqb stage "SIFT" || String.eqb stage "STE" || String.eqb stage "DWT".

Definition stage_after (stage : string) : string :=
  if runs_dwt stage then "SIFT" else stage.

Definition frame_index_from (stage : string) (frame_index : nat) (v : Video) : nat :=
  if runs_sift stage then frame_index_after frame_index v else frame_index.

(** The [update_retrieval_database] calls made for the video at index [i],
    entered with the given stage and [frame_index]. *)
Definition video_calls (stage : string) (frame_index i : nat) (v : Video)
  : list InsertCall :=
  ((if runs_sift stage
    then numbered (i + 1) "SIFT" frame_index
                  (forced (sift_each (skipn frame_index (frames v))))
    else [])
   ++ (if runs_ste stage
       then numbered (i + 1) "STE" 0 (forced (calculate_ste_hash (audio v)))
       else [])
   ++ (if runs_dwt stage
       then numbered (i + 1) "DWT" 0 (forced (calculate_dwt_hash (audio v)))
       else []))%list.

(** The calls of a run over the videos from index [i] on, in order. *)
Fixpoint planned_calls (stage : string) (frame_index i : nat) (videos : list Video)
  : list InsertCall :=
  match videos with
  | [] => []
  | v :: rest =>
      (video_calls stage frame_index i v
       ++ planned_calls (stage_after stage) (frame_index_from stage frame_index v)
                        (S i) rest)%list
  end.

(** The disk after the loop has decoded the given videos, one after the
    other: [extract_frames] makes the frame directory and the image
    files, [extract_audio] the audio file. *)
Definition decoded (videos_dir output_dir : string) (videos : list Video)
    (d : list string) : list string :=
  fold_left (fun d v => create_path (audio_path_of videos_dir v)
                          (write_frames (frame_dir_of output_dir v) v d))
            videos d.


(** What a run leaves on disk. *)
Definition final_disk (r : Outcome (list string) * State) : list string :=
  disk (world (snd r)).

(** The save the interrupt handler makes is the one event that shows
    [video_index]. *)
Definition handler_save (e : Event) : bool :=
  match e with
  | EvSaveInterrupt _ => true
  | _ => false
  end.

Definition but_handler_save (l : list Event) : list Event :=
  filter (fun e => negb (handler_save e)) l.

(** Two states that differ at most in the variable [video_index], in the
    text of the progress file and in what the handler saved. *)
Definition alike (s s' : State) : Prop :=
  database (world s) = database (world s')
  /\ disk (world s) = disk (world s')
  /\ pending s = pending s'
  /\ handler_installed s = handler_installed s'
  /\ var_frame_index (vars s) = var_frame_index (vars s')
  /\ var_feature_stage (vars s) = var_feature_stage (vars s')
  /\ var_carrier_videos (vars s) = var_carrier_videos (vars s')
  /\ var_frame_dir (vars s) = var_frame_dir (vars s')
  /\ var_audio_path (vars s) = var_audio_path (vars s')
  /\ but_handler_save (log s) = but_handler_save (log s').

(** Two states alike before the handler is installed, with the progress
    files still as they were found. *)
Definition starting (t1 t2 : string) (s s' : State) : Prop :=
  alike s s'
  /\ handler_installed s = false
  /\ progress_file (world s) = Some t1
  /\ progress_file (world s') = Some t2.

(** From states related by [R] the computation ends the same way in both,
    in states related by [R'] when it returns and alike when it stops. *)
Definition agrees_on {A : Type} (R R' : State -> State -> Prop) (m : M A) : Prop :=
  forall s s', R s s' ->
    fst (m s) = fst (m s')
    /\ match fst (m s) with
       | Done _ => R' (snd (m s)) (snd (m s'))
       | Stopped _ => alike (snd (m s)) (snd (m s'))
       end.

(** The local variables after a step that left the stage and the frame
    index as given and the other variables the loop reads as they were. *)
Definition moved_to (stage : string) (frame_index : nat) (l l' : Locals) : Prop :=
  var_feature_stage l' = stage
  /\ var_frame_index l' = frame_index
  /\ var_carrier_videos l' = var_carrier_videos l
  /\ var_frame_dir l' = var_frame_dir l
  /\ var_audio_path l' = var_audio_path l.

(** The variable [video_index] holds [k]. *)
Definition index_is (k : nat) (s : State) : Prop :=
  var_video_index (vars s) = k.

(** A stop with [exit(1)] finds [video_index] at [k]. *)
Definition exits_with_index (k : nat) (why : Stop) (s : State) : Prop :=
  why = SystemExit 1 -> index_is k s.

(** The computation leaves [video_index] at [k]. *)
Definition indexed (k : nat) {A : Type} (m : M A) : Prop :=
  striple (index_is k) m (fun _ => index_is k) (exits_with_index k).

(** Before the handler is installed, with the progress file as found. *)
Definition not_yet_handling (w : World) (s : State) : Prop :=
  handler_installed s = false /\ progress_file (world s) = progress_file w.




(** The save that follows the unit stored at position [p] of feature [f]
    for the video numbered [v]: the cursor just past that unit. *)
Definition unit_save (v : nat) (f : string) (p : nat) : Event :=
  EvSaveUnit {| video_index := v - 1; frame_index := p + 1; feature_stage := f |}.

Definition is_update (e : Event) : bool :=
  match e with
  | EvUpdate _ _ _ _ => true
  | _ => false
  end.

(** On a trace: what comes right after a stored unit is the save of the
    cursor past that unit, or the save of the interrupt handler. *)
Definition saved_next (t : list Event) : Prop :=
  forall pre post v f p b e,
    t = (pre ++ EvUpdate v f p b :: e :: post)%list ->
    e = unit_save v f p \/ handler_save e = true.

(** The same on a log, newest first. *)
Fixpoint checkpointed (l : list Event) : Prop :=
  match l with
  | [] => True
  | e :: older =>
      checkpointed older
      /\ match older with
         | EvUpdate v f p _ :: _ => e = unit_save v f p \/ handler_save e = true
         | _ => True
         end
  end.

(** No stored unit is waiting for its save. *)
Definition settled (l : list Event) : Prop :=
  checkpointed l
  /\ match l with
     | e :: _ => is_update e = false
     | [] => True
     end.

(** The unit just stored is waiting for its save. *)
Definition awaiting (v : nat) (f : string) (p : nat) (l : list Event) : Prop :=
  checkpointed l /\ exists b older, l = EvUpdate v f p b :: older.

(** Every checkpoint written in a run, the handler's as well. *)
Fixpoint every_save (l : list Event) : list Progress :=
  match l with
  | [] => []
  | EvSaveUnit p :: older => p :: every_save older
  | EvSaveTransition p :: older => p :: every_save older
  | EvSaveInterrupt p :: older => p :: every_save older
  | _ :: older => every_save older
  end.

Definition every_save_in_order (s : State) : list Progress := rev (every_save (log s)).

(** The coverage checks and the frame extractions of a trace. *)
Definition check_or_extraction (e : Event) : bool :=
  match e with
  | EvCoverage _ | EvExtractFrames _ => true
  | _ => false
  end.



(* ===================================================================== *)
(** * Properties *)

Local Open Scope list_scope.

(** ** The retrieval store *)

Section Store.

Implicit Types (t : Table) (b : string).

Lemma column_eq_dec (x y : option string) : {x = y} + {x <> y}.
Proof. decide equality. apply string_dec. Qed.

Lemma select_count_zero (where_ : Row -> bool) t :
  select_count where_ t = 0 <-> forall r, In r t -> where_ r = false.
Proof.
  unfold select_count. induction t as [|r t IH]; simpl.
  - split; [intros _ r []|reflexivity].
  - destruct (where_ r) eqn:Er; simpl.
    + split; [discriminate|].
      intros H. specialize (H r (or_introl eq_refl)). congruence.
    + rewrite IH. split.
      * intros H r' [<-|Hin]; auto.
      * intros H r' Hin. apply H. now right.
Qed.

Lemma sql_text_eq_true col b : sql_text_eq col b = true <-> col = Some b.
Proof.
  destruct col as [s|]; simpl.
  - rewrite String.eqb_eq. split; congruence.
  - split; discriminate.
Qed.

(** The test [insert_unique_into_database] makes: the count is zero
    exactly when no row holds the byte sequence. *)
Lemma absent_iff t b :
  Nat.eqb (select_count (fun r => sql_text_eq (ByteSequence r) b) t) 0 = true
  <-> ~ In (Some b) (map ByteSequence t).
Proof.
  rewrite Nat.eqb_eq, select_count_zero. split.
  - intros H Hin. apply in_map_iff in Hin as (r & Hr & Hin).
    specialize (H r Hin). apply sql_text_eq_true in Hr. congruence.
  - intros H r Hin. destruct (sql_text_eq (ByteSequence r) b) eqn:E; [|reflexivity].
    exfalso. apply H. apply sql_text_eq_true in E. rewrite <- E. now apply in_map.
Qed.

Lemma insert_present t b v f p :
  In (Some b) (map ByteSequence t) ->
  insert_unique_into_database t b v f p = t.
Proof.
  intros Hin. unfold insert_unique_into_database.
  destruct (Nat.eqb _ 0) eqn:E; [|reflexivity].
  apply absent_iff in E. contradiction.
Qed.

Lemma insert_makes_present t b v f p :
  In (Some b) (map ByteSequence (insert_unique_into_database t b v f p)).
Proof.
  unfold insert_unique_into_database.
  destruct (Nat.eqb _ 0) eqn:E.
  - rewrite map_app, in_app_iff. right. now left.
  - destruct (in_dec column_eq_dec (Some b) (map ByteSequence t)) as [H|H].
    + exact H.
    + apply absent_iff in H. congruence.
Qed.

Lemma deduplicated_nil : deduplicated [].
Proof. split; [constructor|intros []]. Qed.

Lemma insert_keeps_deduplicated t b v f p :
  deduplicated t -> deduplicated (insert_unique_into_database t b v f p).
Proof.
  intros [Hnd Hnn]. unfold insert_unique_into_database.
  destruct (Nat.eqb _ 0) eqn:E; [|now split].
  apply absent_iff in E. split.
  - rewrite map_app. simpl.
    apply NoDup_app; [exact Hnd|repeat constructor; intros []|].
    intros x Hx [<-|[]]. contradiction.
  - rewrite map_app, in_app_iff. simpl. intros [H|[H|[]]]; [auto|discriminate].
Qed.

Lemma insert_all_keeps_deduplicated calls t :
  deduplicated t -> deduplicated (insert_all calls t).
Proof.
  unfold insert_all. revert t.
  induction calls as [|[[[b v] f] p] calls IH]; intros t Ht; simpl; [exact Ht|].
  apply IH. now apply insert_keeps_deduplicated.
Qed.

Lemma owner_of_app_present t t' b :
  In (Some b) (map ByteSequence t) -> owner_of b (t ++ t') = owner_of b t.
Proof.
  unfold owner_of. induction t as [|r t IH]; simpl; [intros []|].
  intros [Hr|Hin].
  - assert (E : sql_text_eq (ByteSequence r) b = true) by now apply sql_text_eq_true.
    now rewrite E.
  - destruct (sql_text_eq (ByteSequence r) b); [reflexivity|]. now apply IH.
Qed.

Lemma owner_of_app_absent t t' b :
  ~ In (Some b) (map ByteSequence t) -> owner_of b (t ++ t') = owner_of b t'.
Proof.
  unfold owner_of. induction t as [|r t IH]; simpl; [reflexivity|].
  intros H. destruct (sql_text_eq (ByteSequence r) b) eqn:E.
  - exfalso. apply H. left. now apply sql_text_eq_true.
  - apply IH. intros Hin. apply H. now right.
Qed.

(** An insert never changes the owner of a byte sequence that has one,
    and gives a new byte sequence the caller as its owner. *)
Lemma owner_after_insert t b b' v f p :
  owner_of b (insert_unique_into_database t b' v f p) =
  match owner_of b t with
  | Some o => Some o
  | None => if String.eqb b' b then Some (v, f, p) else None
  end.
Proof.
  unfold insert_unique_into_database.
  destruct (Nat.eqb _ 0) eqn:E.
  - destruct (in_dec column_eq_dec (Some b) (map ByteSequence t)) as [H|H].
    + rewrite owner_of_app_present by exact H.
      unfold owner_of.
      destruct (find _ t) as [r|] eqn:Ef; [reflexivity|].
      exfalso. apply in_map_iff in H as (r & Hr & Hin).
      apply (find_none _ _ Ef) in Hin.
      apply sql_text_eq_true in Hr. congruence.
    + rewrite owner_of_app_absent by exact H.
      assert (Hn : owner_of b t = None).
      { unfold owner_of. destruct (find _ t) as [r|] eqn:Ef; [|reflexivity].
        exfalso. apply H. apply find_some in Ef as [Hin Hr].
        apply sql_text_eq_true in Hr. rewrite <- Hr. now apply in_map. }
      rewrite Hn. unfold owner_of. simpl.
      destruct (String.eqb b' b); reflexivity.
  - assert (Hin : In (Some b') (map ByteSequence t)).
    { destruct (in_dec column_eq_dec (Some b') (map ByteSequence t)) as [H|H];
        [exact H|]. apply absent_iff in H. congruence. }
    destruct (owner_of b t) as [o|] eqn:Eo; [reflexivity|].
    destruct (String.eqb b' b) eqn:Eb; [|reflexivity].
    apply String.eqb_eq in Eb. subst b'. exfalso.
    unfold owner_of in Eo. destruct (find _ t) as [r|] eqn:Ef; [discriminate|].
    apply in_map_iff in Hin as (r & Hr & Hin).
    apply (find_none _ _ Ef) in Hin. apply sql_text_eq_true in Hr. congruence.
Qed.

Lemma owner_after_insert_all calls : forall t b,
  owner_of b (insert_all calls t) =
  match owner_of b t with
  | Some o => Some o
  | None => first_owner b calls
  end.
Proof.
  unfold insert_all.
  induction calls as [|[[[b' v] f] p] calls IH]; intros t b; simpl.
  - unfold first_owner. simpl. now destruct (owner_of b t).
  - rewrite IH, owner_after_insert.
    destruct (owner_of b t) as [o|]; [reflexivity|].
    unfold first_owner. simpl.
    destruct (String.eqb b' b); reflexivity.
Qed.

End Store.

(** C3. Dedup invariant.  Whatever the sequence of [insert_unique] calls on
    a new store, no two rows hold the same byte sequence, and every byte
    sequence is owned by the first call that carried it.  Inserting a byte
    sequence a second time is a silent no-op: the table, hence the distinct
    count and the owner recorded for it, stay as the first insert left
    them. *)
Theorem insert_unique_dedup :
  forall (calls : list InsertCall) (b : string)
         (v : nat) (f : string) (p : nat) (v' : nat) (f' : string) (p' : nat),
    let t := insert_all calls [] in
    let t1 := insert_unique_into_database t b v f p in
    let t2 := insert_unique_into_database t1 b v' f' p' in
    NoDup (map ByteSequence t)
    /\ owner_of b t = first_owner b calls
    /\ t2 = t1
    /\ distinct_hash_count t2 = distinct_hash_count t1
    /\ owner_of b t2 = owner_of b t1
    /\ owner_of b t1 = first_owner b (calls ++ [(b, v, f, p)]).
Proof.
  intros calls b v f p v' f' p' t t1 t2.
  assert (Hno : t2 = t1).
  { unfold t2. apply insert_present. unfold t1. apply insert_makes_present. }
  repeat split.
  - apply (insert_all_keeps_deduplicated calls [] deduplicated_nil).
  - unfold t. now rewrite owner_after_insert_all.
  - exact Hno.
  - now rewrite Hno.
  - now rewrite Hno.
  - replace t1 with (insert_all (calls ++ [(b, v, f, p)]) []).
    + now rewrite owner_after_insert_all.
    + unfold insert_all. now rewrite fold_left_app.
Qed.

(** C9. Integrity check.  [check_database_integrity] answers false exactly
    when some row holds a NULL or empty byte sequence, and true exactly
    when no row does. *)
Theorem integrity_check_iff :
  forall t : Table,
    (check_database_integrity t = false <->
     exists r, In r t /\ (ByteSequence r = None \/ ByteSequence r = Some ""))
    /\ (check_database_integrity t = true <->
        forall r, In r t -> ByteSequence r <> None /\ ByteSequence r <> Some "").
Proof.
  intros t.
  assert (Hne : forall r, null_or_empty r = true <->
                          ByteSequence r = None \/ ByteSequence r = Some "").
  { intros r. unfold null_or_empty. destruct (ByteSequence r) as [s|].
    - rewrite String.eqb_eq. split; [intros ->; now right|intros [H|H]; congruence].
    - split; [now left|reflexivity]. }
  assert (Htrue : check_database_integrity t = true <->
                  forall r, In r t -> ByteSequence r <> None /\ ByteSequence r <> Some "").
  { unfold check_database_integrity. rewrite Nat.eqb_eq, select_count_zero. split.
    - intros H r Hin. specialize (H r Hin).
      split; intros E; assert (null_or_empty r = true) by (apply Hne; auto); congruence.
    - intros H r Hin. destruct (null_or_empty r) eqn:E; [|reflexivity].
      apply Hne in E. destruct (H r Hin). tauto. }
  split; [|exact Htrue].
  split.
  - intros Hf.
    destruct (existsb null_or_empty t) eqn:Ex.
    + apply existsb_exists in Ex as (r & Hin & Hr). exists r. split; [exact Hin|now apply Hne].
    + exfalso. assert (check_database_integrity t = true); [|congruence].
      apply Htrue. intros r Hin.
      assert (Hr : null_or_empty r = false).
      { destruct (null_or_empty r) eqn:E; [|reflexivity].
        assert (existsb null_or_empty t = true) by (apply existsb_exists; eauto). congruence. }
      split; intros E; assert (null_or_empty r = true) by (apply Hne; auto); congruence.
  - intros (r & Hin & Hr).
    apply not_true_is_false. intros E.
    destruct (proj1 Htrue E r Hin). tauto.
Qed.

(** ** Rendering of hash units *)

Lemma format_08b_small :
  forallb (fun n => is_byte_string (format_08b (Z.of_nat n))) (seq 0 256) = true.
Proof. vm_compute. reflexivity. Qed.

(** An integer between 0 and 255 is rendered as eight binary digits. *)
Lemma format_08b_byte (n : Z) :
  (0 <= n < 256)%Z -> is_byte_string (format_08b n) = true.
Proof.
  intros Hn.
  pose proof (proj1 (forallb_forall _ _) format_08b_small (Z.to_nat n)) as H.
  cbv beta in H. rewrite Z2Nat.id in H by lia.
  apply H. apply in_seq. lia.
Qed.

(** Integer-valued inputs between 0 and 255 go through
    [format(int(x % 256), '08b')] unchanged. *)
Lemma hash_of_value_small :
  forallb (fun n => match hash_of_value (f32_of_Z (Z.of_nat n)) with
                    | inr h => String.eqb h (format_08b (Z.of_nat n))
                    | inl _ => false
                    end) (seq 0 256) = true.
Proof. vm_compute. reflexivity. Qed.

Lemma f32_256 : f32_of_Z 256 = S754_finite false 8388608 (-15).
Proof. reflexivity. Qed.

(** For a finite non-negative input, [int(x % 256)] lies between 0 and
    255: the remainder is exact and nothing is added to it. *)
Lemma remainder_of_nonnegative (m : positive) (e : Z) :
  exists n, py_int (np_remainder (S754_finite false m e) (f32_of_Z 256)) = inr n
            /\ (0 <= n < 256)%Z.
Proof.
  rewrite f32_256. unfold np_remainder, c_fmod.
  set (e' := Z.min e (-15)).
  set (B := Z.shiftl 8388608 (-15 - e')).
  set (r := (Z.shiftl (Z.pos m) (e - e') mod B)%Z).
  assert (He' : (e' <= -15)%Z) by (unfold e'; lia).
  assert (HB : B = (256 * 2 ^ (- e'))%Z).
  { unfold B. rewrite Z.shiftl_mul_pow2 by lia.
    replace (-15 - e')%Z with (- e' - 15)%Z by lia.
    change 8388608%Z with (256 * 2 ^ 15)%Z.
    rewrite <- Z.mul_assoc, <- Z.pow_add_r by lia.
    f_equal. f_equal. lia. }
  assert (Hpow : (0 < 2 ^ (- e'))%Z) by (apply Z.pow_pos_nonneg; lia).
  assert (Hr : (0 <= r < B)%Z) by (apply Z.mod_pos_bound; lia).
  destruct r as [|p|p] eqn:Er; simpl.
  - exists 0%Z. split; [reflexivity|lia].
  - destruct (0 <=? e')%Z eqn:E0; [apply Z.leb_le in E0; lia|].
    exists (Z.shiftr (Z.pos p) (- e')). split; [reflexivity|].
    rewrite Z.shiftr_div_pow2 by lia. split.
    + apply Z.div_pos; lia.
    + apply Z.div_lt_upper_bound; lia.
  - lia.
Qed.

(** The SIFT and STE hash functions render sums of non-negative numbers:
    such a value, when finite, always gives eight binary digits. *)
Lemma nonnegative_value_hashes_to_byte (m : positive) (e : Z) :
  exists h, hash_of_value (S754_finite false m e) = inr h /\ is_byte_string h = true.
Proof.
  destruct (remainder_of_nonnegative m e) as (n & Hn & Hrange).
  exists (format_08b n). unfold hash_of_value. rewrite Hn.
  split; [reflexivity|now apply format_08b_byte].
Qed.

Lemma zero_hashes_to_byte (s : bool) : hash_of_value (S754_zero s) = inr "00000000".
Proof. destruct s; reflexivity. Qed.

(** C10. Width of the stored byte sequences, at the failing input: a
    wavelet coefficient of [-2^-60] has remainder [256.0] in single
    precision, [int] gives 256 and [format] nine characters; the controller
    stores that string, which is not an 8-bit rendering. *)
Theorem dwt_coefficient_rendered_on_nine_characters :
  np_remainder tiny_negative (f32_of_Z 256) = f32_of_Z 256
  /\ calculate_dwt_hash (audio faint_video) = inr ["100000000"]
  /\ records (final_table (run empty_world None [faint_video]))
     = [(Some "100000000", 1, "DWT", 0)]
  /\ is_byte_string "100000000" = false.
Proof. vm_compute. repeat split; reflexivity. Qed.

(** ** The progress file *)

Section Json.

Implicit Types (s rest : string) (c : ascii).

Lemma span_app (keep : ascii -> bool) s rest :
  all_chars keep s = true ->
  match rest with
  | EmptyString => True
  | String c _ => keep c = false
  end ->
  span keep (s ++ rest)%string = (s, rest).
Proof.
  intros Hs Hrest. induction s as [|c s IH]; simpl.
  - destruct rest as [|c r]; [reflexivity|]. simpl. now rewrite Hrest.
  - simpl in Hs. apply andb_prop in Hs as [Hc Hs].
    rewrite Hc, (IH Hs). reflexivity.
Qed.

Lemma digits_of_uint (d : Decimal.uint) :
  all_chars is_digit (NilEmpty.string_of_uint d) = true.
Proof. induction d; simpl; auto. Qed.

Lemma to_uint_not_nil (n : nat) : Nat.to_uint n <> Decimal.Nil.
Proof.
  rewrite <- (DecimalNat.Unsigned.of_to n) at 1.
  rewrite DecimalNat.Unsigned.to_of.
  apply DecimalFacts.unorm_nonnil.
Qed.

Lemma string_of_nat_not_empty (n : nat) : string_of_nat n <> EmptyString.
Proof.
  unfold string_of_nat. pose proof (to_uint_not_nil n) as H.
  destruct (Nat.to_uint n); simpl; congruence.
Qed.

Lemma unorm_leading (d : Decimal.uint) :
  match Decimal.unorm d with
  | Decimal.D0 Decimal.Nil => True
  | Decimal.D0 _ => False
  | _ => True
  end.
Proof. induction d; simpl; auto. Qed.

(** [json.dump] writes no zero in front of another digit. *)
Lemma string_of_nat_leading (n : nat) : leading_zero (string_of_nat n) = false.
Proof.
  unfold string_of_nat.
  rewrite <- (DecimalNat.Unsigned.of_to n) at 1.
  rewrite DecimalNat.Unsigned.to_of.
  pose proof (unorm_leading (Nat.to_uint n)) as H.
  destruct (Decimal.unorm (Nat.to_uint n)) as [|d|d|d|d|d|d|d|d|d|d]; simpl;
    try reflexivity; try (destruct d; reflexivity).
  destruct d; [reflexivity|contradiction..].
Qed.

(** A number written by [json.dump] is read back, whatever non-digit
    follows it. *)
Lemma parse_nat_written (n : nat) rest :
  match rest with
  | EmptyString => True
  | String c _ => is_digit c = false
  end ->
  parse_nat (string_of_nat n ++ rest)%string = Some (n, rest).
Proof.
  intros Hrest. unfold parse_nat.
  rewrite span_app; [|apply digits_of_uint|exact Hrest].
  pose proof (string_of_nat_not_empty n) as Hne.
  pose proof (string_of_nat_leading n) as Hlead.
  destruct (string_of_nat n) eqn:E; [congruence|].
  rewrite Hlead. rewrite <- E. unfold string_of_nat.
  rewrite NilEmpty.usu, DecimalNat.Unsigned.of_to. reflexivity.
Qed.

Lemma expect_written (lit : string) s : expect lit (lit ++ s)%string = Some s.
Proof.
  induction lit as [|c lit IH]; simpl; [reflexivity|].
  now rewrite Ascii.eqb_refl.
Qed.

Lemma append_assoc (a b d : string) : ((a ++ b) ++ d = a ++ (b ++ d))%string.
Proof. induction a as [|c a IH]; simpl; [reflexivity|]. now rewrite IH. Qed.

Lemma append_empty (a : string) : (a ++ "")%string = a.
Proof. induction a as [|c a IH]; simpl; [reflexivity|]. now rewrite IH. Qed.

Lemma digit_is_no_space c : is_digit c = true -> is_space c = false.
Proof.
  destruct c as [[] [] [] [] [] [] [] []]; vm_compute; congruence.
Qed.

(** No white space is skipped in front of a number [json.dump] wrote. *)
Lemma skip_spaces_number (n : nat) rest :
  skip_spaces (string_of_nat n ++ rest)%string = (string_of_nat n ++ rest)%string.
Proof.
  pose proof (string_of_nat_not_empty n) as Hne.
  pose proof (digits_of_uint (Nat.to_uint n)) as Hd. fold (string_of_nat n) in Hd.
  destruct (string_of_nat n) as [|c s]; [congruence|].
  simpl in *. apply andb_prop in Hd as [Hc _].
  now rewrite (digit_is_no_space c Hc).
Qed.

(** The text of a save is its pieces, one after the other. *)
Lemma json_chunks_concat (p : Progress) :
  fold_right append ""%string (json_chunks p) = json_dumps p.
Proof.
  destruct p as [vi fi st]. unfold json_chunks, json_dumps. simpl.
  rewrite !append_assoc. reflexivity.
Qed.

Lemma token_written lit s :
  match lit with
  | EmptyString => False
  | String c _ => is_space c = false
  end ->
  token lit (lit ++ s)%string = Some s.
Proof.
  destruct lit as [|c lit]; [contradiction|].
  intros Hc. unfold token. cbn [append skip_spaces]. rewrite Hc.
  apply (expect_written (String c lit)).
Qed.

Lemma token_after_space lit s : token lit (" " ++ s)%string = token lit s.
Proof. reflexivity. Qed.

(** What [json.dump] writes for a progress dictionary, [json.load] reads
    back. *)
Lemma json_roundtrip (p : Progress) :
  all_chars is_plain (feature_stage p) = true ->
  json_loads (json_dumps p) = Some p.
Proof.
  destruct p as [vi fi st]. simpl. intros Hst.
  pose (k1 := (dquote ++ "video_index" ++ dquote)%string).
  pose (k2 := (dquote ++ "frame_index" ++ dquote)%string).
  pose (k3 := (dquote ++ "feature_stage" ++ dquote)%string).
  change (json_dumps {| video_index := vi; frame_index := fi; feature_stage := st |})
    with ("{" ++ k1 ++ ":" ++ " " ++ string_of_nat vi ++ "," ++ " "
          ++ k2 ++ ":" ++ " " ++ string_of_nat fi ++ "," ++ " "
          ++ k3 ++ ":" ++ " " ++ dquote ++ st ++ dquote ++ "}" ++ "")%string.
  unfold json_loads.
  rewrite token_written by reflexivity.
  unfold parse_members.
  rewrite token_written by reflexivity.
  rewrite token_written by reflexivity.
  change (skip_spaces (" " ++ ?x)%string) with (skip_spaces x).
  rewrite skip_spaces_number, parse_nat_written by reflexivity.
  rewrite token_written by reflexivity.
  rewrite token_after_space.
  rewrite token_written by reflexivity.
  rewrite token_written by reflexivity.
  change (skip_spaces (" " ++ ?x)%string) with (skip_spaces x).
  rewrite skip_spaces_number, parse_nat_written by reflexivity.
  rewrite token_written by reflexivity.
  rewrite token_after_space.
  rewrite token_written by reflexivity.
  rewrite token_written by reflexivity.
  unfold parse_plain_string.
  rewrite token_after_space.
  rewrite token_written by reflexivity.
  rewrite span_app; [|exact Hst|reflexivity].
  rewrite expect_written.
  rewrite token_written by reflexivity.
  reflexivity.
Qed.

End Json.

Lemma skip_chars_empty (n : nat) : skip_chars n "" = ""%string.
Proof. now destruct n. Qed.

Lemma written_over_empty (text : string) : written_over text "" = text.
Proof. unfold written_over. now rewrite skip_chars_empty, append_empty. Qed.

(** [json.dump] with no signal on the way: the pieces are in the buffer. *)
Lemma write_chunks_complete (chunks : list string) : forall (s : State) (b : string),
  pending s = None ->
  buffered s = Some b ->
  write_chunks chunks s
  = (Done tt, set_buffered (Some (b ++ fold_right append "" chunks)%string) s).
Proof.
  induction chunks as [|chunk rest IH]; intros s b Hp Hb; simpl.
  - rewrite append_empty. destruct s; simpl in *; subst; reflexivity.
  - unfold bind at 1. unfold tick. rewrite Hp.
    unfold bind at 1. unfold modify at 1.
    rewrite (IH (buffer_chunk chunk s) (b ++ chunk)%string);
      [|exact Hp|unfold buffer_chunk; simpl; now rewrite Hb].
    rewrite append_assoc. reflexivity.
Qed.

(** A save nobody interrupts leaves the text of the progress dictionary in
    the file, and no buffer behind. *)
Lemma save_progress_complete (p : Progress) (s : State) :
  pending s = None ->
  save_progress p s
  = (Done tt, set_buffered None (set_world (put_progress_file (json_dumps p)) s)).
Proof.
  intros Hp. unfold save_progress.
  unfold bind at 1. unfold tick at 1. rewrite Hp.
  unfold bind at 1. unfold modify at 1.
  unfold bind at 1.
  rewrite (write_chunks_complete _ (open_progress_file s) ""%string Hp eq_refl).
  rewrite json_chunks_concat. cbn [append].
  generalize (json_dumps p). intros text.
  unfold bind at 1. unfold tick at 1. cbn [pending set_buffered].
  unfold open_progress_file at 1. cbn [pending set_buffered set_world]. rewrite Hp.
  unfold modify, close_progress_file, flush_buffer, written_over. cbn.
  unfold set_buffered, set_world, open_progress_file, put_progress_file, file_text.
  cbn. rewrite skip_chars_empty, append_empty. reflexivity.
Qed.

(** ** Runs of the controller on given corpora *)

Lemma record_eq_dec (x y : FeatureRecord) : {x = y} + {x <> y}.
Proof. repeat decide equality. Defined.

Lemma not_same_records (t1 t2 : Table) (r : FeatureRecord) :
  (if in_dec record_eq_dec r (records t1) then true else false) = true ->
  (if in_dec record_eq_dec r (records t2) then true else false) = false ->
  ~ same_records t1 t2.
Proof.
  intros H1 H2 Hsame.
  destruct (in_dec record_eq_dec r (records t1)) as [Hin|]; [|discriminate].
  destruct (in_dec record_eq_dec r (records t2)) as [|Hout]; [discriminate|].
  apply Hout, Hsame, Hin.
Qed.

(** C1. Resumption idempotence, at two failing inputs.
    (a) The process is killed right after the first STE unit of the first
    of two videos: the progress file reads (0, 1, STE); the second run
    slices the frames of the second video at 1 and stores the hash of its
    frame 1, which the uninterrupted run, slicing at 3, never stores.
    (b) SIGINT arrives when 256 distinct byte sequences are stored and one
    wavelet coefficient is left: the uninterrupted run stores a 257th
    record, the resumed run stops at its first coverage check. *)
Theorem resumed_run_ends_with_another_store :
  checkpoint_of (world (snd (run empty_world (Some (93, SIGKILL)) two_clips)))
  = Some {| video_index := 0; frame_index := 1; feature_stage := "STE" |}
  /\ ~ same_records (final_table (run_then_resume empty_world (93, SIGKILL) two_clips))
                    (final_table (run empty_world None two_clips))
  /\ distinct_hash_count
       (final_table (run empty_world (Some (4136, SIGINT)) [saturating_video])) = 256
  /\ ~ same_records (final_table (run empty_world None [saturating_video]))
                    (final_table (run_then_resume empty_world (4136, SIGINT) [saturating_video])).
Proof.
  split; [vm_compute; reflexivity|].
  split.
  { apply (not_same_records _ _ (Some "00000101", 2, "SIFT", 1)); vm_compute; reflexivity. }
  split; [vm_compute; reflexivity|].
  apply (not_same_records _ _ (Some "11111111", 1, "DWT", 256)); vm_compute; reflexivity.
Qed.

(** C2. Resumption rule, at two failing inputs.  Restarted on the
    checkpoint (0, 1, STE), the controller skips SIFT for the first video
    but runs its STE stage from unit 0, not from unit 1.  Restarted on
    the checkpoint (1, 0, SIFT) left by a run killed once the first video
    was complete, it decodes the first video and goes through its units
    again, from frame 0 on. *)
Theorem restart_repeats_units_and_videos :
  let killed_in_ste := world (snd (run empty_world (Some (93, SIGKILL)) two_clips)) in
  let killed_after_first := world (snd (run empty_world (Some (173, SIGKILL)) two_clips)) in
  checkpoint_of killed_in_ste
  = Some {| video_index := 0; frame_index := 1; feature_stage := "STE" |}
  /\ firstn 5 (trace (snd (run killed_in_ste None two_clips)))
     = [EvCoverage 4; EvExtractFrames "Videos/a.mp4"; EvExtractAudio "Videos/a.mp4";
        EvUpdate 1 "STE" 0 "00001010";
        EvSaveUnit {| video_index := 0; frame_index := 1; feature_stage := "STE" |}]
  /\ checkpoint_of killed_after_first
     = Some {| video_index := 1; frame_index := 0; feature_stage := "SIFT" |}
  /\ firstn 5 (trace (snd (run killed_after_first None two_clips)))
     = [EvCoverage 7; EvExtractFrames "Videos/a.mp4";
        EvUpdate 1 "SIFT" 0 "00000001";
        EvSaveUnit {| video_index := 0; frame_index := 1; feature_stage := "SIFT" |};
        EvUpdate 1 "SIFT" 1 "00000010"].
Proof. vm_compute. repeat split; reflexivity. Qed.

(** C5. Interrupt handling, at two failing inputs.  SIGINT right after the
    first STE unit of the first video: the unit had been checkpointed as
    (0, 1, STE) and the handler overwrites it with (0, 3, STE), the frame
    count left in [frame_index] by the SIFT loop.  SIGINT right after the
    first STE unit of the second video, checkpointed as (1, 1, STE): the
    handler writes (0, 3, STE), video index 0.  Both runs exit with
    status 1, a full run with status 0. *)
Theorem interrupt_handler_saves_stale_variables :
  let first := run empty_world (Some (93, SIGINT)) two_clips in
  let second := run empty_world (Some (211, SIGINT)) two_clips in
  firstn 2 (log (snd first))
  = [EvSaveInterrupt {| video_index := 0; frame_index := 3; feature_stage := "STE" |};
     EvSaveUnit {| video_index := 0; frame_index := 1; feature_stage := "STE" |}]
  /\ checkpoint_of (world (snd first))
     = Some {| video_index := 0; frame_index := 3; feature_stage := "STE" |}
  /\ firstn 2 (log (snd second))
     = [EvSaveInterrupt {| video_index := 0; frame_index := 3; feature_stage := "STE" |};
        EvSaveUnit {| video_index := 1; frame_index := 1; feature_stage := "STE" |}]
  /\ checkpoint_of (world (snd second))
     = Some {| video_index := 0; frame_index := 3; feature_stage := "STE" |}
  /\ exit_status (fst first) = 1
  /\ exit_status (fst second) = 1
  /\ exit_status (fst (run empty_world None two_clips)) = 0.
Proof. vm_compute. repeat split; reflexivity. Qed.

(** C8. Transient artifacts, at the failing input: after a full run over
    two videos the frame directory of the first video, its three images
    and its audio file are still on disk, next to the output directory;
    the only deletions are those of the last video, after the loop. *)
Theorem only_last_video_artifacts_deleted :
  let r := run empty_world None two_clips in
  fst r = Done ["Videos/a.mp4"; "Videos/b.mp4"]
  /\ disk (world (snd r))
     = ["Processed"; "Processed/frames_a"; "Processed/frames_a/frame_0.jpg";
        "Processed/frames_a/frame_1.jpg"; "Processed/frames_a/frame_2.jpg";
        "Videos/a.wav"]
  /\ filter is_delete (trace (snd r))
     = [EvDeleteDirectory "Processed/frames_b"; EvDeleteFiles ["Videos/b.wav"]]
  /\ firstn 3 (log (snd r))
     = [EvDeleteFiles ["Videos/b.wav"]; EvDeleteDirectory "Processed/frames_b";
        EvIntegrity true].
Proof. vm_compute. repeat split; reflexivity. Qed.

(** C6, as the code has it.  [save_progress] overwrites the progress file
    in place: a save that no signal cuts short leaves a text that a restart
    reads back as the saved progress, and touches nothing else; its first
    step is the truncation, so a process killed before the second step
    leaves an empty file. *)
Theorem save_progress_overwrites_in_place :
  forall (p : Progress) (s : State),
    all_chars is_plain (feature_stage p) = true ->
    pending s = None ->
    fst (save_progress p s) = Done tt
    /\ progress_file (world (snd (save_progress p s))) = Some (json_dumps p)
    /\ checkpoint_of (world (snd (save_progress p s))) = Some p
    /\ database (world (snd (save_progress p s))) = database (world s)
    /\ disk (world (snd (save_progress p s))) = disk (world s)
    /\ progress_file
         (world (snd (save_progress p (set_pending (Some (1, SIGKILL)) s)))) = Some "".
Proof.
  intros p s Hplain Hp.
  rewrite (save_progress_complete p s Hp). simpl.
  unfold checkpoint_of. simpl. rewrite (json_roundtrip p Hplain).
  repeat split; reflexivity.
Qed.

Lemma save_progress_overwrites_in_place_witness :
  let p := {| video_index := 1; frame_index := 2; feature_stage := "DWT" |} in
  let s := boot empty_world None in
  checkpoint_of (world (snd (save_progress p s))) = Some p
  /\ progress_file
       (world (snd (save_progress p (set_pending (Some (1, SIGKILL)) s)))) = Some "".
Proof.
  intros p s.
  destruct (save_progress_overwrites_in_place p s eq_refl eq_refl)
    as (_ & _ & Hload & _ & _ & Hcut).
  split; [exact Hload|exact Hcut].
Defined.

(** C6, as stated, fails: a save killed between its two steps turns a
    readable progress file into an empty one, which a restart cannot
    parse. *)
Lemma save_killed_midway_leaves_unparsable_file :
  let before := boot {| database := Some [];
                        progress_file := Some (json_dumps default_progress);
                        disk := [] |} (Some (1, SIGKILL)) in
  let r := save_progress {| video_index := 0; frame_index := 1; feature_stage := "SIFT" |}
                         before in
  checkpoint_of (world before) = Some default_progress
  /\ fst r = Stopped Killed
  /\ progress_file (world (snd r)) = Some ""
  /\ checkpoint_of (world (snd r)) = None.
Proof. vm_compute. repeat split; reflexivity. Qed.

(** ** Reasoning on the log of a run *)

Section Triples.

Context {A B : Type}.
Implicit Types (P : list Event -> Prop) (E : list Event -> Prop).

Lemma triple_ret P (Q : A -> list Event -> Prop) E (a : A) :
  (forall l, P l -> Q a l) -> triple P (ret a) Q E.
Proof. intros H s Hs. simpl. auto. Qed.

Lemma triple_bind P (R : A -> list Event -> Prop) (Q : B -> list Event -> Prop) E
      (m : M A) (k : A -> M B) :
  triple P m R E -> (forall a, triple (R a) (k a) Q E) -> triple P (bind m k) Q E.
Proof.
  intros Hm Hk s Hs. unfold bind. specialize (Hm s Hs).
  destruct (m s) as [[a|why] s']; [|exact Hm].
  apply (Hk a s' Hm).
Qed.

Lemma triple_weaken P P' (Q Q' : A -> list Event -> Prop) E (m : M A) :
  triple P m Q E -> (forall l, P' l -> P l) -> (forall a l, Q a l -> Q' a l) ->
  triple P' m Q' E.
Proof.
  intros Hm HP HQ s Hs. specialize (Hm s (HP _ Hs)).
  destruct (m s) as [[a|why] s']; auto.
Qed.

Lemma triple_stop P (Q : A -> list Event -> Prop) E (why : Stop) :
  (forall l, P l -> E l) -> triple P (stop why) Q E.
Proof. intros H s Hs. simpl. auto. Qed.

Lemma triple_lift_exc P E (r : PyExc + A) :
  (forall l, P l -> E l) -> triple P (lift_exc r) (fun _ => P) E.
Proof. intros H. destruct r; simpl; [now apply triple_stop|now apply triple_ret]. Qed.

End Triples.

Section Steps.

Implicit Types (P : list Event -> Prop) (E : list Event -> Prop).

Lemma triple_get_state P E : triple P get_state (fun _ => P) E.
Proof. intros s Hs. exact Hs. Qed.

Lemma triple_modify P E (f : State -> State) :
  (forall s, log (f s) = log s) -> triple P (modify f) (fun _ => P) E.
Proof. intros H s Hs. simpl. now rewrite H. Qed.

Lemma triple_emit (Q : list Event -> Prop) E (e : Event) :
  triple (fun l => Q (e :: l)) (emit e) (fun _ => Q) E.
Proof. intros s Hs. exact Hs. Qed.

Lemma log_flush_buffer (s : State) : log (flush_buffer s) = log s.
Proof. unfold flush_buffer. now destruct (buffered s). Qed.

Lemma database_flush_buffer (s : State) :
  database (world (flush_buffer s)) = database (world s).
Proof. unfold flush_buffer. now destruct (buffered s). Qed.


Lemma vars_flush_buffer (s : State) : vars (flush_buffer s) = vars s.
Proof. unfold flush_buffer. now destruct (buffered s). Qed.

Lemma pending_flush_buffer (s : State) : pending (flush_buffer s) = pending s.
Proof. unfold flush_buffer. now destruct (buffered s). Qed.

Lemma handler_flush_buffer (s : State) :
  handler_installed (flush_buffer s) = handler_installed s.
Proof. unfold flush_buffer. now destruct (buffered s). Qed.

Lemma buffered_flush_buffer (s : State) : buffered (flush_buffer s) = buffered s.
Proof. unfold flush_buffer. now destruct (buffered s) eqn:E. Qed.

Lemma progress_file_flush_buffer (s : State) :
  progress_file (world (flush_buffer s))
  = match buffered s with
    | Some b => Some (written_over b (file_text (world s)))
    | None => progress_file (world s)
    end.
Proof. unfold flush_buffer. now destruct (buffered s). Qed.

(** What the handler does, in one equation. *)
Lemma handle_interrupt_run (s : State) :
  handle_interrupt s
  = (Stopped (SystemExit 1),
     flush_buffer
       (add_event
          (EvSaveInterrupt {| video_index := var_video_index (vars s);
                              frame_index := var_frame_index (vars s);
                              feature_stage := var_feature_stage (vars s) |})
          (set_world
             (put_progress_file
                (json_dumps {| video_index := var_video_index (vars s);
                               frame_index := var_frame_index (vars s);
                               feature_stage := var_feature_stage (vars s) |}))
             s))).
Proof. reflexivity. Qed.

Lemma triple_tick P E :
  (forall l, P l -> E l) -> absorbs E -> triple P tick (fun _ => P) E.
Proof.
  intros HPE Habs s Hs. unfold tick.
  destruct (pending s) as [[[|n] [|]]|]; simpl; auto.
  destruct (handler_installed s).
  - rewrite handle_interrupt_run, log_flush_buffer. simpl. auto.
  - rewrite log_flush_buffer. simpl. auto.
Qed.

Lemma triple_read_table P E :
  (forall l, P l -> E l) -> triple P read_table (fun _ => P) E.
Proof.
  intros HPE s Hs. unfold read_table, bind, get_state.
  destruct (database (world s)); simpl; auto.
Qed.

Lemma triple_write_chunks P E (chunks : list string) :
  (forall l, P l -> E l) -> absorbs E -> triple P (write_chunks chunks) (fun _ => P) E.
Proof.
  intros HPE Habs. induction chunks as [|chunk rest IH]; simpl.
  - now apply triple_ret.
  - eapply triple_bind; [now apply triple_tick|intros ?; cbv beta].
    eapply triple_bind; [now apply triple_modify|intros ?; cbv beta].
    exact IH.
Qed.

Lemma triple_save_progress P E (p : Progress) :
  (forall l, P l -> E l) -> absorbs E -> triple P (save_progress p) (fun _ => P) E.
Proof.
  intros HPE Habs. unfold save_progress.
  eapply triple_bind; [now apply triple_tick|intros ?; cbv beta].
  eapply triple_bind; [now apply triple_modify|intros ?; cbv beta].
  eapply triple_bind; [now apply triple_write_chunks|intros ?; cbv beta].
  eapply triple_bind; [now apply triple_tick|intros ?; cbv beta].
  apply triple_modify. intros s. unfold close_progress_file. simpl.
  apply log_flush_buffer.
Qed.

Lemma triple_store_hash_unit P (Q : list Event -> Prop) E v f p h :
  (forall l, P l -> E l) -> absorbs E ->
  (forall l, P l -> Q (EvUpdate v f p (join_hash_sequence h) :: l)) ->
  triple P (store_hash_unit v f p h) (fun _ => Q) E.
Proof.
  intros HPE Habs HQ. unfold store_hash_unit.
  eapply triple_bind; [now apply triple_tick|intros ?; cbv beta].
  eapply triple_bind; [now apply triple_read_table|intros t].
  eapply triple_bind; [now apply triple_modify|intros ?; cbv beta].
  eapply triple_weaken; [apply (triple_emit Q)|exact HQ|auto].
Qed.

End Steps.

(** ** Checkpoint monotonicity *)

Lemma triple_emit_to (P Q : list Event -> Prop) (E : list Event -> Prop) (e : Event) :
  (forall l, P l -> Q (e :: l)) -> triple P (emit e) (fun _ => Q) E.
Proof. intros H s Hs. simpl. auto. Qed.

Lemma cursor_le_refl (p : Progress) : cursor_le p p.
Proof. unfold cursor_le. lia. Qed.

Lemma cursor_le_trans (p q r : Progress) :
  cursor_le p q -> cursor_le q r -> cursor_le p r.
Proof. unfold cursor_le. lia. Qed.

Lemma below_nil (b : Progress) : below b [].
Proof. repeat split; constructor. Qed.

Lemma below_weaken (b b' : Progress) (l : list Event) :
  cursor_le b b' -> below b l -> below b' l.
Proof.
  intros Hle (Hs & Hb & Ht). repeat split; auto.
  eapply Forall_impl; [|exact Hb]. intros p Hp. now apply cursor_le_trans with b.
Qed.

Lemma below_walked (b : Progress) (l : list Event) : below b l -> walked l.
Proof. intros (Hs & _ & Ht). now split. Qed.

Lemma walked_absorbs : absorbs walked.
Proof. intros l p H. exact H. Qed.

Lemma below_skip (b : Progress) (e : Event) (l : list Event) :
  saved (e :: l) = saved l -> transitions (e :: l) = transitions l ->
  below b l -> below b (e :: l).
Proof. unfold below. intros -> ->. auto. Qed.

Lemma below_unit (b p : Progress) (l : list Event) :
  cursor_le b p -> below b l -> below p (EvSaveUnit p :: l).
Proof.
  intros Hle (Hs & Hb & Ht). unfold below. simpl. repeat split; auto.
  - constructor; [exact Hs|].
    eapply Forall_impl; [|exact Hb]. intros q Hq. now apply cursor_le_trans with b.
  - constructor; [apply cursor_le_refl|].
    eapply Forall_impl; [|exact Hb]. intros q Hq. now apply cursor_le_trans with b.
Qed.

Lemma below_transition (b p : Progress) (l : list Event) :
  cursor_le b p -> frame_index p = 0 -> below b l -> below p (EvSaveTransition p :: l).
Proof.
  intros Hle Hz (Hs & Hb & Ht). unfold below. simpl. repeat split; auto.
  - constructor; [exact Hs|].
    eapply Forall_impl; [|exact Hb]. intros q Hq. now apply cursor_le_trans with b.
  - constructor; [apply cursor_le_refl|].
    eapply Forall_impl; [|exact Hb]. intros q Hq. now apply cursor_le_trans with b.
Qed.

Create HintDb walk.
#[local] Hint Resolve below_walked walked_absorbs : walk.

(** One step of a computation that leaves the saves of the log alone. *)
Ltac quiet_step :=
  first
    [ solve [apply triple_tick; [eauto with walk|apply walked_absorbs]]
    | solve [apply triple_save_progress; [eauto with walk|apply walked_absorbs]]
    | solve [apply triple_modify; reflexivity]
    | solve [apply triple_get_state]
    | solve [apply triple_lift_exc; eauto with walk]
    | solve [apply triple_read_table; eauto with walk]
    | solve [apply triple_store_hash_unit;
             [eauto with walk|apply walked_absorbs
             |intros ? ?; apply below_skip; [reflexivity|reflexivity|eassumption]]]
    | solve [apply triple_emit_to; intros ? ?;
             apply below_skip; [reflexivity|reflexivity|eassumption]] ].

Ltac quiet_steps :=
  repeat (eapply triple_bind; [quiet_step|intros ?; cbv beta]).

Lemma sift_loop_walks (i video_id : nat) (rest : list Frame) : forall j,
  triple (below {| video_index := i; frame_index := j; feature_stage := "SIFT" |})
         (sift_loop i video_id j rest)
         (fun _ => below {| video_index := i; frame_index := 0; feature_stage := "STE" |})
         walked.
Proof.
  induction rest as [|frame rest IH]; intros j; simpl.
  - apply triple_ret. intros l. apply below_weaken.
    unfold cursor_le, stage_rank; simpl; lia.
  - quiet_steps.
    eapply triple_bind.
    { apply (triple_emit_to _ (below {| video_index := i; frame_index := j + 1;
                                        feature_stage := "SIFT" |})).
      intros l. apply below_unit. unfold cursor_le, stage_rank; simpl; lia. }
    intros ?; cbv beta. quiet_steps.
    rewrite Nat.add_1_r. apply IH.
Qed.

Lemma ste_loop_walks (i video_id : nat) (rest : list string) : forall j,
  triple (below {| video_index := i; frame_index := j; feature_stage := "STE" |})
         (ste_loop i video_id j rest)
         (fun _ => below {| video_index := i; frame_index := 0; feature_stage := "DWT" |})
         walked.
Proof.
  induction rest as [|h rest IH]; intros j; simpl.
  - apply triple_ret. intros l. apply below_weaken.
    unfold cursor_le, stage_rank; simpl; lia.
  - quiet_steps.
    eapply triple_bind.
    { apply (triple_emit_to _ (below {| video_index := i; frame_index := j + 1;
                                        feature_stage := "STE" |})).
      intros l. apply below_unit. unfold cursor_le, stage_rank; simpl; lia. }
    intros ?; cbv beta.
    rewrite Nat.add_1_r. apply IH.
Qed.

Lemma dwt_loop_walks (i video_id : nat) (rest : list string) : forall j,
  triple (below {| video_index := i; frame_index := j; feature_stage := "DWT" |})
         (dwt_loop i video_id j rest)
         (fun _ => below {| video_index := i + 1; frame_index := 0; feature_stage := "SIFT" |})
         walked.
Proof.
  induction rest as [|h rest IH]; intros j; simpl.
  - apply triple_ret. intros l. apply below_weaken.
    unfold cursor_le, stage_rank; simpl; lia.
  - quiet_steps.
    eapply triple_bind.
    { apply (triple_emit_to _ (below {| video_index := i; frame_index := j + 1;
                                        feature_stage := "DWT" |})).
      intros l. apply below_unit. unfold cursor_le, stage_rank; simpl; lia. }
    intros ?; cbv beta.
    rewrite Nat.add_1_r. apply IH.
Qed.

Lemma current_stage_quiet (P : list Event -> Prop) (E : list Event -> Prop) :
  triple P current_stage (fun _ => P) E.
Proof.
  unfold current_stage.
  eapply triple_bind; [apply triple_get_state|intros s; cbv beta].
  now apply triple_ret.
Qed.

Lemma sift_stage_walks (i video_id : nat) (frames : list Frame) :
  triple (below {| video_index := i; frame_index := 0; feature_stage := "SIFT" |})
         (sift_stage i video_id frames)
         (fun _ => below {| video_index := i; frame_index := 0; feature_stage := "STE" |})
         walked.
Proof.
  unfold sift_stage.
  eapply triple_bind; [apply current_stage_quiet|intros stage; cbv beta].
  destruct (String.eqb stage "SIFT").
  - eapply triple_bind; [apply triple_get_state|intros s; cbv beta].
    eapply triple_bind.
    { eapply triple_weaken; [apply sift_loop_walks| |intros ? l H; exact H].
      intros l. apply below_weaken. unfold cursor_le, stage_rank; simpl; lia. }
    intros ?; cbv beta. quiet_steps.
    eapply triple_bind.
    { apply (triple_emit_to _ (below {| video_index := i; frame_index := 0;
                                        feature_stage := "STE" |})).
      intros l. apply below_transition; [apply cursor_le_refl|reflexivity]. }
    intros ?; cbv beta. quiet_steps. quiet_step.
  - apply triple_ret. intros l. apply below_weaken.
    unfold cursor_le, stage_rank; simpl; lia.
Qed.

Lemma ste_stage_walks (i video_id : nat) (audio : Audio) :
  triple (below {| video_index := i; frame_index := 0; feature_stage := "STE" |})
         (ste_stage i video_id audio)
         (fun _ => below {| video_index := i; frame_index := 0; feature_stage := "DWT" |})
         walked.
Proof.
  unfold ste_stage.
  eapply triple_bind; [apply current_stage_quiet|intros stage; cbv beta].
  destruct (String.eqb stage "STE").
  - quiet_steps.
    eapply triple_bind; [apply ste_loop_walks|intros ?; cbv beta].
    quiet_steps.
    eapply triple_bind.
    { apply (triple_emit_to _ (below {| video_index := i; frame_index := 0;
                                        feature_stage := "DWT" |})).
      intros l. apply below_transition; [apply cursor_le_refl|reflexivity]. }
    intros ?; cbv beta. quiet_steps. quiet_step.
  - apply triple_ret. intros l. apply below_weaken.
    unfold cursor_le, stage_rank; simpl; lia.
Qed.

Lemma dwt_stage_walks (i video_id : nat) (audio : Audio) :
  triple (below {| video_index := i; frame_index := 0; feature_stage := "DWT" |})
         (dwt_stage i video_id audio)
         (fun _ => below {| video_index := i + 1; frame_index := 0; feature_stage := "SIFT" |})
         walked.
Proof.
  unfold dwt_stage.
  eapply triple_bind; [apply current_stage_quiet|intros stage; cbv beta].
  destruct (String.eqb stage "DWT").
  - quiet_steps.
    eapply triple_bind; [apply dwt_loop_walks|intros ?; cbv beta].
    quiet_steps.
    eapply triple_bind.
    { apply (triple_emit_to _ (below {| video_index := i + 1; frame_index := 0;
                                        feature_stage := "SIFT" |})).
      intros l. apply below_transition; [apply cursor_le_refl|reflexivity]. }
    intros ?; cbv beta. quiet_steps. quiet_step.
  - apply triple_ret. intros l. apply below_weaken.
    unfold cursor_le, stage_rank; simpl; lia.
Qed.

Lemma extract_frames_quiet (b : Progress) (videos_dir output_dir : string) (v : Video) :
  triple (below b) (extract_frames videos_dir output_dir v) (fun _ => below b) walked.
Proof.
  unfold extract_frames. quiet_steps. now apply triple_ret.
Qed.

Lemma extract_audio_quiet (b : Progress) (videos_dir : string) (v : Video) :
  triple (below b) (extract_audio videos_dir v) (fun _ => below b) walked.
Proof.
  unfold extract_audio. quiet_steps.
  match goal with |- context [if ?c then _ else _] => destruct c end; quiet_steps;
    [now apply triple_ret|apply triple_stop; eauto with walk].
Qed.

Lemma coverage_check_quiet (b : Progress) :
  triple (below b) coverage_check (fun _ => below b) walked.
Proof.
  unfold coverage_check. quiet_steps. now apply triple_ret.
Qed.

Lemma process_video_walks (videos_dir output_dir : string) (i : nat) (v : Video) :
  triple (below {| video_index := i; frame_index := 0; feature_stage := "SIFT" |})
         (process_video videos_dir output_dir i v)
         (fun _ => below {| video_index := i + 1; frame_index := 0; feature_stage := "SIFT" |})
         walked.
Proof.
  unfold process_video.
  eapply triple_bind; [apply extract_frames_quiet|intros ?; cbv beta].
  quiet_steps.
  eapply triple_bind; [apply sift_stage_walks|intros ?; cbv beta].
  eapply triple_bind; [apply extract_audio_quiet|intros ?; cbv beta].
  quiet_steps.
  eapply triple_bind; [apply ste_stage_walks|intros ?; cbv beta].
  eapply triple_bind; [apply dwt_stage_walks|intros ?; cbv beta].
  quiet_steps. quiet_step.
Qed.

Lemma video_loop_walks (videos_dir output_dir : string) (rest : list Video) : forall i,
  triple (below {| video_index := i; frame_index := 0; feature_stage := "SIFT" |})
         (video_loop videos_dir output_dir i rest)
         (fun _ => below {| video_index := i + List.length rest; frame_index := 0;
                            feature_stage := "SIFT" |})
         walked.
Proof.
  induction rest as [|v rest IH]; intros i; simpl.
  - apply triple_ret. intros l. apply below_weaken.
    unfold cursor_le, stage_rank; simpl; lia.
  - eapply triple_bind; [apply coverage_check_quiet|intros covered; cbv beta].
    destruct covered.
    + apply triple_ret. intros l. apply below_weaken.
      unfold cursor_le, stage_rank; simpl; lia.
    + eapply triple_bind; [apply process_video_walks|intros ?; cbv beta].
      rewrite Nat.add_1_r. replace (i + S (List.length rest)) with (S i + List.length rest) by lia.
      apply IH.
Qed.

Lemma create_database_quiet (b : Progress) :
  triple (below b) create_database (fun _ => below b) walked.
Proof. unfold create_database. quiet_steps. quiet_step. Qed.

Lemma read_bound_quiet (b : Progress) (var : Locals -> option string) :
  triple (below b) (read_bound var) (fun _ => below b) walked.
Proof.
  unfold read_bound.
  eapply triple_bind; [apply triple_get_state|intros s; cbv beta].
  destruct (var (vars s)); [now apply triple_ret|].
  apply triple_stop. apply below_walked.
Qed.

Lemma delete_directory_quiet (b : Progress) (path : string) :
  triple (below b) (delete_directory path) (fun _ => below b) walked.
Proof. unfold delete_directory. quiet_steps. quiet_step. Qed.

Lemma delete_files_quiet (b : Progress) (paths : list string) :
  triple (below b) (delete_files paths) (fun _ => below b) walked.
Proof. unfold delete_files. quiet_steps. quiet_step. Qed.

Lemma load_or_default_quiet (b : Progress) (file : option string) :
  triple (below b)
         (match file with
          | Some text => load_progress text
          | None => ret default_progress
          end)
         (fun _ => below b) walked.
Proof.
  destruct file as [text|]; [|now apply triple_ret].
  unfold load_progress. destruct (json_loads text).
  - now apply triple_ret.
  - apply triple_stop. apply below_walked.
Qed.

Lemma controller_walks (videos_dir : string) (video_files : list Video) :
  triple (below default_progress)
         (video_retrieval_database_construction videos_dir video_files)
         (fun _ => walked) walked.
Proof.
  unfold video_retrieval_database_construction.
  eapply triple_bind; [apply create_database_quiet|intros ?; cbv beta].
  quiet_steps.
  eapply triple_bind; [apply load_or_default_quiet|intros progress; cbv beta].
  quiet_steps.
  eapply triple_bind; [apply video_loop_walks|intros ?; cbv beta].
  quiet_steps.
  eapply triple_bind; [apply read_bound_quiet|intros ?; cbv beta].
  eapply triple_bind; [apply delete_directory_quiet|intros ?; cbv beta].
  eapply triple_bind; [apply read_bound_quiet|intros ?; cbv beta].
  eapply triple_bind; [apply delete_files_quiet|intros ?; cbv beta].
  quiet_steps.
  apply triple_ret. intros l. apply below_walked.
Qed.

Lemma sorted_pairs {X : Type} (R : X -> X -> Prop) (l : list X) :
  StronglySorted R l ->
  forall i j a b, i < j -> nth_error l i = Some a -> nth_error l j = Some b -> R a b.
Proof.
  induction 1 as [|x l Hs IH Hall]; intros i j a b Hij Ha Hb.
  - destruct i; discriminate.
  - destruct j as [|j]; [lia|]. simpl in Hb.
    destruct i as [|i]; simpl in Ha.
    + injection Ha as <-. apply nth_error_In in Hb.
      rewrite Forall_forall in Hall. now apply Hall.
    + apply (IH i j); [lia|assumption|assumption].
Qed.

Lemma walked_monotone (l : list Event) :
  walked l -> frame_index_monotone (rev (saved l)).
Proof.
  intros [Hs _] i j p q Hij Hp Hq Hv Hst.
  assert (Hj : j < List.length (rev (saved l))).
  { apply nth_error_Some. congruence. }
  rewrite length_rev in Hj.
  rewrite nth_error_rev in Hp, Hq.
  destruct (Nat.ltb_spec i (List.length (saved l))) as [Hi|Hi]; [|lia].
  destruct (Nat.ltb_spec j (List.length (saved l))) as [_|Hj']; [|lia].
  assert (Hle : cursor_le p q).
  { apply (sorted_pairs _ _ Hs (List.length (saved l) - S j) (List.length (saved l) - S i) q p);
      [lia|assumption|assumption]. }
  unfold cursor_le in Hle. rewrite Hst in Hle. lia.
Qed.

(** X23. The checkpoints of the loop.  In every run, whatever the store,
    the progress file and the artifacts it starts from, whatever the
    corpus, and whether or not a signal cuts it short: among the
    checkpoints the loop writes itself in that run (the per-unit and the
    transition saves, not the save of the interrupt handler), two saves
    with the same video_index and the same feature_stage carry
    frame_index values in non-decreasing order, and every save made at a
    stage or video transition carries frame_index 0. *)
Theorem loop_saves_are_monotone :
  forall (w : World) (sig : option (nat * Signal)) (video_files : list Video),
    frame_index_monotone (saves_in_order (snd (run w sig video_files)))
    /\ Forall (fun p => frame_index p = 0)
              (transitions (log (snd (run w sig video_files)))).
Proof.
  intros w sig video_files.
  assert (H : walked (log (snd (run w sig video_files)))).
  { unfold run.
    pose proof (controller_walks "Videos" video_files (boot w sig)
                                 (below_nil default_progress)) as H.
    destruct (video_retrieval_database_construction "Videos" video_files (boot w sig))
      as [[a|why] s']; exact H. }
  split.
  - now apply walked_monotone.
  - apply H.
Qed.

(** ** Coverage termination *)

Lemma open_closed (l : list Event) : open_log l -> closed_log l.
Proof. intros (Hg & Hs & _). now split. Qed.

Lemma checked_closed (l : list Event) : checked_log l -> closed_log l.
Proof.
  intros (n & older & -> & Hn & Hg & Hs & Hno). split; simpl; [exact Hg|].
  split; [now right|exact Hs].
Qed.

Lemma closed_absorbs : absorbs closed_log.
Proof. intros l p [Hg Hs]. split; simpl; [exact Hg|]. split; [now left|exact Hs]. Qed.

Lemma open_unit_event (e : Event) (l : list Event) :
  unit_event e = true -> open_log l -> open_log (e :: l).
Proof.
  intros He (Hg & Hs & Hno). repeat split.
  - destruct e; simpl in *; try discriminate; exact Hg.
  - now right.
  - exact Hs.
  - intros [Heq|Hin]; [subst e; discriminate|contradiction].
Qed.

Lemma open_extraction (v : string) (l : list Event) :
  checked_log l -> open_log (EvExtractFrames v :: l).
Proof.
  intros (n & older & -> & Hn & Hg & Hs & Hno). repeat split; simpl.
  - now exists n, older.
  - exact Hg.
  - right. intros [Heq|Hin]; [injection Heq as ->; congruence|contradiction].
  - right. exact Hno.
  - exact Hs.
  - intros [Heq|[Heq|Hin]]; [discriminate|injection Heq as ->; congruence|contradiction].
Qed.

Lemma closed_after_loop (e : Event) (l : list Event) :
  after_loop e = true -> closed_log l -> closed_log (e :: l).
Proof.
  intros He [Hg Hs]. split.
  - destruct e; simpl in *; try discriminate; exact Hg.
  - simpl. split; [now left|exact Hs].
Qed.

Create HintDb coverage.
#[local] Hint Resolve open_closed checked_closed closed_absorbs : coverage.

(** One step of the work on a video, on an open log. *)
Ltac open_step :=
  first
    [ solve [apply triple_tick; [eauto with coverage|apply closed_absorbs]]
    | solve [apply triple_save_progress; [eauto with coverage|apply closed_absorbs]]
    | solve [apply triple_modify; reflexivity]
    | solve [apply triple_get_state]
    | solve [apply current_stage_quiet]
    | solve [apply triple_lift_exc; eauto with coverage]
    | solve [apply triple_read_table; eauto with coverage]
    | solve [apply triple_store_hash_unit;
             [eauto with coverage|apply closed_absorbs
             |intros ? ?; apply open_unit_event; [reflexivity|eassumption]]]
    | solve [apply triple_emit_to; intros ? ?;
             apply open_unit_event; [reflexivity|eassumption]] ].

Ltac open_steps :=
  repeat (eapply triple_bind; [open_step|intros ?; cbv beta]).

Lemma sift_loop_open (i video_id : nat) (rest : list Frame) : forall j,
  triple open_log (sift_loop i video_id j rest) (fun _ => open_log) closed_log.
Proof.
  induction rest as [|frame rest IH]; intros j; simpl.
  - now apply triple_ret.
  - open_steps. apply IH.
Qed.

Lemma ste_loop_open (i video_id : nat) (rest : list string) : forall j,
  triple open_log (ste_loop i video_id j rest) (fun _ => open_log) closed_log.
Proof.
  induction rest as [|h rest IH]; intros j; simpl.
  - now apply triple_ret.
  - open_steps. apply IH.
Qed.

Lemma dwt_loop_open (i video_id : nat) (rest : list string) : forall j,
  triple open_log (dwt_loop i video_id j rest) (fun _ => open_log) closed_log.
Proof.
  induction rest as [|h rest IH]; intros j; simpl.
  - now apply triple_ret.
  - open_steps. apply IH.
Qed.

Lemma sift_stage_open (i video_id : nat) (frames : list Frame) :
  triple open_log (sift_stage i video_id frames) (fun _ => open_log) closed_log.
Proof.
  unfold sift_stage. open_steps.
  match goal with |- triple _ (if ?c then _ else _) _ _ => destruct c end;
    [|now apply triple_ret].
  open_steps.
  eapply triple_bind; [apply sift_loop_open|intros ?; cbv beta].
  open_steps. open_step.
Qed.

Lemma ste_stage_open (i video_id : nat) (audio : Audio) :
  triple open_log (ste_stage i video_id audio) (fun _ => open_log) closed_log.
Proof.
  unfold ste_stage. open_steps.
  match goal with |- triple _ (if ?c then _ else _) _ _ => destruct c end;
    [|now apply triple_ret].
  open_steps.
  eapply triple_bind; [apply ste_loop_open|intros ?; cbv beta].
  open_steps. open_step.
Qed.

Lemma dwt_stage_open (i video_id : nat) (audio : Audio) :
  triple open_log (dwt_stage i video_id audio) (fun _ => open_log) closed_log.
Proof.
  unfold dwt_stage. open_steps.
  match goal with |- triple _ (if ?c then _ else _) _ _ => destruct c end;
    [|now apply triple_ret].
  open_steps.
  eapply triple_bind; [apply dwt_loop_open|intros ?; cbv beta].
  open_steps. open_step.
Qed.

(** Frame extraction is only entered on a log that a passing coverage
    check has just closed. *)
Lemma extract_frames_checked (videos_dir output_dir : string) (v : Video) :
  triple checked_log (extract_frames videos_dir output_dir v) (fun _ => open_log) closed_log.
Proof.
  unfold extract_frames.
  eapply triple_bind;
    [apply triple_tick; [apply checked_closed|apply closed_absorbs]|intros ?; cbv beta].
  eapply triple_bind; [apply triple_modify; reflexivity|intros ?; cbv beta].
  eapply triple_bind.
  { apply (triple_emit_to _ open_log). intros l. apply open_extraction. }
  intros ?; cbv beta. now apply triple_ret.
Qed.

Lemma extract_audio_open (videos_dir : string) (v : Video) :
  triple open_log (extract_audio videos_dir v) (fun _ => open_log) closed_log.
Proof.
  unfold extract_audio. open_steps.
  match goal with |- context [if ?c then _ else _] => destruct c end; open_steps;
    [now apply triple_ret|apply triple_stop; apply open_closed].
Qed.

Lemma process_video_open (videos_dir output_dir : string) (i : nat) (v : Video) :
  triple checked_log (process_video videos_dir output_dir i v) (fun _ => open_log) closed_log.
Proof.
  unfold process_video.
  eapply triple_bind; [apply extract_frames_checked|intros ?; cbv beta].
  open_steps.
  eapply triple_bind; [apply sift_stage_open|intros ?; cbv beta].
  eapply triple_bind; [apply extract_audio_open|intros ?; cbv beta].
  open_steps.
  eapply triple_bind; [apply ste_stage_open|intros ?; cbv beta].
  eapply triple_bind; [apply dwt_stage_open|intros ?; cbv beta].
  open_steps. open_step.
Qed.

(** The coverage check logs the count it reads and answers whether that
    count is 256. *)
Lemma coverage_check_logs :
  triple open_log coverage_check
         (fun covered l => if covered then closed_log l else checked_log l)
         closed_log.
Proof.
  unfold coverage_check. open_steps.
  match goal with a : Table |- _ => rename a into t end.
  eapply triple_bind.
  { apply (triple_emit_to _ (fun l => if check_all_hash_sequences_generated t
                                      then closed_log l else checked_log l)).
    intros l Hl. unfold check_all_hash_sequences_generated.
    destruct (Nat.eqb_spec (distinct_hash_count t) 256) as [Heq|Hne].
    - destruct Hl as (Hg & Hs & Hno). split; simpl; [exact Hg|].
      split; [now right|exact Hs].
    - now exists (distinct_hash_count t), l. }
  intros ?; cbv beta. now apply triple_ret.
Qed.

Lemma video_loop_closed (videos_dir output_dir : string) (rest : list Video) : forall i,
  triple open_log (video_loop videos_dir output_dir i rest) (fun _ => closed_log) closed_log.
Proof.
  induction rest as [|v rest IH]; intros i; simpl.
  - apply triple_ret. apply open_closed.
  - eapply triple_bind; [apply coverage_check_logs|intros covered; cbv beta].
    destruct covered.
    + now apply triple_ret.
    + eapply triple_bind; [apply process_video_open|intros ?; cbv beta]. apply IH.
Qed.

(** One step after the loop, on a closed log. *)
Ltac closed_step :=
  first
    [ solve [apply triple_tick; [auto|apply closed_absorbs]]
    | solve [apply triple_modify; reflexivity]
    | solve [apply triple_get_state]
    | solve [apply triple_read_table; auto]
    | solve [apply triple_emit_to; intros ? ?;
             apply closed_after_loop; [reflexivity|eassumption]] ].

Ltac closed_steps :=
  repeat (eapply triple_bind; [closed_step|intros ?; cbv beta]).

Lemma read_bound_closed (var : Locals -> option string) :
  triple closed_log (read_bound var) (fun _ => closed_log) closed_log.
Proof.
  unfold read_bound.
  eapply triple_bind; [apply triple_get_state|intros s; cbv beta].
  destruct (var (vars s)); [now apply triple_ret|now apply triple_stop].
Qed.

Lemma delete_directory_closed (path : string) :
  triple closed_log (delete_directory path) (fun _ => closed_log) closed_log.
Proof. unfold delete_directory. closed_steps. closed_step. Qed.

Lemma delete_files_closed (paths : list string) :
  triple closed_log (delete_files paths) (fun _ => closed_log) closed_log.
Proof. unfold delete_files. closed_steps. closed_step. Qed.

Lemma create_database_open :
  triple open_log create_database (fun _ => open_log) closed_log.
Proof. unfold create_database. open_steps. open_step. Qed.

Lemma load_or_default_open (file : option string) :
  triple open_log
         (match file with
          | Some text => load_progress text
          | None => ret default_progress
          end)
         (fun _ => open_log) closed_log.
Proof.
  destruct file as [text|]; [|now apply triple_ret].
  unfold load_progress. destruct (json_loads text).
  - now apply triple_ret.
  - apply triple_stop. apply open_closed.
Qed.

Lemma controller_closed (videos_dir : string) (video_files : list Video) :
  triple open_log (video_retrieval_database_construction videos_dir video_files)
         (fun _ => closed_log) closed_log.
Proof.
  unfold video_retrieval_database_construction.
  eapply triple_bind; [apply create_database_open|intros ?; cbv beta].
  open_steps.
  eapply triple_bind; [apply load_or_default_open|intros progress; cbv beta].
  open_steps.
  eapply triple_bind; [apply video_loop_closed|intros ?; cbv beta].
  closed_steps.
  eapply triple_bind; [apply read_bound_closed|intros ?; cbv beta].
  eapply triple_bind; [apply delete_directory_closed|intros ?; cbv beta].
  eapply triple_bind; [apply read_bound_closed|intros ?; cbv beta].
  eapply triple_bind; [apply delete_files_closed|intros ?; cbv beta].
  closed_steps.
  now apply triple_ret.
Qed.

Lemma check_first_tail (e : Event) (l : list Event) : check_first (e :: l) -> check_first l.
Proof. destruct e; simpl; tauto. Qed.

Lemma check_first_inside (newer older : list Event) (v : string) :
  check_first (newer ++ EvExtractFrames v :: older) ->
  exists n rest, older = EvCoverage n :: rest /\ n <> 256.
Proof.
  induction newer as [|e newer IH]; simpl app.
  - simpl. tauto.
  - intros H. apply IH. now apply check_first_tail in H.
Qed.

Lemma sealed_inside (newer older : list Event) :
  sealed (newer ++ EvCoverage 256 :: older) ->
  forall e, In e newer -> after_loop e = true.
Proof.
  induction newer as [|x newer IH]; simpl; [intros _ e []|].
  intros [[Hx|Hx] Hs] e [<-|Hin]; auto.
  exfalso. apply Hx. apply in_or_app. right. now left.
Qed.

Lemma closed_log_trace (l : list Event) :
  closed_log l -> extraction_follows_check (rev l) /\ stops_at_full_coverage (rev l).
Proof.
  intros [Hg Hs]. split.
  - intros pre v post Ht.
    assert (Hl : l = rev post ++ EvExtractFrames v :: rev pre).
    { rewrite <- (rev_involutive l), Ht, rev_app_distr. simpl.
      now rewrite <- app_assoc. }
    rewrite Hl in Hg. apply check_first_inside in Hg as (n & rest & Hpre & Hn).
    exists (rev rest), n. split; [|exact Hn].
    rewrite <- (rev_involutive pre), Hpre. reflexivity.
  - intros pre post e Ht Hin.
    assert (Hl : l = rev post ++ EvCoverage 256 :: rev pre).
    { rewrite <- (rev_involutive l), Ht, rev_app_distr. simpl.
      now rewrite <- app_assoc. }
    rewrite Hl in Hs. apply (sealed_inside _ _ Hs). now apply in_rev in Hin.
Qed.


(** ** A run on a store that is already covered *)

Section Keeps.

Context {A B : Type}.
Implicit Types (I : State -> Prop).

Lemma keeps_ret I (R : A -> Prop) (a : A) : R a -> keeps I (ret a) R.
Proof. intros H s Hs. simpl. auto. Qed.

Lemma keeps_bind I (R1 : A -> Prop) (R : B -> Prop) (m : M A) (k : A -> M B) :
  keeps I m R1 -> (forall a, R1 a -> keeps I (k a) R) -> keeps I (bind m k) R.
Proof.
  intros Hm Hk s Hs. unfold bind. specialize (Hm s Hs).
  destruct (m s) as [[a|why] s']; [|exact Hm].
  destruct Hm as [Hs' Ha]. apply (Hk a Ha s' Hs').
Qed.

Lemma keeps_stop I (R : A -> Prop) (why : Stop) : keeps I (stop why) R.
Proof. intros s Hs. exact Hs. Qed.

End Keeps.

Lemma idle_tick : keeps idle tick (fun _ => True).
Proof.
  intros s [Hc Hl]. unfold tick.
  destruct (pending s) as [[[|n] [|]]|]; simpl.
  - destruct (handler_installed s).
    + rewrite handle_interrupt_run. unfold idle, covered.
      rewrite database_flush_buffer, log_flush_buffer. simpl.
      split; [exact Hc|]. constructor; [now left|exact Hl].
    + unfold idle, covered. rewrite database_flush_buffer, log_flush_buffer.
      now split.
  - now split.
  - now repeat split.
  - now repeat split.
  - now repeat split.
Qed.

Lemma idle_modify (f : State -> State) :
  (forall s, covered (world (f s)) = covered (world s)) ->
  (forall s, log (f s) = log s) ->
  keeps idle (modify f) (fun _ => True).
Proof.
  intros Hc Hl s [Hcs Hls]. simpl. split; [|exact I].
  split; [now rewrite Hc|now rewrite Hl].
Qed.

Lemma idle_emit (e : Event) :
  after_loop e = true \/ e = EvCoverage 256 -> keeps idle (emit e) (fun _ => True).
Proof.
  intros He s [Hc Hl]. simpl. split; [|exact I].
  split; [exact Hc|]. now constructor.
Qed.

Lemma idle_get_state : keeps idle get_state (fun _ => True).
Proof. intros s Hs. simpl. now split. Qed.

Lemma idle_read_table :
  keeps idle read_table (fun t => check_all_hash_sequences_generated t = true).
Proof.
  intros s [Hc Hl]. unfold read_table, bind, get_state.
  unfold covered in Hc.
  destruct (database (world s)) as [t|] eqn:Et; simpl.
  - split; [|exact Hc]. split; [|exact Hl]. unfold covered. now rewrite Et.
  - discriminate.
Qed.

Lemma idle_create_database : keeps idle create_database (fun _ => True).
Proof.
  unfold create_database.
  eapply keeps_bind; [apply idle_tick|intros _ _].
  intros s [Hc Hl]. simpl. split; [|exact I]. split; [|exact Hl].
  unfold covered in *. simpl.
  destruct (database (world s)) as [t|] eqn:Et; simpl; [|discriminate].
  now rewrite Et.
Qed.

Lemma idle_coverage_check : keeps idle coverage_check (fun b => b = true).
Proof.
  unfold coverage_check.
  eapply keeps_bind; [apply idle_tick|intros _ _].
  eapply keeps_bind; [apply idle_read_table|intros t Ht].
  eapply keeps_bind.
  - apply idle_emit. right. f_equal.
    unfold check_all_hash_sequences_generated in Ht. now apply Nat.eqb_eq.
  - intros _ _. now apply keeps_ret.
Qed.

Lemma idle_video_loop (videos_dir output_dir : string) (i : nat) (rest : list Video) :
  keeps idle (video_loop videos_dir output_dir i rest) (fun _ => True).
Proof.
  destruct rest as [|v rest]; simpl.
  - now apply keeps_ret.
  - eapply keeps_bind; [apply idle_coverage_check|intros b ->].
    now apply keeps_ret.
Qed.

Lemma idle_read_bound (var : Locals -> option string) :
  keeps idle (read_bound var) (fun _ => True).
Proof.
  unfold read_bound.
  eapply keeps_bind; [apply idle_get_state|intros s _].
  destruct (var (vars s)); [now apply keeps_ret|apply keeps_stop].
Qed.

Lemma idle_delete_directory (path : string) :
  keeps idle (delete_directory path) (fun _ => True).
Proof.
  unfold delete_directory.
  eapply keeps_bind; [apply idle_tick|intros _ _].
  eapply keeps_bind; [apply idle_modify; reflexivity|intros _ _].
  apply idle_emit. now left.
Qed.

Lemma idle_delete_files (paths : list string) :
  keeps idle (delete_files paths) (fun _ => True).
Proof.
  unfold delete_files.
  eapply keeps_bind; [apply idle_tick|intros _ _].
  eapply keeps_bind; [apply idle_modify; reflexivity|intros _ _].
  apply idle_emit. now left.
Qed.

Lemma idle_controller (videos_dir : string) (video_files : list Video) :
  keeps idle (video_retrieval_database_construction videos_dir video_files)
        (fun _ => True).
Proof.
  unfold video_retrieval_database_construction.
  eapply keeps_bind; [apply idle_create_database|intros _ _].
  eapply keeps_bind; [apply idle_tick|intros _ _].
  eapply keeps_bind; [apply idle_get_state|intros s _].
  eapply keeps_bind.
  { instantiate (1 := fun _ => True).
    destruct (progress_file (world s)) as [text|]; [|now apply keeps_ret].
    unfold load_progress. destruct (json_loads text);
      [now apply keeps_ret|apply keeps_stop]. }
  intros progress _.
  eapply keeps_bind; [apply idle_modify; reflexivity|intros _ _].
  eapply keeps_bind; [apply idle_modify; reflexivity|intros _ _].
  eapply keeps_bind; [apply idle_tick|intros _ _].
  eapply keeps_bind; [apply idle_modify; reflexivity|intros _ _].
  eapply keeps_bind; [apply idle_video_loop|intros _ _].
  eapply keeps_bind; [apply idle_tick|intros _ _].
  eapply keeps_bind; [apply idle_read_table|intros t _].
  eapply keeps_bind; [apply idle_emit; now left|intros _ _].
  eapply keeps_bind; [apply idle_read_bound|intros frame_dir _].
  eapply keeps_bind; [apply idle_delete_directory|intros _ _].
  eapply keeps_bind; [apply idle_read_bound|intros audio_path _].
  eapply keeps_bind; [apply idle_delete_files|intros _ _].
  eapply keeps_bind; [apply idle_get_state|intros s' _].
  now apply keeps_ret.
Qed.

(** On a store that already holds 256 distinct byte sequences, a run
    extracts the frames of no video. *)
Lemma covered_run_extracts_nothing (w : World) (sig : option (nat * Signal))
      (video_files : list Video) :
  covered w = true ->
  forall e, In e (trace (snd (run w sig video_files))) -> is_extraction e = false.
Proof.
  intros Hc e Hin. unfold trace in Hin. apply in_rev in Hin.
  assert (H0 : idle (boot w sig)) by (split; [exact Hc|constructor]).
  pose proof (idle_controller "Videos" video_files (boot w sig) H0) as H.
  unfold run in Hin.
  assert (Hl : Forall (fun e => after_loop e = true \/ e = EvCoverage 256)
                      (log (snd (video_retrieval_database_construction
                                   "Videos" video_files (boot w sig))))).
  { destruct (video_retrieval_database_construction "Videos" video_files (boot w sig))
      as [[a|why] s']; simpl; [apply H|apply H]. }
  rewrite Forall_forall in Hl. destruct (Hl e Hin) as [He| ->]; [|reflexivity].
  destruct e; simpl in *; congruence.
Qed.

(** X24. What the per-video check decides.  In every run, fresh or
    resumed, whatever the corpus and whether or not a signal cuts it
    short: the distinct count is read once per video, right before that
    video's frames would be extracted; frames are extracted only when the
    count read is not 256; once a check reads exactly 256 the run does
    nothing more on any video, only the closing integrity check and
    cleanup; and a run started on a store that holds exactly 256 distinct
    byte sequences extracts the frames of no video. *)
Theorem check_reading_256_ends_the_scan :
  forall (w : World) (sig : option (nat * Signal)) (video_files : list Video),
    extraction_follows_check (trace (snd (run w sig video_files)))
    /\ stops_at_full_coverage (trace (snd (run w sig video_files)))
    /\ (covered w = true ->
        forall e, In e (trace (snd (run w sig video_files))) -> is_extraction e = false).
Proof.
  intros w sig video_files.
  assert (Hclosed : closed_log (log (snd (run w sig video_files)))).
  { unfold run.
    assert (H0 : open_log (log (boot w sig))).
    { simpl. repeat split. intros []. }
    pose proof (controller_closed "Videos" video_files (boot w sig) H0) as H.
    destruct (video_retrieval_database_construction "Videos" video_files (boot w sig))
      as [[a|why] s']; exact H. }
  apply closed_log_trace in Hclosed as [Hg Hs].
  split; [exact Hg|]. split; [exact Hs|].
  intros Hc. now apply covered_run_extracts_nothing.
Qed.

Lemma check_reading_256_ends_the_scan_witness :
  let w := world (snd (run empty_world None [byte_video])) in
  covered w = true
  /\ forall e, In e (trace (snd (run w None two_clips))) -> is_extraction e = false.
Proof.
  intros w.
  assert (Hc : covered w = true) by (vm_compute; reflexivity).
  split; [exact Hc|].
  exact (proj2 (proj2 (check_reading_256_ends_the_scan w None two_clips)) Hc).
Defined.

(** ** Coverage and checkpoint order on given runs *)

(** C4. Coverage termination, at the failing input: a fresh run over a
    video whose wavelet coefficients store 257 different byte sequences
    (the nine-character rendering among them), followed by a second
    video.  Stopped right after its 256th unit, the run has a store that
    holds 256 distinct byte sequences and passes the full-coverage test;
    the run itself goes on, stores the 257th, reads 257 at the check made
    before the second video, and extracts the frames of that video. *)
Theorem frames_extracted_after_store_held_256 :
  let whole := run empty_world None [saturating_video; clip_a] in
  let stopped := run empty_world (Some (4136, SIGKILL)) [saturating_video; clip_a] in
  firstn (List.length (trace (snd stopped))) (trace (snd whole)) = trace (snd stopped)
  /\ distinct_hash_count (final_table stopped) = 256
  /\ check_all_hash_sequences_generated (final_table stopped) = true
  /\ filter check_or_extraction (trace (snd stopped))
     = [EvCoverage 0; EvExtractFrames "Videos/full.mp4"]
  /\ filter check_or_extraction (trace (snd whole))
     = [EvCoverage 0; EvExtractFrames "Videos/full.mp4";
        EvCoverage 257; EvExtractFrames "Videos/a.mp4"]
  /\ distinct_hash_count (final_table whole) = 257.
Proof. vm_compute. repeat split; reflexivity. Qed.

(** C7. Checkpoint monotonicity, at two failing inputs.  (a) SIGINT comes
    after the save of (0, 2, SIFT) and before the assignment that follows
    it: the handler saves the variable [frame_index], still 1, so the
    saves of the run for (0, SIFT) carry 1, 2, 1 and the file ends as
    (0, 1, SIFT).  (b) A run killed right after the save of (0, 2, STE)
    is started again: the STE loop starts from unit 0 and the first save
    of the second run is (0, 1, STE). *)
Theorem saved_frame_index_goes_back :
  let interrupted := run empty_world (Some (40, SIGINT)) two_clips in
  let killed := world (snd (run empty_world (Some (109, SIGKILL)) two_clips)) in
  every_save_in_order (snd interrupted)
  = [{| video_index := 0; frame_index := 1; feature_stage := "SIFT" |};
     {| video_index := 0; frame_index := 2; feature_stage := "SIFT" |};
     {| video_index := 0; frame_index := 1; feature_stage := "SIFT" |}]
  /\ ~ frame_index_monotone (every_save_in_order (snd interrupted))
  /\ checkpoint_of (world (snd interrupted))
     = Some {| video_index := 0; frame_index := 1; feature_stage := "SIFT" |}
  /\ checkpoint_of killed
     = Some {| video_index := 0; frame_index := 2; feature_stage := "STE" |}
  /\ firstn 2 (every_save_in_order (snd (run killed None two_clips)))
     = [{| video_index := 0; frame_index := 1; feature_stage := "STE" |};
        {| video_index := 0; frame_index := 2; feature_stage := "STE" |}].
Proof.
  split; [vm_compute; reflexivity|].
  split.
  { intros H.
    assert (E : every_save_in_order (snd (run empty_world (Some (40, SIGINT)) two_clips))
                = [{| video_index := 0; frame_index := 1; feature_stage := "SIFT" |};
                   {| video_index := 0; frame_index := 2; feature_stage := "SIFT" |};
                   {| video_index := 0; frame_index := 1; feature_stage := "SIFT" |}])
      by (vm_compute; reflexivity).
    rewrite E in H.
    specialize (H 1 2 _ _ (Nat.lt_succ_diag_r 1) eq_refl eq_refl eq_refl eq_refl).
    simpl in H. lia. }
  vm_compute. repeat split; reflexivity.
Qed.

(** ** More on the retrieval store *)

Lemma inserted_iff (calls : list InsertCall) : forall (t : Table) (b : string),
  In (Some b) (map ByteSequence (insert_all calls t))
  <-> In (Some b) (map ByteSequence t) \/ In b (map call_bytes calls).
Proof.
  unfold insert_all.
  induction calls as [|[[[b' v] f] p] calls IH]; intros t b; simpl.
  - tauto.
  - rewrite IH. split.
    + intros [H|H]; [|tauto].
      unfold insert_unique_into_database in H.
      destruct (Nat.eqb _ 0); [|tauto].
      rewrite map_app, in_app_iff in H. simpl in H.
      destruct H as [H|[H|[]]]; [tauto|]. injection H as ->. tauto.
    + intros [H|[H|H]]; [| |tauto].
      * left. unfold insert_unique_into_database.
        destruct (Nat.eqb _ 0); [|exact H].
        rewrite map_app, in_app_iff. now left.
      * subst b'. left. apply insert_makes_present.
Qed.

Lemma byte_sequences_columns (t : Table) :
  ~ In None (map ByteSequence t) ->
  map Some (byte_sequences t) = map ByteSequence t.
Proof.
  induction t as [|r t IH]; simpl; [reflexivity|].
  intros H. destruct (ByteSequence r) as [s|] eqn:E.
  - simpl. f_equal. apply IH. tauto.
  - tauto.
Qed.

Lemma deduplicated_count (t : Table) :
  deduplicated t -> distinct_hash_count t = List.length t.
Proof.
  intros [Hnd Hnn]. unfold distinct_hash_count.
  pose proof (byte_sequences_columns t Hnn) as Hcols.
  assert (Hnd' : NoDup (byte_sequences t)).
  { apply (NoDup_map_inv Some). now rewrite Hcols. }
  rewrite (nodup_fixed_point string_dec Hnd').
  rewrite <- (length_map Some), Hcols. apply length_map.
Qed.

Lemma byte_sequences_in (t : Table) (b : string) :
  In b (byte_sequences t) <-> In (Some b) (map ByteSequence t).
Proof.
  induction t as [|r t IH]; simpl; [tauto|].
  destruct (ByteSequence r) as [s|]; simpl; rewrite IH.
  - split; intros [H|H]; auto; left; congruence.
  - split; [tauto|intros [H|H]; [discriminate|exact H]].
Qed.

Lemma same_members_same_length (l1 l2 : list string) :
  NoDup l1 -> NoDup l2 -> (forall x, In x l1 <-> In x l2) ->
  List.length l1 = List.length l2.
Proof.
  intros H1 H2 H. apply Nat.le_antisymm.
  - apply NoDup_incl_length; [exact H1|]. intros x Hx. now apply H.
  - apply NoDup_incl_length; [exact H2|]. intros x Hx. now apply H.
Qed.

Lemma stored_rows (calls : list InsertCall) :
  distinct_hash_count (insert_all calls []) = List.length (insert_all calls [])
  /\ List.length (insert_all calls [])
     = List.length (nodup string_dec (map call_bytes calls)).
Proof.
  pose proof (insert_all_keeps_deduplicated calls [] deduplicated_nil) as Hd.
  split.
  - now apply deduplicated_count.
  - rewrite <- (deduplicated_count _ Hd). unfold distinct_hash_count.
    apply same_members_same_length; try apply NoDup_nodup.
    intros x. rewrite !nodup_In, byte_sequences_in, inserted_iff. simpl. tauto.
Qed.

(** X1. Lookup after inserts.  After any sequence of [insert_unique] calls
    on a new table, a byte sequence is stored exactly when some call
    carried it; the table has one row per distinct byte sequence of the
    calls, and the distinct count equals the number of rows. *)
Theorem stored_iff_inserted :
  forall (calls : list InsertCall) (b : string),
    (In (Some b) (map ByteSequence (insert_all calls [])) <-> In b (map call_bytes calls))
    /\ distinct_hash_count (insert_all calls []) = List.length (insert_all calls [])
    /\ List.length (insert_all calls [])
       = List.length (nodup string_dec (map call_bytes calls)).
Proof.
  intros calls b. split; [|apply stored_rows].
  rewrite inserted_iff. simpl. tauto.
Qed.

Lemma nodup_length_le (l : list string) :
  List.length (nodup string_dec l) <= List.length l.
Proof.
  induction l as [|x l IH]; simpl; [lia|].
  destruct (in_dec string_dec x l); simpl; lia.
Qed.

Lemma nodup_length_snoc (l : list string) (b : string) :
  ~ In b l ->
  List.length (nodup string_dec (l ++ [b])) = S (List.length (nodup string_dec l)).
Proof.
  intros Hb. induction l as [|x l IH]; simpl; [reflexivity|].
  assert (Hx : x <> b) by (intros ->; apply Hb; now left).
  assert (Hb' : ~ In b l) by (intros H; apply Hb; now right).
  destruct (in_dec string_dec x (l ++ [b])) as [Hin|Hout];
    destruct (in_dec string_dec x l) as [Hin'|Hout']; simpl.
  - now apply IH.
  - exfalso. apply in_app_iff in Hin as [H|[H|[]]]; [tauto|congruence].
  - exfalso. apply Hout. apply in_app_iff. now left.
  - f_equal. now apply IH.
Qed.

Lemma byte_sequences_app (t t' : Table) :
  byte_sequences (t ++ t') = byte_sequences t ++ byte_sequences t'.
Proof.
  induction t as [|r t IH]; simpl; [reflexivity|].
  destruct (ByteSequence r); simpl; now rewrite IH.
Qed.

(** X2. One insert, one step of coverage.  On any table, inserting a byte
    sequence that no row holds raises the distinct count by exactly one,
    and inserting one that some row holds leaves it as it is. *)
Theorem insert_counts_one :
  forall (t : Table) (b : string) (v : nat) (f : string) (p : nat),
    distinct_hash_count (insert_unique_into_database t b v f p)
    = if in_dec string_dec b (byte_sequences t)
      then distinct_hash_count t
      else S (distinct_hash_count t).
Proof.
  intros t b v f p. unfold insert_unique_into_database.
  destruct (Nat.eqb _ 0) eqn:E.
  - apply absent_iff in E. rewrite <- byte_sequences_in in E.
    destruct (in_dec string_dec b (byte_sequences t)) as [H|H]; [contradiction|].
    unfold distinct_hash_count. rewrite byte_sequences_app. simpl.
    now apply nodup_length_snoc.
  - destruct (in_dec string_dec b (byte_sequences t)) as [H|H]; [reflexivity|].
    exfalso. rewrite byte_sequences_in in H. apply absent_iff in H. congruence.
Qed.

(** X3. Full coverage takes at least 256 inserts: the coverage test cannot
    hold on a table filled by fewer calls. *)
Theorem coverage_needs_256_inserts :
  forall calls : list InsertCall,
    check_all_hash_sequences_generated (insert_all calls []) = true ->
    256 <= List.length calls.
Proof.
  intros calls H. unfold check_all_hash_sequences_generated in H.
  apply Nat.eqb_eq in H.
  destruct (stored_rows calls) as [Hcount Hlen].
  rewrite Hcount, Hlen in H.
  pose proof (nodup_length_le (map call_bytes calls)) as Hle.
  rewrite length_map in Hle. lia.
Qed.

Lemma coverage_needs_256_inserts_witness :
  check_all_hash_sequences_generated (insert_all byte_calls []) = true
  /\ 256 <= List.length byte_calls.
Proof.
  assert (H : check_all_hash_sequences_generated (insert_all byte_calls []) = true)
    by (vm_compute; reflexivity).
  split; [exact H|exact (coverage_needs_256_inserts byte_calls H)].
Defined.

Lemma integrity_columns (t : Table) :
  check_database_integrity t = true
  <-> ~ In None (map ByteSequence t) /\ ~ In (Some "") (map ByteSequence t).
Proof.
  unfold check_database_integrity. rewrite Nat.eqb_eq, select_count_zero. split.
  - intros H. split; intros Hin; apply in_map_iff in Hin as (r & Hr & Hin);
      specialize (H r Hin); unfold null_or_empty in H; rewrite Hr in H; discriminate.
  - intros [Hn He] r Hin. unfold null_or_empty.
    destruct (ByteSequence r) as [s|] eqn:E.
    + destruct (String.eqb_spec s ""); [|reflexivity].
      subst s. exfalso. apply He. rewrite <- E. now apply in_map.
    + exfalso. apply Hn. rewrite <- E. now apply in_map.
Qed.

(** X4. Integrity after inserts.  A table filled through [insert_unique]
    passes the integrity check exactly when no call carried the empty
    string: the insert stores no NULL, and nothing filters an empty byte
    sequence out. *)
Theorem integrity_after_inserts :
  forall calls : list InsertCall,
    check_database_integrity (insert_all calls []) = true
    <-> ~ In "" (map call_bytes calls).
Proof.
  intros calls. rewrite integrity_columns, inserted_iff. simpl.
  pose proof (insert_all_keeps_deduplicated calls [] deduplicated_nil) as [_ Hnn].
  tauto.
Qed.

(** ** More on the rendering of hash units *)

Lemma hash_each_bytes (xs : list spec_float) :
  forallb finite_nonnegative xs = true ->
  exists hs, hash_each xs = inr hs
             /\ List.length hs = List.length xs
             /\ forallb is_byte_string hs = true.
Proof.
  induction xs as [|x xs IH]; simpl; intros H.
  - exists []. repeat split.
  - apply andb_prop in H as [Hx Hxs].
    destruct (IH Hxs) as (hs & -> & Hlen & Hbytes).
    assert (Hh : exists h, hash_of_value x = inr h /\ is_byte_string h = true).
    { destruct x as [s| | |[|] m e]; try discriminate.
      - exists "00000000". split; [apply zero_hashes_to_byte|reflexivity].
      - apply nonnegative_value_hashes_to_byte. }
    destruct Hh as (h & -> & Hb).
    exists (h :: hs). simpl. rewrite Hlen, Hb, Hbytes. repeat split.
Qed.

(** X5. Sums of non-negative numbers are rendered on eight binary digits:
    for a frame whose descriptor sum is finite and not negative (or that
    has no descriptor), and an audio track whose window energies are,
    [calculate_sift_descriptors] and [calculate_ste_hash] raise nothing and
    return byte strings, one per window. *)
Theorem sift_and_ste_hashes_are_bytes :
  forall (frame : Frame) (audio_signal : Audio),
    frame_nonnegative frame = true ->
    forallb finite_nonnegative (energy audio_signal) = true ->
    (exists h, calculate_sift_descriptors frame = inr h /\ is_byte_string h = true)
    /\ (exists hs, calculate_ste_hash audio_signal = inr hs
                   /\ List.length hs = List.length (energy audio_signal)
                   /\ forallb is_byte_string hs = true).
Proof.
  intros frame audio_signal Hf Ha. split.
  - destruct frame as [[s| | |[|] m e]|]; simpl in Hf; try discriminate.
    + exists "00000000". split; [apply zero_hashes_to_byte|reflexivity].
    + apply nonnegative_value_hashes_to_byte.
    + exists "00000000". split; reflexivity.
  - now apply hash_each_bytes.
Qed.

Lemma sift_and_ste_hashes_are_bytes_witness :
  (exists h, calculate_sift_descriptors (Some (f32_of_Z 1000)) = inr h
             /\ is_byte_string h = true)
  /\ (exists hs, calculate_ste_hash (audio clip_a) = inr hs
                 /\ List.length hs = List.length (energy (audio clip_a))
                 /\ forallb is_byte_string hs = true).
Proof.
  apply (sift_and_ste_hashes_are_bytes (Some (f32_of_Z 1000)) (audio clip_a));
    reflexivity.
Defined.

Lemma not_finite_raises (x : spec_float) :
  not_finite x = true -> hash_of_value x = inl ValueError.
Proof. destruct x as [s|[|]| |s m e]; try discriminate; reflexivity. Qed.

Lemma hash_each_raises (xs : list spec_float) :
  existsb not_finite xs = true -> exists e, hash_each xs = inl e.
Proof.
  induction xs as [|x xs IH]; simpl; [discriminate|].
  intros H. destruct (hash_of_value x) as [e|h] eqn:Ex; [now exists e|].
  destruct (not_finite x) eqn:Enf.
  - rewrite (not_finite_raises x Enf) in Ex. discriminate.
  - destruct (IH H) as (e & ->). now exists e.
Qed.

Lemma hash_each_length (xs : list spec_float) : forall hs,
  hash_each xs = inr hs -> List.length hs = List.length xs.
Proof.
  induction xs as [|x xs IH]; simpl; intros hs H.
  - injection H as <-. reflexivity.
  - destruct (hash_of_value x); [discriminate|].
    destruct (hash_each xs) as [|hs']; [discriminate|].
    injection H as <-. simpl. f_equal. now apply IH.
Qed.

(** X6. One bad sample spoils the stage: when a window energy (or a wavelet
    coefficient) is NaN or infinite, [calculate_ste_hash] (or
    [calculate_dwt_hash]) raises and returns no partial list. *)
Theorem non_finite_value_raises :
  forall audio_signal : Audio,
    (existsb not_finite (energy audio_signal) = true ->
     exists e, calculate_ste_hash audio_signal = inl e)
    /\ (existsb not_finite (combined_coeffs audio_signal) = true ->
        exists e, calculate_dwt_hash audio_signal = inl e).
Proof.
  intros audio_signal. split; [apply hash_each_raises|].
  intros H. unfold calculate_dwt_hash.
  destruct (combined_coeffs audio_signal) as [|x xs] eqn:E; [discriminate|].
  now apply hash_each_raises.
Qed.

Lemma non_finite_value_raises_witness :
  exists e, calculate_dwt_hash {| energy := [];
                                  combined_coeffs := [f32_of_Z 7; S754_nan; f32_of_Z 9] |}
            = inl e.
Proof.
  exact (proj2 (non_finite_value_raises
                  {| energy := [];
                     combined_coeffs := [f32_of_Z 7; S754_nan; f32_of_Z 9] |}) eq_refl).
Defined.

Lemma bin_pos_length (p : positive) : forall acc,
  String.length (bin_pos p acc) = Pos.size_nat p + String.length acc.
Proof.
  induction p as [p IH|p IH|]; intros acc; simpl; try rewrite IH; simpl; lia.
Qed.

Lemma zeros_length (n : nat) : String.length (zeros n) = n.
Proof. induction n; simpl; congruence. Qed.

Lemma append_length (a b : string) :
  String.length (a ++ b)%string = String.length a + String.length b.
Proof. induction a as [|c a IH]; simpl; [reflexivity|now rewrite IH]. Qed.

(** X7. The width of [format(n, '08b')]: the rendering is eight binary
    digits exactly for the integers 0 to 255; a larger number takes more
    characters and a negative one carries a sign. *)
Theorem format_08b_byte_iff :
  forall n : Z, is_byte_string (format_08b n) = true <-> (0 <= n < 256)%Z.
Proof.
  intros n. split; [|apply format_08b_byte].
  intros H. destruct n as [|p|p].
  - lia.
  - destruct (Z.ltb_spec (Z.pos p) 256) as [Hlt|Hge]; [lia|]. exfalso.
    unfold is_byte_string in H. apply andb_prop in H as [Hlen _].
    apply Nat.eqb_eq in Hlen. simpl in Hlen. unfold zfill in Hlen.
    rewrite append_length, zeros_length, bin_pos_length in Hlen. simpl in Hlen.
    assert (Hs : Pos.size_nat 256 <= Pos.size_nat p).
    { destruct (Pos.eq_dec p 256) as [->|Hne]; [lia|].
      apply Pos.size_nat_monotone. lia. }
    simpl in Hs. lia.
  - simpl in H. unfold is_byte_string in H. simpl in H.
    apply andb_prop in H as [_ H]. discriminate.
Qed.

Lemma bin_value_bin_pos (p : positive) : forall (acc : string) (a : Z),
  bin_value (bin_pos p acc) a = bin_value acc (a * 2 ^ Z.of_nat (Pos.size_nat p) + Z.pos p).
Proof.
  induction p as [p IH|p IH|]; intros acc a.
  - cbn [bin_pos]. rewrite IH. cbn [bin_value]. f_equal.
    replace (Z.of_nat (Pos.size_nat p~1)) with (Z.succ (Z.of_nat (Pos.size_nat p)))
      by (cbn [Pos.size_nat]; lia).
    rewrite Z.pow_succ_r, Pos2Z.inj_xI by lia.
    simpl (Ascii.eqb _ _). cbv iota. lia.
  - cbn [bin_pos]. rewrite IH. cbn [bin_value]. f_equal.
    replace (Z.of_nat (Pos.size_nat p~0)) with (Z.succ (Z.of_nat (Pos.size_nat p)))
      by (cbn [Pos.size_nat]; lia).
    rewrite Z.pow_succ_r, Pos2Z.inj_xO by lia.
    simpl (Ascii.eqb _ _). cbv iota. lia.
  - cbn [bin_pos bin_value]. f_equal.
    simpl (Ascii.eqb _ _). cbv iota.
    cbn [Pos.size_nat]. change (2 ^ Z.of_nat 1)%Z with 2%Z. lia.
Qed.

Lemma bin_value_zeros (n : nat) (s : string) :
  bin_value (zeros n ++ s)%string 0 = bin_value s 0.
Proof. induction n as [|n IH]; simpl; [reflexivity|exact IH]. Qed.

Lemma zfill_head (w : nat) (p : positive) :
  exists c rest, zfill w (bin_pos p "") = String c rest /\ Ascii.eqb c "-" = false.
Proof.
  unfold zfill. destruct (w - String.length (bin_pos p "")) as [|k]; simpl.
  - assert (H : forall q acc, exists c rest,
               bin_pos q acc = String c rest /\ Ascii.eqb c "-" = false).
    { induction q as [q IH|q IH|]; intros acc; simpl; eauto. }
    apply H.
  - eauto.
Qed.

(** What [format(n, '08b')] writes reads back as [n]. *)
Lemma read_format_08b (n : Z) : read_08b (format_08b n) = n.
Proof.
  destruct n as [|p|p].
  - reflexivity.
  - simpl format_08b. destruct (zfill_head 8 p) as (c & rest & E & Hc).
    unfold read_08b. rewrite E, Hc, <- E. unfold zfill.
    rewrite bin_value_zeros, bin_value_bin_pos. simpl. lia.
  - simpl format_08b. unfold read_08b. simpl Ascii.eqb. cbv iota. unfold zfill.
    rewrite bin_value_zeros, bin_value_bin_pos. simpl. lia.
Qed.

(** X8. The rendering loses nothing: two different integers are never
    written as the same string, so deduplicating byte sequences is
    deduplicating hash values. *)
Theorem format_08b_injective :
  forall n m : Z, n <> m -> format_08b n <> format_08b m.
Proof.
  intros n m Hnm H. apply Hnm.
  rewrite <- (read_format_08b n), <- (read_format_08b m). now rewrite H.
Qed.

Lemma format_08b_injective_witness : format_08b 3 <> format_08b 259.
Proof. apply format_08b_injective. discriminate. Defined.

(** ** What every run keeps true of the table *)

Lemma format_08b_width (n : Z) : 8 <= String.length (format_08b n).
Proof.
  destruct n as [|p|p]; simpl.
  - lia.
  - unfold zfill. rewrite append_length, zeros_length. lia.
  - unfold zfill. rewrite append_length, zeros_length. lia.
Qed.

Lemma hash_of_value_not_empty (x : spec_float) (h : string) :
  hash_of_value x = inr h -> h <> "".
Proof.
  unfold hash_of_value. destruct (py_int _) as [e|n]; [discriminate|].
  intros H. injection H as <-. intros E.
  pose proof (format_08b_width n) as Hw. rewrite E in Hw. simpl in Hw. lia.
Qed.

Lemma sift_hash_not_empty (frame : Frame) (h : string) :
  calculate_sift_descriptors frame = inr h -> h <> "".
Proof.
  destruct frame as [x|]; simpl.
  - apply hash_of_value_not_empty.
  - intros H. injection H as <-. discriminate.
Qed.

Lemma hash_each_not_empty (xs : list spec_float) : forall hs,
  hash_each xs = inr hs -> Forall (fun h => h <> "") hs.
Proof.
  induction xs as [|x xs IH]; simpl; intros hs H.
  - injection H as <-. constructor.
  - destruct (hash_of_value x) as [|h] eqn:Ex; [discriminate|].
    destruct (hash_each xs) as [|hs']; [discriminate|].
    injection H as <-. constructor; [now apply (hash_of_value_not_empty x)|now apply IH].
Qed.

Lemma dwt_hash_each (audio_signal : Audio) (hs : list string) :
  calculate_dwt_hash audio_signal = inr hs ->
  hash_each (combined_coeffs audio_signal) = inr hs.
Proof.
  unfold calculate_dwt_hash.
  destruct (combined_coeffs audio_signal); [discriminate|auto].
Qed.

Lemma dwt_hash_not_empty (audio_signal : Audio) (hs : list string) :
  calculate_dwt_hash audio_signal = inr hs -> Forall (fun h => h <> "") hs.
Proof. intros H. now apply (hash_each_not_empty _ _ (dwt_hash_each _ _ H)). Qed.

Section TableInvariant.

Variable D : Table -> Prop.
Hypothesis D_insert :
  forall t b v f p, b <> "" -> D t -> D (insert_unique_into_database t b v f p).

Lemma table_tick : keeps (table_inv D) tick (fun _ => True).
Proof.
  intros s Hs. unfold tick.
  destruct (pending s) as [[[|n] [|]]|]; simpl; auto.
  destruct (handler_installed s); [rewrite handle_interrupt_run|];
    unfold table_inv, initial_table; rewrite database_flush_buffer; exact Hs.
Qed.

Lemma table_quiet (f : State -> State) :
  (forall s, database (world (f s)) = database (world s)) ->
  keeps (table_inv D) (modify f) (fun _ => True).
Proof.
  intros Hf s Hs. simpl. split; [|exact I].
  unfold table_inv, initial_table in *. now rewrite Hf.
Qed.

Lemma table_get_state : keeps (table_inv D) get_state (fun _ => True).
Proof. intros s Hs. simpl. now split. Qed.

Lemma table_save_progress (p : Progress) :
  keeps (table_inv D) (save_progress p) (fun _ => True).
Proof.
  unfold save_progress.
  eapply keeps_bind; [apply table_tick|intros _ _].
  eapply keeps_bind; [apply table_quiet; reflexivity|intros _ _].
  eapply keeps_bind.
  { instantiate (1 := fun _ => True).
    induction (json_chunks p) as [|chunk rest IH]; simpl; [now apply keeps_ret|].
    eapply keeps_bind; [apply table_tick|intros _ _].
    eapply keeps_bind; [apply table_quiet; reflexivity|intros _ _].
    exact IH. }
  intros _ _.
  eapply keeps_bind; [apply table_tick|intros _ _].
  apply table_quiet. intros s. apply database_flush_buffer.
Qed.

Lemma table_create_database : keeps (table_inv D) create_database (fun _ => True).
Proof.
  unfold create_database.
  eapply keeps_bind; [apply table_tick|intros _ _].
  intros s Hs. simpl. split; [|exact I].
  unfold table_inv, initial_table in *. simpl.
  destruct (database (world s)) eqn:E; simpl; [now rewrite E|exact Hs].
Qed.

Lemma table_store_hash_unit (v : nat) (f : string) (p : nat) (h : string) :
  h <> "" -> keeps (table_inv D) (store_hash_unit v f p [h]) (fun _ => True).
Proof.
  intros Hh. unfold store_hash_unit.
  eapply keeps_bind; [apply table_tick|intros _ _].
  intros s Hs.
  cbv beta iota delta [bind read_table get_state ret stop modify emit].
  destruct (database (world s)) as [t|] eqn:E; cbv beta iota; [|exact Hs].
  split; [|exact I]. unfold table_inv, initial_table in *. simpl.
  rewrite E in Hs. unfold update_retrieval_database. simpl. now apply D_insert.
Qed.

Lemma table_read_table : keeps (table_inv D) read_table (fun _ => True).
Proof.
  intros s Hs. unfold read_table, bind, get_state.
  destruct (database (world s)); simpl; auto.
Qed.

Lemma table_emit (e : Event) : keeps (table_inv D) (emit e) (fun _ => True).
Proof. intros s Hs. simpl. now split. Qed.

Lemma table_lift_exc {A : Type} (r : PyExc + A) (R : A -> Prop) :
  (forall a, r = inr a -> R a) -> keeps (table_inv D) (lift_exc r) R.
Proof.
  intros H. destruct r as [e|a]; simpl; [apply keeps_stop|].
  apply keeps_ret. now apply H.
Qed.

Lemma table_current_stage : keeps (table_inv D) current_stage (fun _ => True).
Proof.
  unfold current_stage.
  eapply keeps_bind; [apply table_get_state|intros s _]. now apply keeps_ret.
Qed.

Lemma table_sift_loop (i video_id : nat) (rest : list Frame) : forall j,
  keeps (table_inv D) (sift_loop i video_id j rest) (fun _ => True).
Proof.
  induction rest as [|frame rest IH]; intros j; simpl.
  - now apply keeps_ret.
  - eapply keeps_bind; [apply table_tick|intros _ _].
    eapply keeps_bind; [apply table_lift_exc; apply sift_hash_not_empty|intros h Hh].
    eapply keeps_bind; [now apply table_store_hash_unit|intros _ _].
    eapply keeps_bind; [apply table_save_progress|intros _ _].
    eapply keeps_bind; [apply table_emit|intros _ _].
    eapply keeps_bind; [apply table_tick|intros _ _].
    eapply keeps_bind; [apply table_quiet; reflexivity|intros _ _].
    apply IH.
Qed.

Lemma table_ste_loop (i video_id : nat) (rest : list string) : forall j,
  Forall (fun h => h <> "") rest ->
  keeps (table_inv D) (ste_loop i video_id j rest) (fun _ => True).
Proof.
  induction rest as [|h rest IH]; intros j Hrest; simpl.
  - now apply keeps_ret.
  - inversion Hrest as [|? ? Hh Hrest']; subst.
    eapply keeps_bind; [now apply table_store_hash_unit|intros _ _].
    eapply keeps_bind; [apply table_save_progress|intros _ _].
    eapply keeps_bind; [apply table_emit|intros _ _].
    now apply IH.
Qed.

Lemma table_dwt_loop (i video_id : nat) (rest : list string) : forall j,
  Forall (fun h => h <> "") rest ->
  keeps (table_inv D) (dwt_loop i video_id j rest) (fun _ => True).
Proof.
  induction rest as [|h rest IH]; intros j Hrest; simpl.
  - now apply keeps_ret.
  - inversion Hrest as [|? ? Hh Hrest']; subst.
    eapply keeps_bind; [now apply table_store_hash_unit|intros _ _].
    eapply keeps_bind; [apply table_save_progress|intros _ _].
    eapply keeps_bind; [apply table_emit|intros _ _].
    now apply IH.
Qed.

Lemma table_sift_stage (i video_id : nat) (frames : list Frame) :
  keeps (table_inv D) (sift_stage i video_id frames) (fun _ => True).
Proof.
  unfold sift_stage.
  eapply keeps_bind; [apply table_current_stage|intros stage _].
  destruct (String.eqb stage "SIFT"); [|now apply keeps_ret].
  eapply keeps_bind; [apply table_get_state|intros s _].
  eapply keeps_bind; [apply table_sift_loop|intros _ _].
  eapply keeps_bind; [apply table_save_progress|intros _ _].
  eapply keeps_bind; [apply table_emit|intros _ _].
  eapply keeps_bind; [apply table_tick|intros _ _].
  apply table_quiet; reflexivity.
Qed.

Lemma table_ste_stage (i video_id : nat) (audio : Audio) :
  keeps (table_inv D) (ste_stage i video_id audio) (fun _ => True).
Proof.
  unfold ste_stage.
  eapply keeps_bind; [apply table_current_stage|intros stage _].
  destruct (String.eqb stage "STE"); [|now apply keeps_ret].
  eapply keeps_bind; [apply table_tick|intros _ _].
  eapply keeps_bind; [apply table_lift_exc; apply hash_each_not_empty|intros hs Hhs].
  eapply keeps_bind; [now apply table_ste_loop|intros _ _].
  eapply keeps_bind; [apply table_save_progress|intros _ _].
  eapply keeps_bind; [apply table_emit|intros _ _].
  eapply keeps_bind; [apply table_tick|intros _ _].
  apply table_quiet; reflexivity.
Qed.

Lemma table_dwt_stage (i video_id : nat) (audio : Audio) :
  keeps (table_inv D) (dwt_stage i video_id audio) (fun _ => True).
Proof.
  unfold dwt_stage.
  eapply keeps_bind; [apply table_current_stage|intros stage _].
  destruct (String.eqb stage "DWT"); [|now apply keeps_ret].
  eapply keeps_bind; [apply table_tick|intros _ _].
  eapply keeps_bind; [apply table_lift_exc; apply dwt_hash_not_empty|intros hs Hhs].
  eapply keeps_bind; [now apply table_dwt_loop|intros _ _].
  eapply keeps_bind; [apply table_save_progress|intros _ _].
  eapply keeps_bind; [apply table_emit|intros _ _].
  eapply keeps_bind; [apply table_tick|intros _ _].
  apply table_quiet; reflexivity.
Qed.

Lemma table_process_video (videos_dir output_dir : string) (i : nat) (v : Video) :
  keeps (table_inv D) (process_video videos_dir output_dir i v) (fun _ => True).
Proof.
  unfold process_video, extract_frames, extract_audio.
  eapply keeps_bind.
  { instantiate (1 := fun _ => True).
    eapply keeps_bind; [apply table_tick|intros _ _].
    eapply keeps_bind; [apply table_quiet; reflexivity|intros _ _].
    eapply keeps_bind; [apply table_emit|intros _ _].
    now apply keeps_ret. }
  intros extracted _.
  eapply keeps_bind; [apply table_quiet; reflexivity|intros _ _].
  eapply keeps_bind; [apply table_sift_stage|intros _ _].
  eapply keeps_bind.
  { instantiate (1 := fun _ => True).
    eapply keeps_bind; [apply table_tick|intros _ _].
    eapply keeps_bind; [apply table_get_state|intros s0 _].
    destruct (on_disk _ _ || wav_made v).
    - eapply keeps_bind; [apply table_quiet; reflexivity|intros _ _].
      eapply keeps_bind; [apply table_emit|intros _ _].
      now apply keeps_ret.
    - eapply keeps_bind; [apply table_emit|intros _ _]. apply keeps_stop. }
  intros decoded _.
  eapply keeps_bind; [apply table_quiet; reflexivity|intros _ _].
  eapply keeps_bind; [apply table_ste_stage|intros _ _].
  eapply keeps_bind; [apply table_dwt_stage|intros _ _].
  eapply keeps_bind; [apply table_tick|intros _ _].
  apply table_quiet; reflexivity.
Qed.

Lemma table_video_loop (videos_dir output_dir : string) (rest : list Video) : forall i,
  keeps (table_inv D) (video_loop videos_dir output_dir i rest) (fun _ => True).
Proof.
  induction rest as [|v rest IH]; intros i; simpl.
  - now apply keeps_ret.
  - eapply keeps_bind.
    { instantiate (1 := fun _ => True). unfold coverage_check.
      eapply keeps_bind; [apply table_tick|intros _ _].
      eapply keeps_bind; [apply table_read_table|intros t _].
      eapply keeps_bind; [apply table_emit|intros _ _].
      now apply keeps_ret. }
    intros covered _. destruct covered; [now apply keeps_ret|].
    eapply keeps_bind; [apply table_process_video|intros _ _].
    apply IH.
Qed.

Lemma table_read_bound (var : Locals -> option string) :
  keeps (table_inv D) (read_bound var) (fun _ => True).
Proof.
  unfold read_bound.
  eapply keeps_bind; [apply table_get_state|intros s _].
  destruct (var (vars s)); [now apply keeps_ret|apply keeps_stop].
Qed.

Lemma table_controller (videos_dir : string) (video_files : list Video) :
  keeps (table_inv D) (video_retrieval_database_construction videos_dir video_files)
        (fun _ => True).
Proof.
  unfold video_retrieval_database_construction, delete_directory, delete_files.
  eapply keeps_bind; [apply table_create_database|intros _ _].
  eapply keeps_bind; [apply table_tick|intros _ _].
  eapply keeps_bind; [apply table_get_state|intros s _].
  eapply keeps_bind.
  { instantiate (1 := fun _ => True).
    destruct (progress_file (world s)) as [text|]; [|now apply keeps_ret].
    unfold load_progress. destruct (json_loads text);
      [now apply keeps_ret|apply keeps_stop]. }
  intros progress _.
  eapply keeps_bind; [apply table_quiet; reflexivity|intros _ _].
  eapply keeps_bind; [apply table_quiet; reflexivity|intros _ _].
  eapply keeps_bind; [apply table_tick|intros _ _].
  eapply keeps_bind; [apply table_quiet; reflexivity|intros _ _].
  eapply keeps_bind; [apply table_video_loop|intros _ _].
  eapply keeps_bind; [apply table_tick|intros _ _].
  eapply keeps_bind; [apply table_read_table|intros t _].
  eapply keeps_bind; [apply table_emit|intros _ _].
  eapply keeps_bind; [apply table_read_bound|intros frame_dir _].
  eapply keeps_bind.
  { instantiate (1 := fun _ => True).
    eapply keeps_bind; [apply table_tick|intros _ _].
    eapply keeps_bind; [apply table_quiet; reflexivity|intros _ _].
    apply table_emit. }
  intros _ _.
  eapply keeps_bind; [apply table_read_bound|intros audio_path _].
  eapply keeps_bind.
  { instantiate (1 := fun _ => True).
    eapply keeps_bind; [apply table_tick|intros _ _].
    eapply keeps_bind; [apply table_quiet; reflexivity|intros _ _].
    apply table_emit. }
  intros _ _.
  eapply keeps_bind; [apply table_get_state|intros s' _].
  now apply keeps_ret.
Qed.

(** Whatever holds of the starting table and is kept by inserts of
    non-empty byte sequences holds of the table a run leaves. *)
Lemma run_keeps_table (w : World) (sig : option (nat * Signal)) (video_files : list Video) :
  D (initial_table w) -> D (final_table (run w sig video_files)).
Proof.
  intros H0. unfold run, final_table.
  pose proof (table_controller "Videos" video_files (boot w sig) H0) as H.
  destruct (video_retrieval_database_construction "Videos" video_files (boot w sig))
    as [[a|why] s']; simpl; [apply H|apply H].
Qed.

End TableInvariant.

(** X9. Records are never updated or deleted.  In every run, whatever the
    corpus and whether or not a signal cuts it short, the table the run
    leaves is the table it started from with rows added at the end, and
    every added row holds a byte sequence that is neither NULL nor
    empty. *)
Theorem run_only_appends_rows :
  forall (w : World) (sig : option (nat * Signal)) (video_files : list Video),
    exists added,
      final_table (run w sig video_files) = initial_table w ++ added
      /\ Forall (fun r => null_or_empty r = false) added.
Proof.
  intros w sig video_files.
  apply (run_keeps_table
           (fun t => exists added, t = initial_table w ++ added
                                   /\ Forall (fun r => null_or_empty r = false) added)).
  - intros t b v f p Hb (added & -> & Hok).
    unfold insert_unique_into_database. destruct (Nat.eqb _ 0).
    + eexists (added ++ [_]). rewrite app_assoc. split; [reflexivity|].
      apply Forall_app. split; [exact Hok|]. constructor; [|constructor].
      unfold null_or_empty. simpl. now apply String.eqb_neq.
    + now exists added.
  - exists []. rewrite app_nil_r. split; [reflexivity|constructor].
Qed.

(** X10. Every run keeps the table deduplicated: started on a table
    without NULL and without two rows of equal byte sequence (or on no
    table at all), a run leaves such a table, however it ends. *)
Theorem run_keeps_table_deduplicated :
  forall (w : World) (sig : option (nat * Signal)) (video_files : list Video),
    deduplicated (initial_table w) ->
    deduplicated (final_table (run w sig video_files)).
Proof.
  intros w sig video_files. apply run_keeps_table.
  intros t b v f p _. apply insert_keeps_deduplicated.
Qed.

Lemma run_keeps_table_deduplicated_witness :
  deduplicated (final_table (run empty_world (Some (28, SIGINT)) two_clips)).
Proof.
  apply (run_keeps_table_deduplicated empty_world (Some (28, SIGINT)) two_clips).
  simpl. apply deduplicated_nil.
Defined.

(** X11. The pipeline never spoils the integrity check: started on a table
    that passes [check_database_integrity] (or on no table), every run,
    complete or cut short, leaves a table that passes it. *)
Theorem run_keeps_integrity :
  forall (w : World) (sig : option (nat * Signal)) (video_files : list Video),
    check_database_integrity (initial_table w) = true ->
    check_database_integrity (final_table (run w sig video_files)) = true.
Proof.
  intros w sig video_files.
  apply (run_keeps_table (fun t => check_database_integrity t = true)).
  intros t b v f p Hb Ht. rewrite integrity_columns in *.
  unfold insert_unique_into_database. destruct (Nat.eqb _ 0); [|exact Ht].
  rewrite map_app. simpl. destruct Ht as [Hn He].
  split; intros Hin; apply in_app_iff in Hin as [Hin|[Hin|[]]]; try contradiction.
  - discriminate.
  - injection Hin as ->. now apply Hb.
Qed.

Lemma run_keeps_integrity_witness :
  check_database_integrity (final_table (run empty_world None two_clips)) = true.
Proof.
  apply (run_keeps_integrity empty_world None two_clips). reflexivity.
Defined.

(** ** Edge behaviour of the controller *)



(** ** What the interrupt handler leaves behind *)

Section StateTriples.

Context {A B : Type}.

Lemma striple_ret (P : State -> Prop) (Q : A -> State -> Prop)
      (E : Stop -> State -> Prop) (a : A) :
  (forall s, P s -> Q a s) -> striple P (ret a) Q E.
Proof. intros H s Hs. simpl. auto. Qed.

Lemma striple_bind (P : State -> Prop) (R : A -> State -> Prop)
      (Q : B -> State -> Prop) (E : Stop -> State -> Prop) (m : M A) (k : A -> M B) :
  striple P m R E -> (forall a, striple (R a) (k a) Q E) -> striple P (bind m k) Q E.
Proof.
  intros Hm Hk s Hs. unfold bind. specialize (Hm s Hs).
  destruct (m s) as [[a|why] s']; [|exact Hm].
  apply (Hk a s' Hm).
Qed.

Lemma striple_weaken (P P' : State -> Prop) (Q Q' : A -> State -> Prop)
      (E : Stop -> State -> Prop) (m : M A) :
  striple P m Q E -> (forall s, P' s -> P s) -> (forall a s, Q a s -> Q' a s) ->
  striple P' m Q' E.
Proof.
  intros Hm HP HQ s Hs. specialize (Hm s (HP _ Hs)).
  destruct (m s) as [[a|why] s']; auto.
Qed.

End StateTriples.

Lemma span_kept (keep : ascii -> bool) (s : string) :
  all_chars keep (fst (span keep s)) = true.
Proof.
  induction s as [|c s IH]; simpl; [reflexivity|].
  destruct (keep c) eqn:Ec; [|reflexivity].
  destruct (span keep s) as [taken left]. simpl in *. now rewrite Ec.
Qed.

Lemma parse_plain_string_plain (s stage rest : string) :
  parse_plain_string s = Some (stage, rest) -> all_chars is_plain stage = true.
Proof.
  unfold parse_plain_string.
  destruct (token dquote s) as [s1|]; [|discriminate].
  pose proof (span_kept is_plain s1) as Hk.
  destruct (span is_plain s1) as [text s2].
  destruct (expect dquote s2); [|discriminate].
  intros H. injection H as <- <-. exact Hk.
Qed.

Lemma parse_members_plain (s rest : string) (p : Progress) :
  parse_members s = Some (p, rest) -> all_chars is_plain (feature_stage p) = true.
Proof.
  unfold parse_members.
  destruct (token _ s) as [s1|]; [|discriminate].
  destruct (token ":" s1) as [s2|]; [|discriminate].
  destruct (parse_nat (skip_spaces s2)) as [[vi s3]|]; [|discriminate].
  destruct (token "," s3) as [s4|]; [|discriminate].
  destruct (token _ s4) as [s5|]; [|discriminate].
  destruct (token ":" s5) as [s6|]; [|discriminate].
  destruct (parse_nat (skip_spaces s6)) as [[fi s7]|]; [|discriminate].
  destruct (token "," s7) as [s8|]; [|discriminate].
  destruct (token _ s8) as [s9|]; [|discriminate].
  destruct (token ":" s9) as [s10|]; [|discriminate].
  destruct (parse_plain_string s10) as [[stage s11]|] eqn:E; [|discriminate].
  intros H. injection H as <- <-. simpl. now apply (parse_plain_string_plain s10 stage s11).
Qed.

(** A stage name read from the progress file holds plain characters only. *)
Lemma json_loads_plain (text : string) (p : Progress) :
  json_loads text = Some p -> all_chars is_plain (feature_stage p) = true.
Proof.
  unfold json_loads.
  destruct (token "{" text) as [s1|]; [|discriminate].
  destruct (parse_members s1) as [[q s2]|] eqn:E; [|discriminate].
  destruct (token "}" s2) as [s3|]; [|discriminate].
  destruct (skip_spaces s3); [|discriminate].
  intros H. injection H as <-. now apply (parse_members_plain s1 s2).
Qed.

Lemma handler_saves_cursor (s : State) :
  plain_stage s ->
  stopped_well (SystemExit 1) (snd (handle_interrupt s))
  /\ fst (handle_interrupt s) = Stopped (SystemExit 1).
Proof.
  intros Hs. split; [|reflexivity].
  intros _. rewrite handle_interrupt_run. cbn [snd].
  unfold left_by_interrupt, checkpoint_of.
  rewrite log_flush_buffer, vars_flush_buffer, buffered_flush_buffer,
    progress_file_flush_buffer.
  cbn [log add_event set_world vars buffered world put_progress_file
       progress_file file_text].
  fold (cursor_of (vars s)).
  split; [eauto|].
  destruct (buffered s) as [b|] eqn:Eb.
  - split; [reflexivity|discriminate].
  - split; [reflexivity|]. intros _. now apply json_roundtrip.
Qed.

Lemma plainly_tick : plainly tick.
Proof.
  intros s Hs. unfold tick.
  destruct (pending s) as [[[|n] [|]]|]; simpl; try exact Hs; try discriminate.
  destruct (handler_installed s); [|discriminate].
  apply (handler_saves_cursor (set_pending None s) Hs).
Qed.

Lemma plainly_modify (f : State -> State) :
  (forall s, var_feature_stage (vars (f s)) = var_feature_stage (vars s)) ->
  plainly (modify f).
Proof. intros Hf s Hs. simpl. unfold plain_stage in *. now rewrite Hf. Qed.

Lemma plainly_assign_stage (stage : string) :
  all_chars is_plain stage = true -> plainly (modify (set_vars (assign_feature_stage stage))).
Proof. intros H s Hs. exact H. Qed.

Lemma plainly_emit (e : Event) : plainly (emit e).
Proof. intros s Hs. exact Hs. Qed.

Lemma plainly_stop {A : Type} (e : PyExc) : @plainly A (stop (Raise e)).
Proof. intros s Hs. simpl. discriminate. Qed.

Lemma plainly_ret {A : Type} (a : A) : plainly (ret a).
Proof. intros s Hs. exact Hs. Qed.

Lemma plainly_lift_exc {A : Type} (r : PyExc + A) : plainly (lift_exc r).
Proof. destruct r; [apply plainly_stop|apply plainly_ret]. Qed.

Lemma plainly_get_state : plainly get_state.
Proof. intros s Hs. exact Hs. Qed.

Lemma plainly_bind {A B : Type} (m : M A) (k : A -> M B) :
  plainly m -> (forall a, plainly (k a)) -> plainly (bind m k).
Proof. intros Hm Hk. eapply striple_bind; [exact Hm|exact Hk]. Qed.

Lemma plainly_read_table : plainly read_table.
Proof.
  unfold read_table. apply plainly_bind; [apply plainly_get_state|intros s].
  destruct (database (world s)); [apply plainly_ret|apply plainly_stop].
Qed.

Lemma plainly_read_bound (var : Locals -> option string) : plainly (read_bound var).
Proof.
  unfold read_bound. apply plainly_bind; [apply plainly_get_state|intros s].
  destruct (var (vars s)); [apply plainly_ret|apply plainly_stop].
Qed.

Lemma plainly_current_stage : plainly current_stage.
Proof.
  unfold current_stage. apply plainly_bind; [apply plainly_get_state|intros s].
  apply plainly_ret.
Qed.

Lemma plainly_close : plainly (modify close_progress_file).
Proof.
  apply plainly_modify. intros s. unfold close_progress_file. simpl.
  now rewrite vars_flush_buffer.
Qed.

Lemma plainly_write_chunks (chunks : list string) : plainly (write_chunks chunks).
Proof.
  induction chunks as [|chunk rest IH]; simpl; [intros s Hs; exact Hs|].
  eapply striple_bind; [apply plainly_tick|intros ?; cbv beta].
  eapply striple_bind; [apply plainly_modify; reflexivity|intros ?; cbv beta].
  exact IH.
Qed.

(** Chains of steps that leave the stage variable alone. *)
Ltac plain_step :=
  first
    [ apply plainly_tick
    | apply plainly_emit
    | apply plainly_get_state
    | apply plainly_read_table
    | apply plainly_read_bound
    | apply plainly_current_stage
    | apply plainly_lift_exc
    | apply plainly_ret
    | apply plainly_assign_stage; reflexivity
    | apply plainly_write_chunks
    | apply plainly_close
    | apply plainly_modify; reflexivity ].

Ltac plain_steps :=
  repeat (apply plainly_bind; [plain_step|intros ?]); try plain_step.

Lemma plainly_save_progress (p : Progress) : plainly (save_progress p).
Proof. unfold save_progress. plain_steps. Qed.

Lemma plainly_store_hash_unit v f p h : plainly (store_hash_unit v f p h).
Proof. unfold store_hash_unit. plain_steps. Qed.

Lemma plainly_sift_loop (i video_id : nat) (rest : list Frame) : forall j,
  plainly (sift_loop i video_id j rest).
Proof.
  induction rest as [|frame rest IH]; intros j; simpl; [apply plainly_ret|].
  plain_steps.
  apply plainly_bind; [apply plainly_store_hash_unit|intros ?].
  apply plainly_bind; [apply plainly_save_progress|intros ?].
  plain_steps. apply IH.
Qed.

Lemma plainly_ste_loop (i video_id : nat) (rest : list string) : forall j,
  plainly (ste_loop i video_id j rest).
Proof.
  induction rest as [|h rest IH]; intros j; simpl; [apply plainly_ret|].
  apply plainly_bind; [apply plainly_store_hash_unit|intros ?].
  apply plainly_bind; [apply plainly_save_progress|intros ?].
  plain_steps. apply IH.
Qed.

Lemma plainly_dwt_loop (i video_id : nat) (rest : list string) : forall j,
  plainly (dwt_loop i video_id j rest).
Proof.
  induction rest as [|h rest IH]; intros j; simpl; [apply plainly_ret|].
  apply plainly_bind; [apply plainly_store_hash_unit|intros ?].
  apply plainly_bind; [apply plainly_save_progress|intros ?].
  plain_steps. apply IH.
Qed.

Lemma plainly_sift_stage (i video_id : nat) (frames : list Frame) :
  plainly (sift_stage i video_id frames).
Proof.
  unfold sift_stage. apply plainly_bind; [apply plainly_current_stage|intros stage].
  destruct (String.eqb stage "SIFT"); [|apply plainly_ret].
  apply plainly_bind; [apply plainly_get_state|intros s].
  apply plainly_bind; [apply plainly_sift_loop|intros ?].
  apply plainly_bind; [apply plainly_save_progress|intros ?].
  plain_steps.
Qed.

Lemma plainly_ste_stage (i video_id : nat) (audio : Audio) :
  plainly (ste_stage i video_id audio).
Proof.
  unfold ste_stage. apply plainly_bind; [apply plainly_current_stage|intros stage].
  destruct (String.eqb stage "STE"); [|apply plainly_ret].
  plain_steps.
  apply plainly_bind; [apply plainly_ste_loop|intros ?].
  apply plainly_bind; [apply plainly_save_progress|intros ?].
  plain_steps.
Qed.

Lemma plainly_dwt_stage (i video_id : nat) (audio : Audio) :
  plainly (dwt_stage i video_id audio).
Proof.
  unfold dwt_stage. apply plainly_bind; [apply plainly_current_stage|intros stage].
  destruct (String.eqb stage "DWT"); [|apply plainly_ret].
  plain_steps.
  apply plainly_bind; [apply plainly_dwt_loop|intros ?].
  apply plainly_bind; [apply plainly_save_progress|intros ?].
  plain_steps.
Qed.

Lemma plainly_extract_audio (videos_dir : string) (v : Video) :
  plainly (extract_audio videos_dir v).
Proof.
  unfold extract_audio.
  apply plainly_bind; [plain_step|intros ?].
  apply plainly_bind; [plain_step|intros s0].
  destruct (on_disk _ _ || wav_made v); plain_steps. apply plainly_stop.
Qed.

Lemma plainly_process_video (videos_dir output_dir : string) (i : nat) (v : Video) :
  plainly (process_video videos_dir output_dir i v).
Proof.
  unfold process_video.
  apply plainly_bind; [unfold extract_frames; plain_steps|intros ?].
  apply plainly_bind; [plain_step|intros ?].
  apply plainly_bind; [apply plainly_sift_stage|intros ?].
  apply plainly_bind; [apply plainly_extract_audio|intros ?].
  apply plainly_bind; [plain_step|intros ?].
  apply plainly_bind; [apply plainly_ste_stage|intros ?].
  apply plainly_bind; [apply plainly_dwt_stage|intros ?].
  plain_steps.
Qed.

Lemma plainly_video_loop (videos_dir output_dir : string) (rest : list Video) : forall i,
  plainly (video_loop videos_dir output_dir i rest).
Proof.
  induction rest as [|v rest IH]; intros i; simpl; [apply plainly_ret|].
  apply plainly_bind; [unfold coverage_check; plain_steps|intros covered].
  destruct covered; [apply plainly_ret|].
  apply plainly_bind; [apply plainly_process_video|intros ?]. apply IH.
Qed.

Lemma plainly_controller (videos_dir : string) (video_files : list Video) :
  plainly (video_retrieval_database_construction videos_dir video_files).
Proof.
  unfold video_retrieval_database_construction.
  apply plainly_bind; [unfold create_database; plain_steps|intros ?].
  apply plainly_bind; [plain_step|intros ?].
  apply plainly_bind; [plain_step|intros s].
  eapply striple_bind.
  { instantiate (1 := fun p s' => plain_stage s'
                                  /\ all_chars is_plain (feature_stage p) = true).
    destruct (progress_file (world s)) as [text|].
    - unfold load_progress. destruct (json_loads text) as [p|] eqn:Ep.
      + apply striple_ret. intros s' Hs'. split; [exact Hs'|].
        now apply (json_loads_plain text).
      + intros s' Hs'. simpl. discriminate.
    - apply striple_ret. intros s' Hs'. now split. }
  intros progress.
  eapply striple_bind.
  { instantiate (1 := fun _ => plain_stage). intros s' [_ Hp]. exact Hp. }
  intros ?.
  apply plainly_bind; [plain_step|intros ?].
  apply plainly_bind; [plain_step|intros ?].
  apply plainly_bind; [plain_step|intros ?].
  apply plainly_bind; [apply plainly_video_loop|intros ?].
  plain_steps.
  apply plainly_bind; [unfold delete_directory; plain_steps|intros ?].
  apply plainly_bind; [plain_step|intros ?].
  apply plainly_bind; [unfold delete_files; plain_steps|intros ?].
  plain_steps.
Qed.

(** X13. What SIGINT leaves.  Whenever a run ends with [exit(1)], the
    last thing logged is the handler's save of the three variables it
    closed over.  The progress file then holds the handler's text, with
    whatever a save that the signal interrupted had buffered written over
    its start when [exit(1)] closed that file; when no save was
    interrupted the file is the handler's text and the next start reads
    the three variables back. *)
Theorem interrupt_leaves_handler_text :
  forall (w : World) (sig : option (nat * Signal)) (video_files : list Video),
    fst (run w sig video_files) = Stopped (SystemExit 1) ->
    (exists older,
        log (snd (run w sig video_files))
        = EvSaveInterrupt (cursor_of (vars (snd (run w sig video_files)))) :: older)
    /\ progress_file (world (snd (run w sig video_files)))
       = Some (left_by_interrupt (snd (run w sig video_files)))
    /\ (buffered (snd (run w sig video_files)) = None ->
        checkpoint_of (world (snd (run w sig video_files)))
        = Some (cursor_of (vars (snd (run w sig video_files))))).
Proof.
  intros w sig video_files. unfold run.
  pose proof (plainly_controller "Videos" video_files (boot w sig) eq_refl) as H.
  destruct (video_retrieval_database_construction "Videos" video_files (boot w sig))
    as [[a|why] s']; simpl; [discriminate|].
  intros Hwhy. injection Hwhy as ->. now apply H.
Qed.

Lemma interrupt_leaves_handler_text_witness :
  progress_file (world (snd (run empty_world (Some (211, SIGINT)) two_clips)))
  = Some (left_by_interrupt (snd (run empty_world (Some (211, SIGINT)) two_clips))).
Proof.
  exact (proj1 (proj2 (interrupt_leaves_handler_text
                         empty_world (Some (211, SIGINT)) two_clips eq_refl))).
Defined.

(** ** Start-up *)

Lemma startup_interrupt (w : World) (video_files : list Video) :
  progress_file w = None \/ checkpoint_of w <> None ->
  fst (run w (Some (3, SIGINT)) video_files) = Stopped (SystemExit 1)
  /\ checkpoint_of (world (snd (run w (Some (3, SIGINT)) video_files)))
     = Some (starting_cursor w)
  /\ database (world (snd (run w (Some (3, SIGINT)) video_files)))
     = Some (initial_table w)
  /\ disk (world (snd (run w (Some (3, SIGINT)) video_files)))
     = create_path "Processed" (disk w).
Proof.
  destruct w as [db pf dk]. unfold checkpoint_of, starting_cursor. simpl.
  intros Hp.
  assert (Hpf : pf = None \/ exists text q, pf = Some text /\ json_loads text = Some q).
  { destruct pf as [text|]; [right|now left].
    destruct (json_loads text) as [q|] eqn:Eq; [now exists text, q|].
    destruct Hp as [Hp|Hp]; [discriminate|congruence]. }
  clear Hp.
  unfold run, final_table, initial_table, boot, video_retrieval_database_construction,
    checkpoint_of.
  destruct Hpf as [->|(text & q & -> & Eq)].
  - destruct db as [t|]; destruct video_files as [|v rest]; cbn [video_loop];
      cbv -[create_path]; repeat split.
  - pose proof (json_roundtrip q (json_loads_plain text q Eq)) as Hrt.
    destruct q as [vi fi st].
    destruct db as [t|]; destruct video_files as [|v rest]; cbn [video_loop];
      cbv -[json_loads json_dumps process_video video_loop create_path];
      rewrite ?Eq;
      cbv -[json_loads json_dumps process_video video_loop create_path];
      rewrite ?Eq, ?Hrt; repeat split.
Qed.



(** X15. [reset_progress] starts over: once the progress file is removed,
    [load_progress] returns [None] and the next run starts from
    (0, 0, SIFT) whatever checkpoint there was: interrupted as soon as the
    handler is installed, that is the cursor it saves.  By then the
    database file exists, with the records it had, and the output
    directory has been added to what was on disk. *)
Theorem reset_progress_starts_over :
  forall (w : World) (video_files : list Video),
    load_progress_file (reset_progress w) = inr None
    /\ reset_progress (reset_progress w) = reset_progress w
    /\ checkpoint_of
         (world (snd (run (reset_progress w) (Some (3, SIGINT)) video_files)))
       = Some default_progress
    /\ database (world (snd (run (reset_progress w) (Some (3, SIGINT)) video_files)))
       = Some (initial_table w)
    /\ disk (world (snd (run (reset_progress w) (Some (3, SIGINT)) video_files)))
       = create_path "Processed" (disk w).
Proof.
  intros w video_files.
  assert (H : progress_file (reset_progress w) = None
              \/ checkpoint_of (reset_progress w) <> None) by (left; reflexivity).
  destruct (startup_interrupt (reset_progress w) video_files H) as (_ & Hc & Ht & Hd).
  repeat split; assumption.
Qed.

(** ** A run that nothing interrupts *)

Lemma bind_done {A B : Type} (m : M A) (k : A -> M B) (s s' : State) (a : A) :
  m s = (Done a, s') -> bind m k s = k a s'.
Proof. intros H. unfold bind. now rewrite H. Qed.

Lemma tick_undisturbed (s : State) : pending s = None -> tick s = (Done tt, s).
Proof. intros H. unfold tick. now rewrite H. Qed.

Lemma store_hash_unit_undisturbed (s : State) (t : Table) v f p h :
  pending s = None -> database (world s) = Some t ->
  store_hash_unit v f p [h] s
  = (Done tt, add_event (EvUpdate v f p h)
                (set_world (put_database (insert_unique_into_database t h v f p)) s)).
Proof.
  intros Hp Hd. unfold store_hash_unit.
  rewrite (bind_done _ _ _ _ _ (tick_undisturbed s Hp)).
  unfold read_table, bind, get_state. rewrite Hd. reflexivity.
Qed.

Lemma insert_all_app (a b : list InsertCall) (t : Table) :
  insert_all (a ++ b) t = insert_all b (insert_all a t).
Proof. unfold insert_all. apply fold_left_app. Qed.

Lemma sift_loop_undisturbed (i video_id : nat) (frames : list Frame) :
  forall (hs : list string) (j : nat) (s : State) (t : Table),
    sift_each frames = inr hs ->
    pending s = None -> database (world s) = Some t ->
    exists s',
      sift_loop i video_id j frames s = (Done tt, s')
      /\ pending s' = None
      /\ database (world s') = Some (insert_all (numbered video_id "SIFT" j hs) t)
      /\ vars s' = match frames with
                   | [] => vars s
                   | _ :: _ => assign_frame_index (j + List.length frames) (vars s)
                   end
      /\ disk (world s') = disk (world s).
Proof.
  induction frames as [|frame rest IH]; intros hs j s t Hhs Hp Hd.
  - injection Hhs as <-. exists s. simpl. repeat split; assumption.
  - simpl in Hhs.
    destruct (calculate_sift_descriptors frame) as [|h] eqn:Eh; [discriminate|].
    destruct (sift_each rest) as [|hs'] eqn:Ers; [discriminate|].
    injection Hhs as <-.
    cbn [sift_loop].
    rewrite (bind_done _ _ _ _ _ (tick_undisturbed s Hp)).
    rewrite Eh. cbn [lift_exc]. unfold bind at 1. cbn [ret].
    rewrite (bind_done _ _ _ _ _ (store_hash_unit_undisturbed s t _ _ _ _ Hp Hd)).
    erewrite bind_done by (apply save_progress_complete; exact Hp).
    unfold bind at 1. cbn [emit modify].
    erewrite bind_done by (apply tick_undisturbed; exact Hp).
    unfold bind at 1. cbn [modify].
    match goal with |- exists s', sift_loop _ _ _ _ ?s1 = _ /\ _ =>
      destruct (IH hs' (S j) s1
                   (insert_unique_into_database t h video_id "SIFT" j)
                   eq_refl Hp eq_refl) as (s' & Hrun & Hp' & Hd' & Hv' & Hk')
    end.
    exists s'. split; [exact Hrun|]. split; [exact Hp'|].
    split; [rewrite Hd'; reflexivity|]. split; [|exact Hk'].
    rewrite Hv'. simpl vars.
    destruct rest as [|frame' rest']; simpl List.length.
    + now rewrite Nat.add_1_r.
    + unfold assign_frame_index. simpl. f_equal. lia.
Qed.

Lemma ste_loop_undisturbed (i video_id : nat) (hs : list string) :
  forall (j : nat) (s : State) (t : Table),
    pending s = None -> database (world s) = Some t ->
    exists s',
      ste_loop i video_id j hs s = (Done tt, s')
      /\ pending s' = None
      /\ database (world s') = Some (insert_all (numbered video_id "STE" j hs) t)
      /\ vars s' = vars s
      /\ disk (world s') = disk (world s).
Proof.
  induction hs as [|h rest IH]; intros j s t Hp Hd.
  - exists s. simpl. repeat split; assumption.
  - cbn [ste_loop].
    rewrite (bind_done _ _ _ _ _ (store_hash_unit_undisturbed s t _ _ _ _ Hp Hd)).
    erewrite bind_done by (apply save_progress_complete; exact Hp).
    unfold bind at 1. cbn [emit modify].
    match goal with |- exists s', ste_loop _ _ _ _ ?s1 = _ /\ _ =>
      destruct (IH (S j) s1 (insert_unique_into_database t h video_id "STE" j)
                   Hp eq_refl) as (s' & Hrun & Hp' & Hd' & Hv' & Hk')
    end.
    exists s'. repeat split; assumption.
Qed.

Lemma dwt_loop_undisturbed (i video_id : nat) (hs : list string) :
  forall (j : nat) (s : State) (t : Table),
    pending s = None -> database (world s) = Some t ->
    exists s',
      dwt_loop i video_id j hs s = (Done tt, s')
      /\ pending s' = None
      /\ database (world s') = Some (insert_all (numbered video_id "DWT" j hs) t)
      /\ vars s' = vars s
      /\ disk (world s') = disk (world s).
Proof.
  induction hs as [|h rest IH]; intros j s t Hp Hd.
  - exists s. simpl. repeat split; assumption.
  - cbn [dwt_loop].
    rewrite (bind_done _ _ _ _ _ (store_hash_unit_undisturbed s t _ _ _ _ Hp Hd)).
    erewrite bind_done by (apply save_progress_complete; exact Hp).
    unfold bind at 1. cbn [emit modify].
    match goal with |- exists s', dwt_loop _ _ _ _ ?s1 = _ /\ _ =>
      destruct (IH (S j) s1 (insert_unique_into_database t h video_id "DWT" j)
                   Hp eq_refl) as (s' & Hrun & Hp' & Hd' & Hv' & Hk')
    end.
    exists s'. repeat split; assumption.
Qed.

Lemma sift_each_skipn (frames : list Frame) :
  forall (n : nat) (hs : list string),
    sift_each frames = inr hs -> sift_each (skipn n frames) = inr (skipn n hs).
Proof.
  induction frames as [|frame rest IH]; intros n hs H.
  - injection H as <-. now destruct n.
  - simpl in H.
    destruct (calculate_sift_descriptors frame) as [|h] eqn:Eh; [discriminate|].
    destruct (sift_each rest) as [|hs'] eqn:Ers; [discriminate|].
    injection H as <-. destruct n as [|n]; simpl.
    + now rewrite Eh, Ers.
    + now apply IH.
Qed.

Ltac run_step :=
  first
    [ erewrite bind_done by (apply save_progress_complete; simpl; eassumption)
    | erewrite bind_done by (apply tick_undisturbed; simpl; eassumption)
    | unfold bind at 1; cbn [emit modify ret get_state] ].

Lemma skipn_reaches_end (f : nat) (v : Video) :
  match skipn f (frames v) with
  | [] => f
  | _ :: _ => f + List.length (skipn f (frames v))
  end = frame_index_after f v.
Proof.
  unfold frame_index_after.
  pose proof (length_skipn f (frames v)) as Hl.
  destruct (skipn f (frames v)) as [|x l]; [reflexivity|].
  simpl in *. lia.
Qed.

Lemma sift_stage_undisturbed (i video_id : nat) (v : Video) (hs : list string)
    (s : State) (t : Table) :
  pending s = None -> database (world s) = Some t ->
  sift_each (skipn (var_frame_index (vars s)) (frames v)) = inr hs ->
  exists s',
    sift_stage i video_id (frames v) s = (Done tt, s')
    /\ pending s' = None
    /\ database (world s')
       = Some (if runs_sift (var_feature_stage (vars s))
               then insert_all (numbered video_id "SIFT" (var_frame_index (vars s)) hs) t
               else t)
    /\ moved_to (if runs_sift (var_feature_stage (vars s))
                 then "STE" else var_feature_stage (vars s))
                (frame_index_from (var_feature_stage (vars s)) (var_frame_index (vars s)) v)
                (vars s) (vars s')
    /\ disk (world s') = disk (world s)
    /\ progress_file (world s')
       = if runs_sift (var_feature_stage (vars s))
         then Some (json_dumps {| video_index := i; frame_index := 0;
                                  feature_stage := "STE" |})
         else progress_file (world s).
Proof.
  intros Hp Hd Hhs.
  unfold sift_stage, current_stage, frame_index_from, runs_sift.
  unfold bind at 1. unfold bind at 1. cbn [get_state ret].
  destruct (String.eqb (var_feature_stage (vars s)) "SIFT") eqn:E.
  - destruct (sift_loop_undisturbed i video_id _ hs (var_frame_index (vars s)) s t Hhs Hp Hd)
      as (s1 & Hrun & Hp1 & Hd1 & Hv1 & Hk1).
    unfold bind at 1. cbn [get_state].
    rewrite (bind_done _ _ _ _ _ Hrun).
    do 3 run_step. cbn [modify].
    eexists. split; [reflexivity|]. simpl.
    split; [exact Hp1|]. split; [exact Hd1|]. split; [|split; [exact Hk1|reflexivity]].
    unfold moved_to. simpl. rewrite Hv1, <- skipn_reaches_end.
    destruct (skipn (var_frame_index (vars s)) (frames v)); repeat split.
  - exists s. unfold moved_to. repeat split; assumption.
Qed.

Lemma ste_stage_undisturbed (i video_id : nat) (a : Audio) (hs : list string)
    (s : State) (t : Table) :
  pending s = None -> database (world s) = Some t ->
  calculate_ste_hash a = inr hs ->
  exists s',
    ste_stage i video_id a s = (Done tt, s')
    /\ pending s' = None
    /\ database (world s')
       = Some (if String.eqb (var_feature_stage (vars s)) "STE"
               then insert_all (numbered video_id "STE" 0 hs) t
               else t)
    /\ moved_to (if String.eqb (var_feature_stage (vars s)) "STE"
                 then "DWT" else var_feature_stage (vars s))
                (var_frame_index (vars s)) (vars s) (vars s')
    /\ disk (world s') = disk (world s)
    /\ progress_file (world s')
       = if String.eqb (var_feature_stage (vars s)) "STE"
         then Some (json_dumps {| video_index := i; frame_index := 0;
                                  feature_stage := "DWT" |})
         else progress_file (world s).
Proof.
  intros Hp Hd Hhs.
  unfold ste_stage, current_stage.
  unfold bind at 1. unfold bind at 1. cbn [get_state ret].
  destruct (String.eqb (var_feature_stage (vars s)) "STE") eqn:E.
  - run_step. rewrite Hhs. cbn [lift_exc]. unfold bind at 1. cbn [ret].
    destruct (ste_loop_undisturbed i video_id hs 0 s t Hp Hd)
      as (s1 & Hrun & Hp1 & Hd1 & Hv1 & Hk1).
    rewrite (bind_done _ _ _ _ _ Hrun).
    do 3 run_step. cbn [modify].
    eexists. split; [reflexivity|]. simpl.
    split; [exact Hp1|]. split; [exact Hd1|]. split; [|split; [exact Hk1|reflexivity]].
    unfold moved_to. simpl. rewrite Hv1. repeat split.
  - exists s. unfold moved_to. repeat split; assumption.
Qed.

Lemma dwt_stage_undisturbed (i video_id : nat) (a : Audio) (hs : list string)
    (s : State) (t : Table) :
  pending s = None -> database (world s) = Some t ->
  calculate_dwt_hash a = inr hs ->
  exists s',
    dwt_stage i video_id a s = (Done tt, s')
    /\ pending s' = None
    /\ database (world s')
       = Some (if String.eqb (var_feature_stage (vars s)) "DWT"
               then insert_all (numbered video_id "DWT" 0 hs) t
               else t)
    /\ moved_to (if String.eqb (var_feature_stage (vars s)) "DWT"
                 then "SIFT" else var_feature_stage (vars s))
                (var_frame_index (vars s)) (vars s) (vars s')
    /\ disk (world s') = disk (world s)
    /\ progress_file (world s')
       = if String.eqb (var_feature_stage (vars s)) "DWT"
         then Some (json_dumps {| video_index := i + 1; frame_index := 0;
                                  feature_stage := "SIFT" |})
         else progress_file (world s).
Proof.
  intros Hp Hd Hhs.
  unfold dwt_stage, current_stage.
  unfold bind at 1. unfold bind at 1. cbn [get_state ret].
  destruct (String.eqb (var_feature_stage (vars s)) "DWT") eqn:E.
  - run_step. rewrite Hhs. cbn [lift_exc]. unfold bind at 1. cbn [ret].
    destruct (dwt_loop_undisturbed i video_id hs 0 s t Hp Hd)
      as (s1 & Hrun & Hp1 & Hd1 & Hv1 & Hk1).
    rewrite (bind_done _ _ _ _ _ Hrun).
    do 3 run_step. cbn [modify].
    eexists. split; [reflexivity|]. simpl.
    split; [exact Hp1|]. split; [exact Hd1|]. split; [|split; [exact Hk1|reflexivity]].
    unfold moved_to. simpl. rewrite Hv1. repeat split.
  - exists s. unfold moved_to. repeat split; assumption.
Qed.

Lemma extract_frames_undisturbed (videos_dir output_dir : string) (v : Video) (s : State) :
  pending s = None ->
  extract_frames videos_dir output_dir v s
  = (Done (frames v, frame_dir_of output_dir v),
     add_event (EvExtractFrames (video_path_of videos_dir v))
       (set_world
          (fun w => put_disk (write_frames (frame_dir_of output_dir v) v (disk w)) w) s)).
Proof.
  intros Hp. unfold extract_frames. run_step. do 2 run_step. reflexivity.
Qed.

Lemma extract_audio_undisturbed (videos_dir : string) (v : Video) (s : State) :
  pending s = None ->
  wav_made v = true ->
  extract_audio videos_dir v s
  = (Done (audio v, audio_path_of videos_dir v),
     add_event (EvExtractAudio (video_path_of videos_dir v))
       (set_world (fun w => put_disk (create_path (audio_path_of videos_dir v) (disk w)) w) s)).
Proof.
  intros Hp Hw. unfold extract_audio. run_step. run_step.
  rewrite Hw, Bool.orb_true_r. do 2 run_step. reflexivity.
Qed.

Lemma process_video_undisturbed (videos_dir output_dir : string) (i : nat) (v : Video)
    (s : State) (t : Table) :
  pending s = None -> database (world s) = Some t ->
  hashable v = true ->
  exists s',
    process_video videos_dir output_dir i v s = (Done tt, s')
    /\ pending s' = None
    /\ database (world s')
       = Some (insert_all (video_calls (var_feature_stage (vars s))
                                       (var_frame_index (vars s)) i v) t)
    /\ var_feature_stage (vars s') = stage_after (var_feature_stage (vars s))
    /\ var_frame_index (vars s')
       = frame_index_from (var_feature_stage (vars s)) (var_frame_index (vars s)) v
    /\ var_carrier_videos (vars s')
       = var_carrier_videos (vars s) ++ [video_path_of videos_dir v]
    /\ var_frame_dir (vars s') = Some (frame_dir_of output_dir v)
    /\ var_audio_path (vars s') = Some (audio_path_of videos_dir v)
    /\ progress_file (world s')
       = (if runs_dwt (var_feature_stage (vars s))
          then Some (json_dumps {| video_index := i + 1; frame_index := 0;
                                   feature_stage := "SIFT" |})
          else progress_file (world s))
    /\ disk (world s')
       = create_path (audio_path_of videos_dir v)
           (write_frames (frame_dir_of output_dir v) v (disk (world s))).
Proof.
  intros Hp Hd Hh.
  unfold hashable in Hh.
  apply andb_prop in Hh as [Hh Hdwt]. apply andb_prop in Hh as [Hh Hste].
  apply andb_prop in Hh as [Hwav Hsift].
  destruct (sift_each (frames v)) as [|hs0] eqn:E0; [discriminate|].
  pose proof (sift_each_skipn _ (var_frame_index (vars s)) _ E0) as Es.
  destruct (calculate_ste_hash (audio v)) as [|hs1] eqn:E1; [discriminate|].
  destruct (calculate_dwt_hash (audio v)) as [|hs2] eqn:E2; [discriminate|].
  unfold video_calls. rewrite Es, E1, E2. cbn [forced].
  unfold process_video.
  rewrite (bind_done _ _ _ _ _ (extract_frames_undisturbed _ _ _ _ Hp)).
  run_step. cbn [fst snd].
  match goal with |- exists s', bind (sift_stage _ _ _) _ ?s0 = _ /\ _ =>
    destruct (sift_stage_undisturbed i (i + 1) v
                (skipn (var_frame_index (vars s)) hs0) s0 t Hp Hd Es)
      as (s1 & R1 & P1 & D1 & (S1 & I1 & C1 & FD1 & AP1) & K1 & F1)
  end.
  rewrite (bind_done _ _ _ _ _ R1). simpl in D1, S1, I1, C1, FD1, AP1, K1, F1.
  rewrite (bind_done _ _ _ _ _ (extract_audio_undisturbed _ _ _ P1 Hwav)).
  run_step. cbn [fst snd].
  match goal with |- exists s', bind (ste_stage _ _ _) _ ?s2 = _ /\ _ =>
    destruct (ste_stage_undisturbed i (i + 1) (audio v) hs1 s2 _ P1 D1 E1)
      as (s3 & R3 & P3 & D3 & (S3 & I3 & C3 & FD3 & AP3) & K3 & F3)
  end.
  rewrite (bind_done _ _ _ _ _ R3). simpl in D3, S3, I3, C3, FD3, AP3, K3, F3.
  destruct (dwt_stage_undisturbed i (i + 1) (audio v) hs2 s3 _ P3 D3 E2)
    as (s4 & R4 & P4 & D4 & (S4 & I4 & C4 & FD4 & AP4) & K4 & F4).
  rewrite (bind_done _ _ _ _ _ R4).
  run_step. cbn [modify].
  eexists. split; [reflexivity|]. simpl.
  split; [exact P4|].
  rewrite D4, S4, I4, C4, FD4, AP4, K4, F4, S3, I3, C3, FD3, AP3, K3, F3,
    S1, I1, C1, FD1, K1, F1.
  unfold stage_after, frame_index_from, runs_sift, runs_ste, runs_dwt.
  destruct (String.eqb (var_feature_stage (vars s)) "SIFT") eqn:B1; simpl.
  { rewrite !insert_all_app. repeat split. }
  destruct (String.eqb (var_feature_stage (vars s)) "STE") eqn:B2; simpl.
  { rewrite !insert_all_app. repeat split. }
  destruct (String.eqb (var_feature_stage (vars s)) "DWT") eqn:B3; simpl.
  { repeat split. }
  repeat split.
Qed.

Lemma coverage_check_undisturbed (s : State) (t : Table) :
  pending s = None -> database (world s) = Some t ->
  coverage_check s
  = (Done (check_all_hash_sequences_generated t),
     add_event (EvCoverage (distinct_hash_count t)) s).
Proof.
  intros Hp Hd. unfold coverage_check. run_step.
  unfold read_table, bind, get_state. rewrite Hd. reflexivity.
Qed.

Lemma nodup_length_app (a b : list string) :
  List.length (nodup string_dec a) <= List.length (nodup string_dec (a ++ b)).
Proof.
  apply NoDup_incl_length; [apply NoDup_nodup|].
  intros x Hx. apply nodup_In. apply nodup_In in Hx. apply in_or_app. now left.
Qed.

Lemma insert_count_grows (t : Table) b v f p :
  distinct_hash_count t <= distinct_hash_count (insert_unique_into_database t b v f p).
Proof.
  unfold insert_unique_into_database. destruct (Nat.eqb _ 0); [|lia].
  unfold distinct_hash_count. rewrite byte_sequences_app. apply nodup_length_app.
Qed.

Lemma insert_all_count_grows (calls : list InsertCall) : forall t : Table,
  distinct_hash_count t <= distinct_hash_count (insert_all calls t).
Proof.
  unfold insert_all.
  induction calls as [|[[[b v] f] p] calls IH]; intros t; simpl; [lia|].
  etransitivity; [apply (insert_count_grows t b v f p)|apply IH].
Qed.

Lemma not_covered_yet (t : Table) (done rest : list InsertCall) :
  distinct_hash_count (insert_all (done ++ rest) t) < 256 ->
  check_all_hash_sequences_generated (insert_all done t) = false.
Proof.
  intros H. unfold check_all_hash_sequences_generated.
  rewrite insert_all_app in H.
  pose proof (insert_all_count_grows rest (insert_all done t)).
  apply Nat.eqb_neq. lia.
Qed.

Lemma stage_after_runs (stage : string) :
  runs_dwt stage = true -> runs_dwt (stage_after stage) = true.
Proof. intros H. unfold stage_after. now rewrite H. Qed.

Lemma stage_after_idle (stage : string) :
  runs_dwt stage = false -> stage_after stage = stage.
Proof. intros H. unfold stage_after. now rewrite H. Qed.

Lemma video_loop_undisturbed (videos_dir output_dir : string) (t : Table)
    (videos : list Video) :
  forall (i : nat) (done : list InsertCall) (s : State),
    pending s = None -> database (world s) = Some (insert_all done t) ->
    forallb hashable videos = true ->
    distinct_hash_count
      (insert_all (done ++ planned_calls (var_feature_stage (vars s))
                                         (var_frame_index (vars s)) i videos) t) < 256 ->
    exists s',
      video_loop videos_dir output_dir i videos s = (Done tt, s')
      /\ pending s' = None
      /\ database (world s')
         = Some (insert_all (done ++ planned_calls (var_feature_stage (vars s))
                                                   (var_frame_index (vars s)) i videos) t)
      /\ var_carrier_videos (vars s')
         = var_carrier_videos (vars s) ++ map (video_path_of videos_dir) videos
      /\ var_frame_dir (vars s')
         = fold_left (fun _ v => Some (frame_dir_of output_dir v)) videos
                     (var_frame_dir (vars s))
      /\ var_audio_path (vars s')
         = fold_left (fun _ v => Some (audio_path_of videos_dir v)) videos
                     (var_audio_path (vars s))
      /\ disk (world s') = decoded videos_dir output_dir videos (disk (world s))
      /\ (videos <> [] ->
          progress_file (world s')
          = if runs_dwt (var_feature_stage (vars s))
            then Some (json_dumps {| video_index := i + List.length videos;
                                     frame_index := 0; feature_stage := "SIFT" |})
            else progress_file (world s)).
Proof.
  induction videos as [|v rest IH]; intros i done s Hp Hd Hh Hlt.
  - exists s. simpl. rewrite !app_nil_r.
    split; [reflexivity|]. split; [assumption|]. split; [assumption|].
    do 4 (split; [reflexivity|]). intros H. now destruct H.
  - cbn [forallb] in Hh. apply andb_prop in Hh as [Hv Hrest].
    cbn [planned_calls] in Hlt |- *.
    cbn [video_loop].
    rewrite (bind_done _ _ _ _ _ (coverage_check_undisturbed s _ Hp Hd)).
    rewrite (not_covered_yet _ _ _ Hlt).
    match goal with |- exists s', bind (process_video _ _ _ _) _ ?s0 = _ /\ _ =>
      destruct (process_video_undisturbed videos_dir output_dir i v s0
                  (insert_all done t) Hp Hd Hv)
        as (s1 & R1 & P1 & D1 & S1 & F1 & C1 & FD1 & AP1 & PF1 & K1)
    end.
    rewrite (bind_done _ _ _ _ _ R1).
    simpl in D1, S1, F1, C1, PF1, K1.
    rewrite <- insert_all_app in D1.
    rewrite app_assoc in Hlt |- *.
    rewrite <- S1, <- F1 in Hlt |- *.
    destruct (IH (S i) _ s1 P1 D1 Hrest Hlt)
      as (s' & R & P & D & C & FD & AP & K & PF).
    exists s'. split; [exact R|]. split; [exact P|]. split; [exact D|]. split.
    { rewrite C, C1. simpl. now rewrite <- app_assoc. }
    split; [rewrite FD, FD1; reflexivity|].
    split; [rewrite AP, AP1; reflexivity|].
    split; [rewrite K, K1; reflexivity|].
    intros _. destruct rest as [|v' rest'].
    { simpl in R. injection R as <-. rewrite PF1. reflexivity. }
    rewrite PF by discriminate. rewrite PF1, S1.
    destruct (runs_dwt (var_feature_stage (vars s))) eqn:B.
    + rewrite (stage_after_runs _ B). do 3 f_equal. simpl. lia.
    + rewrite (stage_after_idle _ B), B. reflexivity.
Qed.

Lemma read_bound_undisturbed (var : Locals -> option string) (path : string) (s : State) :
  var (vars s) = Some path -> read_bound var s = (Done path, s).
Proof. intros H. unfold read_bound, bind, get_state. now rewrite H. Qed.

Lemma delete_directory_undisturbed (path : string) (s : State) :
  pending s = None ->
  exists s',
    delete_directory path s = (Done tt, s')
    /\ pending s' = None /\ vars s' = vars s
    /\ database (world s') = database (world s)
    /\ progress_file (world s') = progress_file (world s)
    /\ disk (world s') = remove_directory path (disk (world s)).
Proof.
  intros Hp. unfold delete_directory. run_step. run_step. cbn [emit modify].
  eexists. split; [reflexivity|]. simpl. repeat split; assumption.
Qed.

Lemma delete_files_undisturbed (paths : list string) (s : State) :
  pending s = None ->
  exists s',
    delete_files paths s = (Done tt, s')
    /\ pending s' = None /\ vars s' = vars s
    /\ database (world s') = database (world s)
    /\ progress_file (world s') = progress_file (world s)
    /\ disk (world s') = fold_left (fun d p => remove_path p d) paths (disk (world s)).
Proof.
  intros Hp. unfold delete_files. run_step. run_step. cbn [emit modify].
  eexists. split; [reflexivity|]. simpl. repeat split; assumption.
Qed.

Lemma create_database_undisturbed (s : State) :
  pending s = None ->
  create_database s
  = (Done tt, set_world (fun w => match database w with
                                  | Some _ => w
                                  | None => put_database [] w
                                  end) s).
Proof. intros Hp. unfold create_database. run_step. reflexivity. Qed.

Lemma load_or_default (w : World) :
  progress_file w = None \/ checkpoint_of w <> None ->
  match progress_file w with
  | Some text => load_progress text
  | None => ret default_progress
  end = ret (starting_cursor w).
Proof.
  unfold starting_cursor, checkpoint_of, load_progress. intros [H|H].
  - now rewrite H.
  - destruct (progress_file w) as [text|]; [|reflexivity].
    destruct (json_loads text); [reflexivity|contradiction].
Qed.

Lemma undisturbed_run_state (w : World) (before : list Video) (final_video : Video) :
  progress_file w = None \/ checkpoint_of w <> None ->
  forallb hashable (before ++ [final_video]) = true ->
  distinct_hash_count
    (insert_all (planned_calls (feature_stage (starting_cursor w))
                               (frame_index (starting_cursor w)) 0
                               (before ++ [final_video]))
                (initial_table w)) < 256 ->
  exists s',
    run w None (before ++ [final_video])
    = (Done (map (video_path_of "Videos") (before ++ [final_video])), s')
    /\ database (world s')
       = Some (insert_all (planned_calls (feature_stage (starting_cursor w))
                                         (frame_index (starting_cursor w)) 0
                                         (before ++ [final_video]))
                          (initial_table w))
    /\ progress_file (world s')
       = (if runs_dwt (feature_stage (starting_cursor w))
          then Some (json_dumps {| video_index := List.length (before ++ [final_video]);
                                   frame_index := 0; feature_stage := "SIFT" |})
          else progress_file w)
    /\ disk (world s')
       = remove_path (audio_path_of "Videos" final_video)
           (remove_directory (frame_dir_of "Processed" final_video)
              (decoded "Videos" "Processed" (before ++ [final_video])
                       (create_path "Processed" (disk w)))).
Proof.
  intros Hstart Hh Hlt.
  pose proof (load_or_default w Hstart) as Hload.
  unfold run, video_retrieval_database_construction.
  assert (Hp0 : pending (boot w None) = None) by reflexivity.
  rewrite (bind_done _ _ _ _ _ (create_database_undisturbed _ Hp0)).
  run_step.
  unfold bind at 1. cbn [get_state].
  match goal with |- context [progress_file (world ?sA)] =>
    assert (Hsame : progress_file (world sA) = progress_file w
                    /\ disk (world sA) = disk w
                    /\ database (world sA) = Some (initial_table w))
      by (unfold initial_table; simpl; destruct (database w) eqn:E; simpl;
          rewrite ?E; repeat split)
  end.
  destruct Hsame as (Hpf & Hdk & Hdb).
  rewrite Hpf, Hload.
  run_step. run_step. run_step. run_step. run_step.
  match goal with |- context [bind (video_loop ?vd ?od 0 ?vs) ?k ?s0] =>
    destruct (video_loop_undisturbed vd od (initial_table w) vs 0 [] s0)
      as (s1 & R1 & P1 & D1 & C1 & FD & AP & K & Last);
      [ reflexivity | exact Hdb | exact Hh | exact Hlt | ];
    rewrite (bind_done _ _ _ _ _ R1)
  end.
  assert (HP := Last ltac:(now destruct before)). clear Last.
  rewrite fold_left_app in FD, AP.
  cbn [world vars disk progress_file database set_world set_vars set_handler
       put_disk assign_progress var_feature_stage var_frame_index
       var_carrier_videos var_frame_dir var_audio_path fold_left]
    in D1, C1, HP, FD, AP, K.
  cbn [world boot set_world] in Hdk, Hpf, K, HP.
  rewrite Hdk in K. rewrite Hpf in HP.
  run_step.
  unfold read_table. unfold bind at 1. unfold bind at 1. cbn [get_state]. rewrite D1.
  cbn [ret]. run_step.
  erewrite bind_done by (apply read_bound_undisturbed; simpl; exact FD).
  match goal with |- context [bind (delete_directory ?p) ?k ?s2] =>
    destruct (delete_directory_undisturbed p s2 P1)
      as (s3 & R3 & P3 & V3 & D3 & F3 & K3);
    rewrite (bind_done _ _ _ _ _ R3)
  end.
  simpl in V3, D3, F3, K3.
  erewrite bind_done by (apply read_bound_undisturbed; rewrite V3; exact AP).
  match goal with |- context [bind (delete_files ?ps) ?k s3] =>
    destruct (delete_files_undisturbed ps s3 P3)
      as (s4 & R4 & P4 & V4 & D4 & F4 & K4);
    rewrite (bind_done _ _ _ _ _ R4)
  end.
  simpl in K4.
  unfold bind, get_state, ret.
  exists s4. rewrite V4, V3, C1, D4, D3, D1, F4, F3, HP, K4, K3, K.
  repeat split; reflexivity.
Qed.

Lemma idle_stage_plans_nothing (stage : string) (videos : list Video) :
  runs_dwt stage = false -> forall f i, planned_calls stage f i videos = [].
Proof.
  intros H. induction videos as [|v rest IH]; intros f i; simpl; [reflexivity|].
  rewrite (stage_after_idle _ H), IH. unfold video_calls. rewrite H.
  unfold runs_dwt in H. unfold runs_sift, runs_ste.
  destruct (String.eqb stage "SIFT"); [discriminate|].
  destruct (String.eqb stage "STE"); [discriminate|]. reflexivity.
Qed.

(** X16.  What a run that nothing interrupts does, from any starting
    point.  The progress file is absent or parses; the cursor the run
    starts from is (k, f, stage); there is at least one video; ffmpeg
    writes the audio file of each video and no hash function raises on
    any (in particular no video has an empty wavelet signal, which
    [pywt.dwt] refuses); the planned calls do not take the table to 256
    different byte sequences.  Then the script returns every video path in
    listing order, and the table is the starting table after the planned
    calls of [update_retrieval_database]: the loop starts at the first
    video whatever k is, the first video is entered at [stage], SIFT
    positions start at the running [frame_index] and STE and DWT positions
    at 0.  When [stage] is one of the three names the progress file ends as
    the cursor (number of videos, 0, SIFT); with any other name nothing is
    stored and the progress file is left as it was. *)
Theorem undisturbed_run_stores_planned_calls (w : World) (video_files : list Video)
    (k f : nat) (stage : string) :
  progress_file w = None \/ checkpoint_of w <> None ->
  starting_cursor w = {| video_index := k; frame_index := f; feature_stage := stage |} ->
  video_files <> [] ->
  forallb hashable video_files = true ->
  distinct_hash_count
    (insert_all (planned_calls stage f 0 video_files) (initial_table w)) < 256 ->
  fst (run w None video_files) = Done (map (video_path_of "Videos") video_files)
  /\ final_table (run w None video_files)
     = insert_all (planned_calls stage f 0 video_files) (initial_table w)
  /\ (runs_dwt stage = true ->
      checkpoint_of (world (snd (run w None video_files)))
      = Some {| video_index := List.length video_files; frame_index := 0;
                feature_stage := "SIFT" |})
  /\ (runs_dwt stage = false ->
      final_table (run w None video_files) = initial_table w
      /\ progress_file (world (snd (run w None video_files))) = progress_file w).
Proof.
  intros Hstart Hc Hne Hh Hlt.
  destruct (exists_last Hne) as (before & final_video & ->).
  destruct (undisturbed_run_state w before final_video Hstart Hh) as (s' & R & D & F & _).
  { rewrite Hc. exact Hlt. }
  rewrite Hc in D, F. simpl in D, F.
  rewrite R. unfold final_table, checkpoint_of. cbn [fst snd]. rewrite D, F.
  split; [reflexivity|]. split; [reflexivity|]. split.
  - intros ->. apply json_roundtrip. reflexivity.
  - intros B. rewrite B, (idle_stage_plans_nothing _ _ B). now split.
Qed.

Lemma undisturbed_run_stores_planned_calls_witness :
  fst (run (world (snd (run empty_world (Some (93, SIGKILL)) two_clips))) None two_clips)
  = Done (map (video_path_of "Videos") two_clips).
Proof.
  apply (undisturbed_run_stores_planned_calls
           (world (snd (run empty_world (Some (93, SIGKILL)) two_clips)))
           two_clips 0 1 "STE").
  - right. vm_compute. discriminate.
  - vm_compute. reflexivity.
  - discriminate.
  - vm_compute. reflexivity.
  - vm_compute. lia.
Defined.

(** ** What an uninterrupted run leaves on disk *)























Lemma audio_path_outside (v v' : Video) :
  under (frame_dir_of "Processed" v') (audio_path_of "Videos" v) = false.
Proof. reflexivity. Qed.




(** ** The stored [video_index] decides nothing *)

Ltac alike_tac :=
  match goal with
  | H : alike _ _ |- _ =>
      unfold alike in H |- *; simpl in H |- *;
      decompose [and] H; clear H; repeat split; simpl; congruence
  end.

Lemma agrees_on_bind {A B : Type} (R R' R'' : State -> State -> Prop)
    (m : M A) (k : A -> M B) :
  agrees_on R R' m -> (forall a, agrees_on R' R'' (k a)) -> agrees_on R R'' (bind m k).
Proof.
  intros Hm Hk s s' HR. destruct (Hm s s' HR) as [E1 E2]. unfold bind.
  destruct (m s) as [[a|why] s1], (m s') as [[a'|why'] s1']; simpl in *; try discriminate.
  - injection E1 as <-. now apply Hk.
  - injection E1 as <-. split; [reflexivity|exact E2].
Qed.

Lemma agrees_ret {A : Type} (R : State -> State -> Prop) (a : A) : agrees_on R R (ret a).
Proof. intros s s' H. simpl. now split. Qed.

Lemma agrees_stop {A : Type} (R : State -> State -> Prop) (why : Stop) :
  agrees_on alike R (stop (A := A) why).
Proof. intros s s' H. simpl. now split. Qed.

Lemma agrees_modify (f : State -> State) :
  (forall s s', alike s s' -> alike (f s) (f s')) -> agrees_on alike alike (modify f).
Proof. intros Hf s s' H. simpl. split; [reflexivity|now apply Hf]. Qed.

Lemma agrees_emit (e : Event) : agrees_on alike alike (emit e).
Proof.
  apply agrees_modify. intros s s' H. destruct e; alike_tac.
Qed.

Lemma alike_flush (s s' : State) :
  alike s s' -> alike (flush_buffer s) (flush_buffer s').
Proof.
  intros H. unfold flush_buffer.
  destruct (buffered s), (buffered s'); alike_tac.
Qed.

Lemma agrees_tick : agrees_on alike alike tick.
Proof.
  intros s s' H. unfold tick.
  assert (Hp : pending s' = pending s) by (symmetry; apply H).
  assert (Hh : handler_installed s' = handler_installed s) by (symmetry; apply H).
  rewrite Hp, Hh.
  destruct (pending s) as [[[|n] [|]]|]; [destruct (handler_installed s)|..];
    rewrite ?handle_interrupt_run; cbn [fst snd];
    (split; [reflexivity|]); try apply alike_flush; alike_tac.
Qed.

Lemma agrees_get_state {A : Type} (body : State -> M A) :
  (forall s s', alike s s' -> body s = body s') ->
  (forall s, agrees_on alike alike (body s)) ->
  agrees_on alike alike (bind get_state body).
Proof.
  intros Hsame Hbody s s' H.
  change (bind get_state body s) with (body s s).
  change (bind get_state body s') with (body s' s').
  rewrite <- (Hsame s s' H). now apply Hbody.
Qed.

Lemma agrees_lift_exc {A : Type} (r : PyExc + A) : agrees_on alike alike (lift_exc r).
Proof. destruct r; simpl; [apply agrees_stop|apply agrees_ret]. Qed.

Ltac agree :=
  repeat first
    [ apply agrees_tick
    | apply agrees_emit
    | apply agrees_ret
    | apply agrees_stop
    | apply agrees_lift_exc
    | apply agrees_modify; intros ? ? ?; alike_tac
    | eassumption
    | eapply agrees_on_bind; [|intros ?] ].

Lemma agrees_write_chunks (chunks : list string) :
  agrees_on alike alike (write_chunks chunks).
Proof.
  induction chunks as [|chunk rest IH]; simpl; [apply agrees_ret|].
  eapply agrees_on_bind; [apply agrees_tick|intros _].
  eapply agrees_on_bind; [|intros _; exact IH].
  apply agrees_modify. intros s s' H. unfold buffer_chunk. alike_tac.
Qed.

Lemma agrees_save_progress (p : Progress) : agrees_on alike alike (save_progress p).
Proof.
  unfold save_progress.
  eapply agrees_on_bind; [apply agrees_tick|intros _].
  eapply agrees_on_bind.
  { apply agrees_modify. intros s s' H. unfold open_progress_file. alike_tac. }
  intros _.
  eapply agrees_on_bind; [apply agrees_write_chunks|intros _].
  eapply agrees_on_bind; [apply agrees_tick|intros _].
  apply agrees_modify. intros s s' H. unfold close_progress_file.
  apply alike_flush in H. alike_tac.
Qed.

Lemma agrees_read_table : agrees_on alike alike read_table.
Proof.
  unfold read_table. apply agrees_get_state.
  - intros s s' H. now replace (database (world s')) with (database (world s)) by apply H.
  - intros s. destruct (database (world s)); agree.
Qed.

Lemma agrees_store_hash_unit v f p hs : agrees_on alike alike (store_hash_unit v f p hs).
Proof.
  unfold store_hash_unit.
  eapply agrees_on_bind; [apply agrees_tick|intros _].
  eapply agrees_on_bind; [apply agrees_read_table|intros t]. agree.
Qed.

Lemma agrees_coverage_check : agrees_on alike alike coverage_check.
Proof.
  unfold coverage_check.
  eapply agrees_on_bind; [apply agrees_tick|intros _].
  eapply agrees_on_bind; [apply agrees_read_table|intros t]. agree.
Qed.

Lemma agrees_extract_frames vd od v : agrees_on alike alike (extract_frames vd od v).
Proof. unfold extract_frames. agree. Qed.

Lemma agrees_extract_audio vd v : agrees_on alike alike (extract_audio vd v).
Proof.
  unfold extract_audio.
  eapply agrees_on_bind; [apply agrees_tick|intros _].
  apply agrees_get_state.
  - intros s s' H.
    now replace (disk (world s')) with (disk (world s)) by apply H.
  - intros s. destruct (on_disk _ _ || wav_made v); agree.
Qed.

Lemma agrees_delete_directory path : agrees_on alike alike (delete_directory path).
Proof. unfold delete_directory. agree. Qed.

Lemma agrees_delete_files paths : agrees_on alike alike (delete_files paths).
Proof. unfold delete_files. agree. Qed.

Lemma agrees_sift_loop (i video_id : nat) (rest : list Frame) : forall j,
  agrees_on alike alike (sift_loop i video_id j rest).
Proof.
  induction rest as [|frame rest IH]; intros j; simpl; [apply agrees_ret|].
  eapply agrees_on_bind; [apply agrees_tick|intros _].
  eapply agrees_on_bind; [apply agrees_lift_exc|intros h].
  eapply agrees_on_bind; [apply agrees_store_hash_unit|intros _].
  eapply agrees_on_bind; [apply agrees_save_progress|intros _].
  eapply agrees_on_bind; [apply agrees_emit|intros _].
  eapply agrees_on_bind; [apply agrees_tick|intros _].
  eapply agrees_on_bind; [apply agrees_modify; intros ? ? ?; alike_tac|intros _].
  apply IH.
Qed.

Lemma agrees_ste_loop (i video_id : nat) (rest : list string) : forall j,
  agrees_on alike alike (ste_loop i video_id j rest).
Proof.
  induction rest as [|h rest IH]; intros j; simpl; [apply agrees_ret|].
  eapply agrees_on_bind; [apply agrees_store_hash_unit|intros _].
  eapply agrees_on_bind; [apply agrees_save_progress|intros _].
  eapply agrees_on_bind; [apply agrees_emit|intros _].
  apply IH.
Qed.

Lemma agrees_dwt_loop (i video_id : nat) (rest : list string) : forall j,
  agrees_on alike alike (dwt_loop i video_id j rest).
Proof.
  induction rest as [|h rest IH]; intros j; simpl; [apply agrees_ret|].
  eapply agrees_on_bind; [apply agrees_store_hash_unit|intros _].
  eapply agrees_on_bind; [apply agrees_save_progress|intros _].
  eapply agrees_on_bind; [apply agrees_emit|intros _].
  apply IH.
Qed.

Lemma agrees_current_stage : agrees_on alike alike current_stage.
Proof.
  unfold current_stage. apply agrees_get_state.
  - intros s s' H.
    now replace (var_feature_stage (vars s')) with (var_feature_stage (vars s)) by apply H.
  - intros s. apply agrees_ret.
Qed.

Lemma agrees_sift_stage i video_id frames :
  agrees_on alike alike (sift_stage i video_id frames).
Proof.
  unfold sift_stage.
  eapply agrees_on_bind; [apply agrees_current_stage|intros stage].
  destruct (String.eqb stage "SIFT"); [|apply agrees_ret].
  apply agrees_get_state.
  - intros s s' H.
    now replace (var_frame_index (vars s')) with (var_frame_index (vars s)) by apply H.
  - intros s.
    eapply agrees_on_bind; [apply agrees_sift_loop|intros _].
    eapply agrees_on_bind; [apply agrees_save_progress|intros _]. agree.
Qed.

Lemma agrees_ste_stage i video_id a : agrees_on alike alike (ste_stage i video_id a).
Proof.
  unfold ste_stage.
  eapply agrees_on_bind; [apply agrees_current_stage|intros stage].
  destruct (String.eqb stage "STE"); [|apply agrees_ret].
  eapply agrees_on_bind; [apply agrees_tick|intros _].
  eapply agrees_on_bind; [apply agrees_lift_exc|intros hs].
  eapply agrees_on_bind; [apply agrees_ste_loop|intros _].
  eapply agrees_on_bind; [apply agrees_save_progress|intros _]. agree.
Qed.

Lemma agrees_dwt_stage i video_id a : agrees_on alike alike (dwt_stage i video_id a).
Proof.
  unfold dwt_stage.
  eapply agrees_on_bind; [apply agrees_current_stage|intros stage].
  destruct (String.eqb stage "DWT"); [|apply agrees_ret].
  eapply agrees_on_bind; [apply agrees_tick|intros _].
  eapply agrees_on_bind; [apply agrees_lift_exc|intros hs].
  eapply agrees_on_bind; [apply agrees_dwt_loop|intros _].
  eapply agrees_on_bind; [apply agrees_save_progress|intros _]. agree.
Qed.

Lemma agrees_process_video vd od i v : agrees_on alike alike (process_video vd od i v).
Proof.
  unfold process_video.
  eapply agrees_on_bind; [apply agrees_extract_frames|intros extracted].
  eapply agrees_on_bind; [apply agrees_modify; intros ? ? ?; alike_tac|intros _].
  eapply agrees_on_bind; [apply agrees_sift_stage|intros _].
  eapply agrees_on_bind; [apply agrees_extract_audio|intros decoded].
  eapply agrees_on_bind; [apply agrees_modify; intros ? ? ?; alike_tac|intros _].
  eapply agrees_on_bind; [apply agrees_ste_stage|intros _].
  eapply agrees_on_bind; [apply agrees_dwt_stage|intros _]. agree.
Qed.

Lemma agrees_video_loop vd od (rest : list Video) : forall i,
  agrees_on alike alike (video_loop vd od i rest).
Proof.
  induction rest as [|v rest IH]; intros i; simpl; [apply agrees_ret|].
  eapply agrees_on_bind; [apply agrees_coverage_check|intros covered].
  destruct covered; [apply agrees_ret|].
  eapply agrees_on_bind; [apply agrees_process_video|intros _]. apply IH.
Qed.

Lemma agrees_read_frame_dir : agrees_on alike alike (read_bound var_frame_dir).
Proof.
  unfold read_bound. apply agrees_get_state.
  - intros s s' H.
    now replace (var_frame_dir (vars s')) with (var_frame_dir (vars s)) by apply H.
  - intros s. destruct (var_frame_dir (vars s)); agree.
Qed.

Lemma agrees_read_audio_path : agrees_on alike alike (read_bound var_audio_path).
Proof.
  unfold read_bound. apply agrees_get_state.
  - intros s s' H.
    now replace (var_audio_path (vars s')) with (var_audio_path (vars s)) by apply H.
  - intros s. destruct (var_audio_path (vars s)); agree.
Qed.

Lemma starting_tick (t1 t2 : string) : agrees_on (starting t1 t2) (starting t1 t2) tick.
Proof.
  intros s s' (H & Hh & F1 & F2). unfold tick.
  assert (Hp : pending s' = pending s) by (symmetry; apply H).
  assert (Hh' : handler_installed s' = false) by (rewrite <- Hh; symmetry; apply H).
  rewrite Hp, Hh, Hh'.
  destruct (pending s) as [[[|n] [|]]|]; cbn [fst snd]; (split; [reflexivity|]);
    try apply alike_flush; try (repeat split; try assumption); alike_tac.
Qed.

Lemma starting_create_database (t1 t2 : string) :
  agrees_on (starting t1 t2) (starting t1 t2) create_database.
Proof.
  unfold create_database.
  eapply agrees_on_bind; [apply starting_tick|intros _].
  intros s s' (H & Hh & F1 & F2). simpl. split; [reflexivity|].
  unfold starting, alike in *. simpl.
  destruct H as (Hd & Hk & Hp & Hh0 & Hfi & Hst & Hcv & Hfd & Hap & Hl).
  rewrite <- Hd.
  destruct (database (world s)) eqn:E; simpl; repeat split; congruence.
Qed.

Lemma starting_load {A : Type} (t1 t2 : string) (p1 p2 : Progress) (tail : M A) :
  json_loads t1 = Some p1 -> json_loads t2 = Some p2 ->
  frame_index p1 = frame_index p2 -> feature_stage p1 = feature_stage p2 ->
  agrees_on alike alike tail ->
  agrees_on (starting t1 t2) alike
    (s <- get_state ;;
     progress <- match progress_file (world s) with
                 | Some text => load_progress text
                 | None => ret default_progress
                 end ;;
     modify (set_vars (assign_progress progress)) ;;
     tail).
Proof.
  intros L1 L2 Ef Es Htail s s' (H & Hh & F1 & F2).
  match goal with |- context [fst (?m s)] =>
    assert (E : forall s0 t p, progress_file (world s0) = Some t -> json_loads t = Some p ->
                m s0 = tail (set_vars (assign_progress p) s0))
  end.
  { intros s0 t p Hf Hl. unfold bind, get_state. rewrite Hf. unfold load_progress.
    rewrite Hl. reflexivity. }
  rewrite (E s t1 p1 F1 L1), (E s' t2 p2 F2 L2).
  apply Htail. alike_tac.
Qed.

Lemma agrees_controller (videos_dir : string) (video_files : list Video)
    (t1 t2 : string) (p1 p2 : Progress) :
  json_loads t1 = Some p1 -> json_loads t2 = Some p2 ->
  frame_index p1 = frame_index p2 -> feature_stage p1 = feature_stage p2 ->
  agrees_on (starting t1 t2) alike
            (video_retrieval_database_construction videos_dir video_files).
Proof.
  intros L1 L2 Ef Es. unfold video_retrieval_database_construction.
  eapply agrees_on_bind; [apply starting_create_database|intros _].
  eapply agrees_on_bind; [apply starting_tick|intros _].
  apply (starting_load t1 t2 p1 p2); try assumption.
  eapply agrees_on_bind; [apply agrees_modify; intros ? ? ?; alike_tac|intros _].
  eapply agrees_on_bind; [apply agrees_tick|intros _].
  eapply agrees_on_bind; [apply agrees_modify; intros ? ? ?; alike_tac|intros _].
  eapply agrees_on_bind; [apply agrees_video_loop|intros _].
  eapply agrees_on_bind; [apply agrees_tick|intros _].
  eapply agrees_on_bind; [apply agrees_read_table|intros t].
  eapply agrees_on_bind; [apply agrees_emit|intros _].
  eapply agrees_on_bind; [apply agrees_read_frame_dir|intros frame_dir].
  eapply agrees_on_bind; [apply agrees_delete_directory|intros _].
  eapply agrees_on_bind; [apply agrees_read_audio_path|intros audio_path].
  eapply agrees_on_bind; [apply agrees_delete_files|intros _].
  apply agrees_get_state.
  - intros s s' H.
    now replace (var_carrier_videos (vars s')) with (var_carrier_videos (vars s)) by apply H.
  - intros s. apply agrees_ret.
Qed.

(** X18.  The [video_index] stored in the progress file decides nothing.
    Two runs over the same videos, under the same signal, from worlds that
    differ only in the text of the progress file, where both texts parse
    and give the same [frame_index] and [feature_stage], end the same way,
    with the same table and the same disk, after the same events apart
    from what the interrupt handler saved. *)
Theorem stored_video_index_decides_nothing (w : World) (t1 t2 : string)
    (p1 p2 : Progress) (sig : option (nat * Signal)) (video_files : list Video) :
  json_loads t1 = Some p1 -> json_loads t2 = Some p2 ->
  frame_index p1 = frame_index p2 -> feature_stage p1 = feature_stage p2 ->
  fst (run (put_progress_file t1 w) sig video_files)
  = fst (run (put_progress_file t2 w) sig video_files)
  /\ final_table (run (put_progress_file t1 w) sig video_files)
     = final_table (run (put_progress_file t2 w) sig video_files)
  /\ final_disk (run (put_progress_file t1 w) sig video_files)
     = final_disk (run (put_progress_file t2 w) sig video_files)
  /\ but_handler_save (log (snd (run (put_progress_file t1 w) sig video_files)))
     = but_handler_save (log (snd (run (put_progress_file t2 w) sig video_files))).
Proof.
  intros L1 L2 Ef Es. unfold run, final_table, final_disk.
  destruct (agrees_controller "Videos" video_files t1 t2 p1 p2 L1 L2 Ef Es
              (boot (put_progress_file t1 w) sig) (boot (put_progress_file t2 w) sig))
    as [E H].
  { repeat split. }
  assert (Ha : alike (snd (video_retrieval_database_construction "Videos" video_files
                             (boot (put_progress_file t1 w) sig)))
                     (snd (video_retrieval_database_construction "Videos" video_files
                             (boot (put_progress_file t2 w) sig)))).
  { destruct (fst _); exact H. }
  clear H. split; [exact E|].
  destruct Ha as (Hd & Hk & _ & _ & _ & _ & _ & _ & _ & Hl).
  rewrite Hd, Hk. repeat split. exact Hl.
Qed.

Lemma stored_video_index_decides_nothing_witness :
  fst (run (put_progress_file (json_dumps {| video_index := 0; frame_index := 1;
                                             feature_stage := "STE" |}) empty_world)
           (Some (30, SIGINT)) two_clips)
  = fst (run (put_progress_file (json_dumps {| video_index := 5; frame_index := 1;
                                               feature_stage := "STE" |}) empty_world)
             (Some (30, SIGINT)) two_clips)
  /\ final_table (run (put_progress_file (json_dumps {| video_index := 0; frame_index := 1;
                                                        feature_stage := "STE" |}) empty_world)
                      (Some (30, SIGINT)) two_clips)
     = final_table (run (put_progress_file (json_dumps {| video_index := 5; frame_index := 1;
                                                          feature_stage := "STE" |}) empty_world)
                        (Some (30, SIGINT)) two_clips)
  /\ final_disk (run (put_progress_file (json_dumps {| video_index := 0; frame_index := 1;
                                                       feature_stage := "STE" |}) empty_world)
                     (Some (30, SIGINT)) two_clips)
     = final_disk (run (put_progress_file (json_dumps {| video_index := 5; frame_index := 1;
                                                         feature_stage := "STE" |}) empty_world)
                       (Some (30, SIGINT)) two_clips)
  /\ but_handler_save
       (log (snd (run (put_progress_file (json_dumps {| video_index := 0; frame_index := 1;
                                                        feature_stage := "STE" |}) empty_world)
                      (Some (30, SIGINT)) two_clips)))
     = but_handler_save
         (log (snd (run (put_progress_file (json_dumps {| video_index := 5; frame_index := 1;
                                                          feature_stage := "STE" |}) empty_world)
                        (Some (30, SIGINT)) two_clips))).
Proof.
  apply (stored_video_index_decides_nothing empty_world _ _
           {| video_index := 0; frame_index := 1; feature_stage := "STE" |}
           {| video_index := 5; frame_index := 1; feature_stage := "STE" |}).
  - vm_compute. reflexivity.
  - vm_compute. reflexivity.
  - reflexivity.
  - reflexivity.
Defined.

(** ** The [video_index] the handler saves *)

Lemma indexed_bind {A B : Type} (k : nat) (m : M A) (f : A -> M B) :
  indexed k m -> (forall a, indexed k (f a)) -> indexed k (bind m f).
Proof. intros Hm Hf. eapply striple_bind; [exact Hm|exact Hf]. Qed.

Lemma indexed_ret {A : Type} (k : nat) (a : A) : indexed k (ret a).
Proof. intros s Hs. exact Hs. Qed.

Lemma indexed_stop {A : Type} (k : nat) (why : Stop) : indexed k (stop (A := A) why).
Proof. intros s Hs _. exact Hs. Qed.

Lemma indexed_get_state (k : nat) : indexed k get_state.
Proof. intros s Hs. exact Hs. Qed.

Lemma indexed_modify (k : nat) (f : State -> State) :
  (forall s, var_video_index (vars (f s)) = var_video_index (vars s)) ->
  indexed k (modify f).
Proof. intros Hf s Hs. simpl. unfold index_is in *. now rewrite Hf. Qed.

Lemma indexed_emit (k : nat) (e : Event) : indexed k (emit e).
Proof. intros s Hs. exact Hs. Qed.

Lemma indexed_lift_exc {A : Type} (k : nat) (r : PyExc + A) : indexed k (lift_exc r).
Proof. destruct r; [apply indexed_stop|apply indexed_ret]. Qed.

Lemma indexed_tick (k : nat) : indexed k tick.
Proof.
  intros s Hs. unfold tick.
  destruct (pending s) as [[[|n] [|]]|]; simpl; try exact Hs; try (intros _; exact Hs).
  destruct (handler_installed s); rewrite ?handle_interrupt_run; intros _;
    unfold index_is; rewrite vars_flush_buffer; exact Hs.
Qed.

Lemma indexed_write_chunks (k : nat) (chunks : list string) :
  indexed k (write_chunks chunks).
Proof.
  induction chunks as [|chunk rest IH]; simpl; [apply indexed_ret|].
  apply indexed_bind; [apply indexed_tick|intros _].
  apply indexed_bind; [apply indexed_modify; reflexivity|intros _]. exact IH.
Qed.

Lemma indexed_close (k : nat) : indexed k (modify close_progress_file).
Proof.
  apply indexed_modify. intros s. unfold close_progress_file. simpl.
  now rewrite vars_flush_buffer.
Qed.

Ltac index_steps :=
  repeat first
    [ apply indexed_tick
    | apply indexed_emit
    | apply indexed_ret
    | apply indexed_stop
    | apply indexed_lift_exc
    | apply indexed_get_state
    | apply indexed_write_chunks
    | apply indexed_close
    | apply indexed_modify; reflexivity
    | eassumption
    | apply indexed_bind; [|intros ?] ].

Lemma indexed_save_progress (k : nat) (p : Progress) : indexed k (save_progress p).
Proof. unfold save_progress. index_steps. Qed.

Lemma indexed_read_table (k : nat) : indexed k read_table.
Proof.
  unfold read_table. apply indexed_bind; [apply indexed_get_state|intros s].
  destruct (database (world s)); index_steps.
Qed.

Lemma indexed_store_hash_unit (k : nat) v f p hs : indexed k (store_hash_unit v f p hs).
Proof.
  unfold store_hash_unit.
  apply indexed_bind; [apply indexed_tick|intros _].
  apply indexed_bind; [apply indexed_read_table|intros t]. index_steps.
Qed.

Lemma indexed_coverage_check (k : nat) : indexed k coverage_check.
Proof.
  unfold coverage_check.
  apply indexed_bind; [apply indexed_tick|intros _].
  apply indexed_bind; [apply indexed_read_table|intros t]. index_steps.
Qed.

Lemma indexed_sift_loop (k i video_id : nat) (rest : list Frame) : forall j,
  indexed k (sift_loop i video_id j rest).
Proof.
  induction rest as [|frame rest IH]; intros j; simpl; [apply indexed_ret|].
  apply indexed_bind; [apply indexed_tick|intros _].
  apply indexed_bind; [apply indexed_lift_exc|intros h].
  apply indexed_bind; [apply indexed_store_hash_unit|intros _].
  apply indexed_bind; [apply indexed_save_progress|intros _].
  apply indexed_bind; [apply indexed_emit|intros _].
  apply indexed_bind; [apply indexed_tick|intros _].
  apply indexed_bind; [apply indexed_modify; reflexivity|intros _].
  apply IH.
Qed.

Lemma indexed_ste_loop (k i video_id : nat) (rest : list string) : forall j,
  indexed k (ste_loop i video_id j rest).
Proof.
  induction rest as [|h rest IH]; intros j; simpl; [apply indexed_ret|].
  apply indexed_bind; [apply indexed_store_hash_unit|intros _].
  apply indexed_bind; [apply indexed_save_progress|intros _].
  apply indexed_bind; [apply indexed_emit|intros _].
  apply IH.
Qed.

Lemma indexed_dwt_loop (k i video_id : nat) (rest : list string) : forall j,
  indexed k (dwt_loop i video_id j rest).
Proof.
  induction rest as [|h rest IH]; intros j; simpl; [apply indexed_ret|].
  apply indexed_bind; [apply indexed_store_hash_unit|intros _].
  apply indexed_bind; [apply indexed_save_progress|intros _].
  apply indexed_bind; [apply indexed_emit|intros _].
  apply IH.
Qed.

Lemma indexed_current_stage (k : nat) : indexed k current_stage.
Proof. unfold current_stage. index_steps. Qed.

Lemma indexed_sift_stage (k i video_id : nat) frames :
  indexed k (sift_stage i video_id frames).
Proof.
  unfold sift_stage.
  apply indexed_bind; [apply indexed_current_stage|intros stage].
  destruct (String.eqb stage "SIFT"); [|apply indexed_ret].
  apply indexed_bind; [apply indexed_get_state|intros s].
  apply indexed_bind; [apply indexed_sift_loop|intros _].
  apply indexed_bind; [apply indexed_save_progress|intros _]. index_steps.
Qed.

Lemma indexed_ste_stage (k i video_id : nat) a : indexed k (ste_stage i video_id a).
Proof.
  unfold ste_stage.
  apply indexed_bind; [apply indexed_current_stage|intros stage].
  destruct (String.eqb stage "STE"); [|apply indexed_ret].
  apply indexed_bind; [apply indexed_tick|intros _].
  apply indexed_bind; [apply indexed_lift_exc|intros hs].
  apply indexed_bind; [apply indexed_ste_loop|intros _].
  apply indexed_bind; [apply indexed_save_progress|intros _]. index_steps.
Qed.

Lemma indexed_dwt_stage (k i video_id : nat) a : indexed k (dwt_stage i video_id a).
Proof.
  unfold dwt_stage.
  apply indexed_bind; [apply indexed_current_stage|intros stage].
  destruct (String.eqb stage "DWT"); [|apply indexed_ret].
  apply indexed_bind; [apply indexed_tick|intros _].
  apply indexed_bind; [apply indexed_lift_exc|intros hs].
  apply indexed_bind; [apply indexed_dwt_loop|intros _].
  apply indexed_bind; [apply indexed_save_progress|intros _]. index_steps.
Qed.

Lemma indexed_process_video (k : nat) vd od i v : indexed k (process_video vd od i v).
Proof.
  unfold process_video, extract_frames, extract_audio.
  apply indexed_bind; [index_steps|intros extracted].
  apply indexed_bind; [apply indexed_modify; reflexivity|intros _].
  apply indexed_bind; [apply indexed_sift_stage|intros _].
  apply indexed_bind.
  { apply indexed_bind; [apply indexed_tick|intros _].
    apply indexed_bind; [apply indexed_get_state|intros s0].
    destruct (on_disk _ _ || wav_made v); index_steps. }
  intros decoded.
  apply indexed_bind; [apply indexed_modify; reflexivity|intros _].
  apply indexed_bind; [apply indexed_ste_stage|intros _].
  apply indexed_bind; [apply indexed_dwt_stage|intros _]. index_steps.
Qed.

Lemma indexed_video_loop (k : nat) vd od (rest : list Video) : forall i,
  indexed k (video_loop vd od i rest).
Proof.
  induction rest as [|v rest IH]; intros i; simpl; [apply indexed_ret|].
  apply indexed_bind; [apply indexed_coverage_check|intros covered].
  destruct covered; [apply indexed_ret|].
  apply indexed_bind; [apply indexed_process_video|intros _]. apply IH.
Qed.

Lemma indexed_read_bound (k : nat) (var : Locals -> option string) :
  indexed k (read_bound var).
Proof.
  unfold read_bound. apply indexed_bind; [apply indexed_get_state|intros s].
  destruct (var (vars s)); index_steps.
Qed.

Lemma starting_tick_unhandled (w : World) (k : nat) :
  striple (not_yet_handling w) tick (fun _ => not_yet_handling w) (exits_with_index k).
Proof.
  intros s [Hh Hf]. unfold tick.
  destruct (pending s) as [[[|n] [|]]|]; simpl; try (split; assumption);
    try (intros H; discriminate).
  rewrite Hh. intros H. discriminate.
Qed.

Lemma starting_create_unhandled (w : World) (k : nat) :
  striple (not_yet_handling w) create_database (fun _ => not_yet_handling w)
          (exits_with_index k).
Proof.
  unfold create_database.
  eapply striple_bind; [apply starting_tick_unhandled|intros ?; cbv beta].
  intros s [Hh Hf]. simpl. split; [exact Hh|].
  simpl. destruct (database (world s)); exact Hf.
Qed.

Lemma starting_load_unhandled {A : Type} (w : World) (tail : M A) :
  indexed (video_index (starting_cursor w)) tail ->
  striple (not_yet_handling w)
    (s <- get_state ;;
     progress <- match progress_file (world s) with
                 | Some text => load_progress text
                 | None => ret default_progress
                 end ;;
     modify (set_vars (assign_progress progress)) ;;
     tail)
    (fun _ _ => True)
    (exits_with_index (video_index (starting_cursor w))).
Proof.
  intros Ht s [Hh Hf].
  unfold bind at 1. cbn [get_state]. rewrite Hf.
  revert Ht. unfold starting_cursor, checkpoint_of, load_progress.
  destruct (progress_file w) as [text|]; [destruct (json_loads text) as [p|]|]; intros Ht.
  - unfold bind at 1. cbn [ret]. unfold bind at 1. cbn [modify].
    specialize (Ht (set_vars (assign_progress p) s) eq_refl).
    destruct (tail _) as [[a|why] s']; [exact I|exact Ht].
  - simpl. intros H. discriminate.
  - unfold bind at 1. cbn [ret]. unfold bind at 1. cbn [modify].
    specialize (Ht (set_vars (assign_progress default_progress) s) eq_refl).
    destruct (tail _) as [[a|why] s']; [exact I|exact Ht].
Qed.

Lemma controller_keeps_loaded_index (videos_dir : string) (video_files : list Video)
    (w : World) :
  striple (not_yet_handling w)
          (video_retrieval_database_construction videos_dir video_files)
          (fun _ _ => True)
          (exits_with_index (video_index (starting_cursor w))).
Proof.
  unfold video_retrieval_database_construction, delete_directory, delete_files.
  eapply striple_bind; [apply starting_create_unhandled|intros ?; cbv beta].
  eapply striple_bind; [apply starting_tick_unhandled|intros ?; cbv beta].
  apply starting_load_unhandled.
  apply indexed_bind; [apply indexed_modify; reflexivity|intros _].
  apply indexed_bind; [apply indexed_tick|intros _].
  apply indexed_bind; [apply indexed_modify; reflexivity|intros _].
  apply indexed_bind; [apply indexed_video_loop|intros _].
  apply indexed_bind; [apply indexed_tick|intros _].
  apply indexed_bind; [apply indexed_read_table|intros t].
  apply indexed_bind; [apply indexed_emit|intros _].
  apply indexed_bind; [apply indexed_read_bound|intros frame_dir].
  apply indexed_bind; [index_steps|intros _].
  apply indexed_bind; [apply indexed_read_bound|intros audio_path].
  apply indexed_bind; [index_steps|intros _].
  index_steps.
Qed.

(** X19.  The interrupt handler never records which video the run has
    reached.  Whenever a run ends with [exit(1)], the [video_index] the
    handler wrote (the last event of the run) is the one the run started
    from (that of the progress file it loaded, or 0), whatever video was
    being processed; the frame index and the stage are the values of the
    two variables at that moment.  When the signal interrupted no save,
    this is what the progress file reads back as. *)
Theorem interrupt_saves_the_loaded_video_index :
  forall (w : World) (sig : option (nat * Signal)) (video_files : list Video),
    fst (run w sig video_files) = Stopped (SystemExit 1) ->
    hd_error (log (snd (run w sig video_files)))
    = Some (EvSaveInterrupt
              {| video_index := video_index (starting_cursor w);
                 frame_index := var_frame_index (vars (snd (run w sig video_files)));
                 feature_stage :=
                   var_feature_stage (vars (snd (run w sig video_files))) |})
    /\ (buffered (snd (run w sig video_files)) = None ->
        checkpoint_of (world (snd (run w sig video_files)))
        = Some {| video_index := video_index (starting_cursor w);
                  frame_index := var_frame_index (vars (snd (run w sig video_files)));
                  feature_stage :=
                    var_feature_stage (vars (snd (run w sig video_files))) |}).
Proof.
  intros w sig video_files. unfold run.
  pose proof (plainly_controller "Videos" video_files (boot w sig) eq_refl) as Hw.
  pose proof (controller_keeps_loaded_index "Videos" video_files w (boot w sig)
                (conj eq_refl eq_refl)) as Hi.
  destruct (video_retrieval_database_construction "Videos" video_files (boot w sig))
    as [[a|why] s']; simpl; [discriminate|].
  intros H. injection H as ->.
  destruct (Hw eq_refl) as ((older & Hl) & _ & Hc).
  unfold cursor_of in Hl, Hc. rewrite (Hi eq_refl) in Hl, Hc.
  split; [now rewrite Hl|exact Hc].
Qed.

Lemma interrupt_saves_the_loaded_video_index_witness :
  hd_error (log (snd (run empty_world (Some (211, SIGINT)) two_clips)))
  = Some (EvSaveInterrupt
            {| video_index := video_index (starting_cursor empty_world);
               frame_index :=
                 var_frame_index (vars (snd (run empty_world (Some (211, SIGINT)) two_clips)));
               feature_stage :=
                 var_feature_stage
                   (vars (snd (run empty_world (Some (211, SIGINT)) two_clips))) |}).
Proof.
  apply (interrupt_saves_the_loaded_video_index empty_world (Some (211, SIGINT)) two_clips).
  vm_compute. reflexivity.
Defined.
(** ** SIGINT before the handler is installed *)



(** ** What a run never deletes *)

Section Guards.

Variable path : string.

































End Guards.



(** ** Every stored unit is checkpointed next *)

Lemma settled_checkpointed (l : list Event) : settled l -> checkpointed l.
Proof. now intros [H _]. Qed.

Lemma awaiting_checkpointed v f p (l : list Event) : awaiting v f p l -> checkpointed l.
Proof. now intros [H _]. Qed.

Lemma checkpointed_absorbs : absorbs checkpointed.
Proof.
  intros l p H. simpl. split; [exact H|].
  destruct l as [|[] older]; auto.
Qed.

Lemma settled_emit (e : Event) (l : list Event) :
  settled l -> is_update e = false -> settled (e :: l).
Proof.
  intros [Hc Hh] He. split; [|exact He]. simpl. split; [exact Hc|].
  destruct l as [|[] older]; auto. discriminate.
Qed.

Lemma settled_update v f p b (l : list Event) :
  settled l -> awaiting v f p (EvUpdate v f p b :: l).
Proof.
  intros [Hc Hh]. split; [|eauto]. simpl. split; [exact Hc|].
  destruct l as [|[] older]; auto.
Qed.

Lemma awaiting_saved (i : nat) f p (l : list Event) :
  awaiting (i + 1) f p l ->
  settled (EvSaveUnit {| video_index := i; frame_index := p + 1; feature_stage := f |} :: l).
Proof.
  intros [Hc (b & older & ->)]. split; [|reflexivity]. simpl. split; [exact Hc|].
  left. unfold unit_save. now rewrite Nat.add_sub.
Qed.

Ltac settle_step :=
  first
    [ solve [apply triple_tick; [apply settled_checkpointed|apply checkpointed_absorbs]]
    | solve [apply triple_save_progress;
             [apply settled_checkpointed|apply checkpointed_absorbs]]
    | solve [apply triple_modify; reflexivity]
    | solve [apply triple_get_state]
    | solve [apply triple_lift_exc; apply settled_checkpointed]
    | solve [apply triple_read_table; apply settled_checkpointed]
    | solve [apply triple_emit_to; intros ? ?; apply settled_emit;
             [eassumption|reflexivity]] ].

Ltac settle_steps :=
  repeat (eapply triple_bind; [settle_step|intros ?; cbv beta]).

Lemma unit_settles (i j : nat) (f h : string) {A : Type} (rest : M A) :
  triple settled rest (fun _ => settled) checkpointed ->
  triple settled
    (store_hash_unit (i + 1) f j [h] ;;
     save_progress {| video_index := i; frame_index := j + 1; feature_stage := f |} ;;
     emit (EvSaveUnit {| video_index := i; frame_index := j + 1; feature_stage := f |}) ;;
     rest)
    (fun _ => settled) checkpointed.
Proof.
  intros Hrest.
  eapply triple_bind.
  { apply (triple_store_hash_unit settled (awaiting (i + 1) f j));
      [apply settled_checkpointed|apply checkpointed_absorbs|].
    intros l. apply settled_update. }
  intros ?; cbv beta.
  eapply triple_bind.
  { apply triple_save_progress; [apply awaiting_checkpointed|apply checkpointed_absorbs]. }
  intros ?; cbv beta.
  eapply triple_bind.
  { apply triple_emit_to. intros l. apply awaiting_saved. }
  intros ?; cbv beta. exact Hrest.
Qed.

Lemma sift_loop_settles (i : nat) (rest : list Frame) : forall j,
  triple settled (sift_loop i (i + 1) j rest) (fun _ => settled) checkpointed.
Proof.
  induction rest as [|frame rest IH]; intros j; simpl.
  - now apply triple_ret.
  - settle_steps. apply unit_settles. settle_steps. apply IH.
Qed.

Lemma ste_loop_settles (i : nat) (rest : list string) : forall j,
  triple settled (ste_loop i (i + 1) j rest) (fun _ => settled) checkpointed.
Proof.
  induction rest as [|h rest IH]; intros j; simpl.
  - now apply triple_ret.
  - apply unit_settles. apply IH.
Qed.

Lemma dwt_loop_settles (i : nat) (rest : list string) : forall j,
  triple settled (dwt_loop i (i + 1) j rest) (fun _ => settled) checkpointed.
Proof.
  induction rest as [|h rest IH]; intros j; simpl.
  - now apply triple_ret.
  - apply unit_settles. apply IH.
Qed.

Lemma current_stage_settles :
  triple settled current_stage (fun _ => settled) checkpointed.
Proof.
  unfold current_stage.
  eapply triple_bind; [apply triple_get_state|intros s; cbv beta].
  now apply triple_ret.
Qed.

Lemma sift_stage_settles (i : nat) frames :
  triple settled (sift_stage i (i + 1) frames) (fun _ => settled) checkpointed.
Proof.
  unfold sift_stage.
  eapply triple_bind; [apply current_stage_settles|intros stage; cbv beta].
  destruct (String.eqb stage "SIFT"); [|now apply triple_ret].
  settle_steps.
  eapply triple_bind; [apply sift_loop_settles|intros ?; cbv beta].
  settle_steps. settle_step.
Qed.

Lemma ste_stage_settles (i : nat) a :
  triple settled (ste_stage i (i + 1) a) (fun _ => settled) checkpointed.
Proof.
  unfold ste_stage.
  eapply triple_bind; [apply current_stage_settles|intros stage; cbv beta].
  destruct (String.eqb stage "STE"); [|now apply triple_ret].
  settle_steps.
  eapply triple_bind; [apply ste_loop_settles|intros ?; cbv beta].
  settle_steps. settle_step.
Qed.

Lemma dwt_stage_settles (i : nat) a :
  triple settled (dwt_stage i (i + 1) a) (fun _ => settled) checkpointed.
Proof.
  unfold dwt_stage.
  eapply triple_bind; [apply current_stage_settles|intros stage; cbv beta].
  destruct (String.eqb stage "DWT"); [|now apply triple_ret].
  settle_steps.
  eapply triple_bind; [apply dwt_loop_settles|intros ?; cbv beta].
  settle_steps. settle_step.
Qed.

Lemma process_video_settles vd od i v :
  triple settled (process_video vd od i v) (fun _ => settled) checkpointed.
Proof.
  unfold process_video, extract_frames, extract_audio. cbv zeta.
  eapply triple_bind.
  { instantiate (1 := fun _ => settled). settle_steps. now apply triple_ret. }
  intros extracted; cbv beta. settle_steps.
  eapply triple_bind; [apply sift_stage_settles|intros ?; cbv beta].
  eapply triple_bind.
  { instantiate (1 := fun _ => settled). settle_steps.
    destruct (on_disk _ _ || wav_made v); settle_steps;
      [now apply triple_ret|apply triple_stop; apply settled_checkpointed]. }
  intros decoded; cbv beta. settle_steps.
  eapply triple_bind; [apply ste_stage_settles|intros ?; cbv beta].
  eapply triple_bind; [apply dwt_stage_settles|intros ?; cbv beta].
  settle_steps. settle_step.
Qed.

Lemma video_loop_settles vd od (rest : list Video) : forall i,
  triple settled (video_loop vd od i rest) (fun _ => settled) checkpointed.
Proof.
  induction rest as [|v rest IH]; intros i; simpl.
  - now apply triple_ret.
  - eapply triple_bind.
    { instantiate (1 := fun _ => settled). unfold coverage_check. settle_steps.
      now apply triple_ret. }
    intros covered; cbv beta. destruct covered; [now apply triple_ret|].
    eapply triple_bind; [apply process_video_settles|intros ?; cbv beta]. apply IH.
Qed.

Lemma create_database_settles :
  triple settled create_database (fun _ => settled) checkpointed.
Proof. unfold create_database. settle_steps. settle_step. Qed.

Lemma read_bound_settles (var : Locals -> option string) :
  triple settled (read_bound var) (fun _ => settled) checkpointed.
Proof.
  unfold read_bound.
  eapply triple_bind; [apply triple_get_state|intros s; cbv beta].
  destruct (var (vars s));
    [now apply triple_ret|apply triple_stop; apply settled_checkpointed].
Qed.

Lemma delete_directory_settles (found : string) :
  triple settled (delete_directory found) (fun _ => settled) checkpointed.
Proof. unfold delete_directory. settle_steps. settle_step. Qed.

Lemma delete_files_settles (found : list string) :
  triple settled (delete_files found) (fun _ => settled) checkpointed.
Proof. unfold delete_files. settle_steps. settle_step. Qed.

Lemma controller_settles (videos_dir : string) (video_files : list Video) :
  triple settled (video_retrieval_database_construction videos_dir video_files)
         (fun _ => settled) checkpointed.
Proof.
  unfold video_retrieval_database_construction. cbv zeta.
  eapply triple_bind; [apply create_database_settles|intros ?; cbv beta].
  eapply triple_bind; [settle_step|intros ?; cbv beta].
  eapply triple_bind; [apply triple_get_state|intros s0; cbv beta].
  eapply triple_bind.
  { instantiate (1 := fun _ => settled).
    destruct (progress_file (world s0)) as [text|]; [|now apply triple_ret].
    unfold load_progress. destruct (json_loads text);
      [now apply triple_ret|apply triple_stop; apply settled_checkpointed]. }
  intros progress; cbv beta. settle_steps.
  eapply triple_bind; [apply video_loop_settles|intros ?; cbv beta].
  settle_steps.
  eapply triple_bind; [apply read_bound_settles|intros frame_dir; cbv beta].
  eapply triple_bind; [apply delete_directory_settles|intros ?; cbv beta].
  eapply triple_bind; [apply read_bound_settles|intros audio_path; cbv beta].
  eapply triple_bind; [apply delete_files_settles|intros ?; cbv beta].
  eapply triple_bind; [apply triple_get_state|intros s1; cbv beta].
  now apply triple_ret.
Qed.

Lemma checkpointed_inside (newer older : list Event) v f p b e :
  checkpointed (newer ++ e :: EvUpdate v f p b :: older) ->
  e = unit_save v f p \/ handler_save e = true.
Proof.
  induction newer as [|x newer IH]; simpl.
  - now intros [_ H].
  - intros [H _]. now apply IH.
Qed.

Lemma checkpointed_trace (l : list Event) : checkpointed l -> saved_next (rev l).
Proof.
  intros Hc pre post v f p b e H.
  apply (f_equal (@rev Event)) in H. rewrite rev_involutive, rev_app_distr in H.
  simpl in H. rewrite <- !app_assoc in H. simpl in H.
  rewrite H in Hc. now apply checkpointed_inside in Hc.
Qed.

(** X22.  Every stored unit is checkpointed next.  In the trace of every
    run, complete or cut short, what follows a call of
    [update_retrieval_database] for position p of feature f of video
    number v is the save of (v - 1, p + 1, f), the cursor just past that
    unit, and nothing comes in between but, possibly, the save of the
    interrupt handler. *)
Theorem stored_unit_is_saved_next :
  forall (w : World) (sig : option (nat * Signal)) (video_files : list Video),
    saved_next (trace (snd (run w sig video_files))).
Proof.
  intros w sig video_files. unfold trace. apply checkpointed_trace. unfold run.
  pose proof (controller_settles "Videos" video_files (boot w sig)) as H.
  destruct (video_retrieval_database_construction "Videos" video_files (boot w sig))
    as [[a|why] s']; simpl.
  - apply settled_checkpointed, H. split; exact I.
  - apply H. split; exact I.
Qed.

(** ** SIGINT inside a save, the reader of the progress file, failing decoders *)

(** X25.  SIGINT inside [save_progress].  The handler writes its own
    record through a second file object and [exit(1)] then closes the
    file object of the interrupted save, whose buffer lands at the start
    of the file.  (a) In the transition save of (0, 0, STE), interrupted
    when [json.dump] has written everything: the handler writes
    (0, 3, SIFT), one character longer, and the file ends as the text of
    (0, 0, STE) followed by a second closing brace, which the next start
    cannot parse.  (b) In the save of (1, 1, STE) of the second video,
    interrupted at the same point: the handler writes (0, 3, STE) and the
    file ends as (1, 1, STE).  (c) In that same save, interrupted when
    [json.dump] has written six pieces: the file reads back as
    (1, 3, STE), a cursor that nothing saved. *)
Theorem interrupted_save_lands_on_handler_record :
  let a := run empty_world (Some (73, SIGINT)) two_clips in
  let b := run empty_world (Some (210, SIGINT)) two_clips in
  let c := run empty_world (Some (203, SIGINT)) two_clips in
  fst a = Stopped (SystemExit 1)
  /\ hd_error (log (snd a))
     = Some (EvSaveInterrupt {| video_index := 0; frame_index := 3;
                                feature_stage := "SIFT" |})
  /\ progress_file (world (snd a))
     = Some (json_dumps {| video_index := 0; frame_index := 0; feature_stage := "STE" |}
             ++ "}")%string
  /\ checkpoint_of (world (snd a)) = None
  /\ fst b = Stopped (SystemExit 1)
  /\ hd_error (log (snd b))
     = Some (EvSaveInterrupt {| video_index := 0; frame_index := 3;
                                feature_stage := "STE" |})
  /\ checkpoint_of (world (snd b))
     = Some {| video_index := 1; frame_index := 1; feature_stage := "STE" |}
  /\ fst c = Stopped (SystemExit 1)
  /\ hd_error (log (snd c))
     = Some (EvSaveInterrupt {| video_index := 0; frame_index := 3;
                                feature_stage := "STE" |})
  /\ checkpoint_of (world (snd c))
     = Some {| video_index := 1; frame_index := 3; feature_stage := "STE" |}.
Proof. vm_compute. repeat split; reflexivity. Qed.


